(** * Schema algebra and allele-index remapping of [utils.py]

    A shallow embedding of the schema functions of [utils.py]
    ([flatten_struct], [group_annotations_by_attribute], [merge_TStructs],
    [get_schema_expr]) and of the annotation-expression generators
    ([index_into_arrays], [cut_allele_from_g_array]), with the properties
    the specification states about them.

    Python objects that the code mutates are kept in an explicit store:
    every [Field] carries the identity of its attribute dictionary, and the
    dictionaries themselves live in the heap of the interpreter state. *)

From Stdlib Require Import ZArith Lia DecimalString.
From stdpp Require Import base option list strings gmap fin_maps sorting.

Local Open Scope string_scope.
Local Open Scope list_scope.

(** ** Type model *)

(** Identity of a Python [dict] object holding the attributes of a field. *)
Definition loc := nat.

Record Field_ (T : Type) : Type := MkField {
  name : string;
  typ : T;
  attributes : loc
}.
Arguments MkField {T} _ _ _.
Arguments name {T} _.
Arguments typ {T} _.
Arguments attributes {T} _.

(** Modelled from the spec: the closed set of field types of section 3 (the
    classes [TInt] ... [TStruct] come from the host library, which is not
    part of the sources). *)
#[warnings="-register-all"]
Inductive Ty : Type :=
  | TInt
  | TLong
  | TFloat
  | TDouble
  | TString
  | TBoolean
  | TArray (element : Ty)
  | TSet (element : Ty)
  | TStruct (fields : list (Field_ Ty)).

Notation Field := (Field_ Ty).

(** The class of a type value, i.e. what Python's [type(t)] returns. *)
Inductive PyClass : Type :=
  | CInt | CLong | CFloat | CDouble | CString | CBoolean
  | CArray | CSet | CStruct.

Global Instance PyClass_eq_dec : EqDecision PyClass.
Proof. solve_decision. Defined.

Definition class_of (t : Ty) : PyClass :=
  match t with
  | TInt => CInt
  | TLong => CLong
  | TFloat => CFloat
  | TDouble => CDouble
  | TString => CString
  | TBoolean => CBoolean
  | TArray _ => CArray
  | TSet _ => CSet
  | TStruct _ => CStruct
  end.

(** Nesting depth of a type: the recursion of the schema functions is
    bounded by it. *)
Fixpoint ty_depth (t : Ty) : nat :=
  match t with
  | TStruct fs => S (foldr (fun f d => Nat.max (ty_depth (typ f)) d) 0 fs)
  | _ => 0
  end.

(** ** Python results, exceptions and the interpreter state *)

Inductive exn : Type :=
  | ValueError
  | TypeError
  | AttributeError
  | KeyError
  | SystemExit.

Inductive level : Type := INFO | WARNING | ERROR | FATAL.

Record state : Type := MkState {
  heap : gmap loc (gmap string string);
  log : list (level * string)
}.

Inductive outcome (A : Type) : Type :=
  | Done (a : A) (st : state)
  | Raise (e : exn) (st : state)
  | Timeout.
Arguments Done {A} _ _.
Arguments Raise {A} _ _.
Arguments Timeout {A}.

Definition M (A : Type) : Type := state -> outcome A.

Definition ret {A} (a : A) : M A := fun st => Done a st.
Definition raise {A} (e : exn) : M A := fun st => Raise e st.
Definition timeout {A} : M A := fun _ => Timeout.
Definition bind {A B} (m : M A) (k : A -> M B) : M B :=
  fun st =>
    match m st with
    | Done a st' => k a st'
    | Raise e st' => Raise e st'
    | Timeout => Timeout
    end.

Declare Scope py_scope.
Delimit Scope py_scope with py.
Notation "x <- c1 ;; c2" := (bind c1 (fun x => c2))
  (at level 100, c1 at next level, right associativity) : py_scope.
Notation "c1 ;;; c2" := (bind c1 (fun _ => c2))
  (at level 100, right associativity) : py_scope.
Local Open Scope py_scope.

(** [logger.warn(msg)] and friends append a record to the diagnostics. *)
Definition logger (l : level) (msg : string) : M unit :=
  fun st => Done tt (MkState (heap st) (log st ++ [(l, msg)])).

(** The dictionary behind an attribute reference. *)
Definition attrs_at (st : state) (l : loc) : gmap string string :=
  default ∅ (heap st !! l).

Definition get_attrs (l : loc) : M (gmap string string) :=
  fun st => Done (attrs_at st l) st.

(** [d[k] = v] on the dictionary object [l]. *)
Definition set_item (l : loc) (k v : string) : M unit :=
  fun st => Done tt (MkState (<[l := <[k := v]> (attrs_at st l)]> (heap st)) (log st)).

(** [for x in xs: body x], threading the state and stopping at the first
    exception. *)
Fixpoint for_each {A} (xs : list A) (body : A -> M unit) : M unit :=
  match xs with
  | [] => ret tt
  | x :: xs' => body x ;;; for_each xs' body
  end.

(** A loop that carries an accumulator. *)
Fixpoint fold_each {A B} (xs : list A) (body : B -> A -> M B) (acc : B) : M B :=
  match xs with
  | [] => ret acc
  | x :: xs' => acc' <- body acc x ;; fold_each xs' body acc'
  end.

(** Python's [isinstance(obj, classinfo)]: the second argument must be a
    class; given an instance, the call raises [TypeError]. *)
Inductive classinfo : Type :=
  | AClass (c : PyClass)
  | AnInstance (t : Ty).

Definition isinstance {A} (obj : Ty) (ci : classinfo) (k : bool -> M A) : M A :=
  match ci with
  | AClass c => k (bool_decide (class_of obj = c))
  | AnInstance _ => raise TypeError
  end.

(** [type(t)] *)
Definition type_of (t : Ty) : classinfo := AClass (class_of t).

(** ** Ordered dictionaries *)

(** [collections.OrderedDict] with string keys: assignment to a present key
    replaces the value in place, assignment to a new key appends. *)
Definition odict (V : Type) : Type := list (string * V).

Fixpoint od_set {V} (k : string) (v : V) (d : odict V) : odict V :=
  match d with
  | [] => [(k, v)]
  | (k', v') :: d' =>
      if decide (k' = k) then (k, v) :: d' else (k', v') :: od_set k v d'
  end.

Fixpoint od_get {V} (k : string) (d : odict V) : option V :=
  match d with
  | [] => None
  | (k', v') :: d' => if decide (k' = k) then Some v' else od_get k d'
  end.

Definition od_keys {V} (d : odict V) : list string := d.*1.
Definition od_values {V} (d : odict V) : list V := d.*2.
Definition od_mem {V} (k : string) (d : odict V) : bool :=
  bool_decide (k ∈ od_keys d).

(** [d.update(e)]: assigns the items of [e] in their order. *)
Definition od_update {V} (d e : odict V) : odict V :=
  foldl (fun acc kv => od_set kv.1 kv.2 acc) d e.

(** ** Schema flattener *)

(** ['{}.{}'.format(root, name)] *)
Definition dotted (root nm : string) : string := root +:+ "." +:+ nm.

Definition is_empty_string (s : string) : bool :=
  match s with EmptyString => true | _ => false end.

(** The loop of [flatten_struct] over [struct.fields]; [rec] stands for
    the recursive call [flatten_struct(f.typ, path, leaf_only)]. *)
Section flatten_loop.
Variable rec : Ty -> string -> odict Field.

Fixpoint flatten_loop (fs : list Field) (root : string)
    (leaf_only recursive : bool) (result : odict Field) : odict Field :=
  match fs with
  | [] => result
  | f :: fs' =>
      let path := if is_empty_string root then name f else dotted root (name f) in
      match typ f with
      | TStruct _ =>
          if recursive then
            let result := if leaf_only then result else od_set path f result in
            flatten_loop fs' root leaf_only recursive
              (od_update result (rec (typ f) path))
          else flatten_loop fs' root leaf_only recursive (od_set path f result)
      | _ => flatten_loop fs' root leaf_only recursive (od_set path f result)
      end
  end.
End flatten_loop.

(** [flatten_struct(struct, root, leaf_only, recursive)] on a [TStruct];
    the recursive call leaves [recursive] at its default [True]. *)
Fixpoint flatten_fields (struct : Ty) (root : string) (leaf_only recursive : bool)
    {struct struct} : odict Field :=
  match struct with
  | TStruct fs =>
      flatten_loop (fun t path => flatten_fields t path leaf_only true)
        fs root leaf_only recursive []
  | _ => []
  end.

(** [struct.fields] fails on a value that is not a [TStruct]. *)
Definition flatten_struct (struct : Ty) (root : string) (leaf_only recursive : bool)
    : M (odict Field) :=
  match struct with
  | TStruct _ => ret (flatten_fields struct root leaf_only recursive)
  | _ => raise AttributeError
  end.

(** ** Induction on types *)

Section Ty_induction.
Variable P : Ty -> Prop.
Hypothesis HInt : P TInt.
Hypothesis HLong : P TLong.
Hypothesis HFloat : P TFloat.
Hypothesis HDouble : P TDouble.
Hypothesis HString : P TString.
Hypothesis HBoolean : P TBoolean.
Hypothesis HArray : forall e, P e -> P (TArray e).
Hypothesis HSet : forall e, P e -> P (TSet e).
Hypothesis HStruct : forall fs, Forall (fun f => P (typ f)) fs -> P (TStruct fs).

Fixpoint Ty_nested_ind (t : Ty) : P t :=
  match t with
  | TInt => HInt
  | TLong => HLong
  | TFloat => HFloat
  | TDouble => HDouble
  | TString => HString
  | TBoolean => HBoolean
  | TArray e => HArray e (Ty_nested_ind e)
  | TSet e => HSet e (Ty_nested_ind e)
  | TStruct fs =>
      HStruct fs
        ((fix go (fs : list Field) : Forall (fun f => P (typ f)) fs :=
            match fs with
            | [] => List.Forall_nil _
            | f :: fs' => List.Forall_cons _ f fs' (Ty_nested_ind (typ f)) (go fs')
            end) fs)
  end.
End Ty_induction.

(** ** First occurrences *)

(** [fresh seen l]: the elements of [l] that are neither in [seen] nor
    earlier in [l], in the order of [l]. *)
Fixpoint fresh (seen l : list string) : list string :=
  match l with
  | [] => []
  | x :: l' =>
      if decide (x ∈ seen) then fresh seen l' else x :: fresh (x :: seen) l'
  end.

(** A list without its repetitions, every element at its first position. *)
Definition first_occurrences (l : list string) : list string := fresh [] l.

(** ** Paths of a flattened schema *)

(** The paths of field names that [flatten_struct] visits, depth first in
    declaration order: a nested [TStruct] contributes itself (unless
    [leaf_only]) and then its own paths, each below its name. *)
Fixpoint name_paths (t : Ty) (leaf_only recursive : bool) : list (list string) :=
  match t with
  | TStruct fs =>
      concat (map (fun f =>
        match typ f with
        | TStruct _ =>
            if recursive then
              (if leaf_only then [] else [[name f]]) ++
              map (cons (name f)) (name_paths (typ f) leaf_only true)
            else [[name f]]
        | _ => [[name f]]
        end) fs)
  | _ => []
  end.

(** The key the specification gives to a path of names: the names joined
    by dots, below [root] and a dot when [root] is not empty. *)
Definition path_key (root : string) (p : list string) : string :=
  if is_empty_string root then String.concat "." p
  else dotted root (String.concat "." p).

(** The fields of a struct that are structs themselves all have a name. *)
Definition named_structs (t : Ty) : Prop :=
  match t with
  | TStruct fs => Forall (fun f => class_of (typ f) = CStruct -> name f <> "") fs
  | _ => True
  end.

(** ** State of the examples *)

Definition empty_state : state := MkState ∅ [].

(** [Struct{ : Struct{c: Int}}], a struct field whose name is empty. *)
Definition anonymous_struct : Ty :=
  TStruct [MkField "" (TStruct [MkField "c" TInt 1]) 0].

(** [Struct{rsid: String, info: Struct{AC: Array[Int], AN: Int}}] *)
Definition sample_schema : Ty :=
  TStruct [MkField "rsid" TString 0;
           MkField "info" (TStruct [MkField "AC" (TArray TInt) 1;
                                    MkField "AN" TInt 2]) 3].


(** ** Schema merger *)

(** The text of the attribute-conflict warning. *)
Definition attribute_conflict (k nm kept v : string) : string :=
  "Found different values for attribute " +:+ k +:+ " for field " +:+ nm +:+
  " while merging structs:" +:+ kept +:+ ", " +:+ v.

Definition single_struct_warning : string :=
  "Called `merge_TStructs` on a list with a single `TStruct` -- returning that `TStruct`.".

(** [[f(x) for x in xs]] for an [f] that may raise. *)
Fixpoint map_each {A B} (f : A -> M B) (xs : list A) : M (list B) :=
  match xs with
  | [] => ret []
  | x :: xs' => y <- f x ;; ys <- map_each f xs' ;; ret (y :: ys)
  end.

Section merge_loops.
(** The recursive call [merge_TStructs(...)]: its result and what is left
    of the list object it was given. *)
Variable rec : list Ty -> M (Ty * list Ty).

(** Body of [for k,v in f2.attributes.iteritems()]; [attrs] is the
    dictionary object bound to the local variable [attributes]. *)
Definition merge_attribute (nm : string) (attrs : loc) (kv : string * string) : M unit :=
  a <- get_attrs attrs ;;
  match a !! kv.1 with
  | Some kept =>
      if decide (kv.2 = kept) then ret tt
      else logger WARNING (attribute_conflict kv.1 nm kept kv.2)
  | None => set_item attrs kv.1 kv.2
  end.

(** Body of [for f2 in f_overlap]. *)
Definition merge_overlap (nm : string) (f : Field) (attrs : loc) (f2 : Field) : M unit :=
  isinstance (typ f2) (type_of (typ f)) (fun same =>
    if same then
      a2 <- get_attrs (attributes f2) ;;
      for_each (map_to_list a2) (merge_attribute nm attrs)
    else raise TypeError).

(** [[x[name] for x in s_fields if name in x]] *)
Definition overlap_of (nm : string) (s_fields : list (odict Field)) : list Field :=
  omap (od_get nm) s_fields.

(** Body of [for name, f in s_current.iteritems()]. The merged field is a
    new [Field] when the nested structs are merged and [f] itself otherwise;
    in both cases its [attributes] are set to the dictionary [attributes],
    which is the one [f] has. *)
Definition merge_field (s_fields : list (odict Field)) (fields : odict Field)
    (nf : string * Field) : M (odict Field) :=
  let nm := nf.1 in
  let f := nf.2 in
  if od_mem nm fields then ret fields
  else
    let attrs := attributes f in
    let f_overlap := overlap_of nm s_fields in
    for_each f_overlap (merge_overlap nm f attrs) ;;;
    match typ f, f_overlap with
    | TStruct _, _ :: _ =>
        r <- rec (typ f :: map typ f_overlap) ;;
        ret (od_set nm (MkField nm r.1 attrs) fields)
    | _, _ => ret (od_set nm f fields)
    end.

(** [while len(s_fields) > 0: s_current = s_fields.pop(0); ...] *)
Fixpoint merge_queue (s_fields : list (odict Field)) (fields : odict Field)
    : M (odict Field) :=
  match s_fields with
  | [] => ret fields
  | s_current :: s_fields' =>
      fields' <- fold_each s_current (merge_field s_fields') fields ;;
      merge_queue s_fields' fields'
  end.
End merge_loops.

(** [merge_TStructs(s)] with a bound on the depth of its recursion. The
    second component of the result is the content of the list object [s]
    when the call returns. *)
Fixpoint merge_TStructs_fuel (fuel : nat) (s : list Ty) : M (Ty * list Ty) :=
  match fuel with
  | 0 => timeout
  | S fuel' =>
      match s with
      | [] => raise ValueError
      | [x] => logger WARNING single_struct_warning ;;; ret (x, [])
      | _ =>
          s_fields <- map_each (fun x => flatten_struct x "" true false) s ;;
          fields <- merge_queue (merge_TStructs_fuel fuel') s_fields [] ;;
          ret (TStruct (od_values fields), s)
      end
  end.

Definition max_depth (s : list Ty) : nat := foldr (fun t d => Nat.max (ty_depth t) d) 0 s.

Definition merge_TStructs (s : list Ty) : M (Ty * list Ty) :=
  merge_TStructs_fuel (S (max_depth s)) s.

(** ** Outcomes of a computation *)

(** [wp m st Q E T]: from [st], [m] returns a value and a state in [Q],
    raises an exception and leaves a state in [E], or exhausts its fuel and
    [T] holds. *)
Definition wp {A} (m : M A) (st : state)
    (Q : A -> state -> Prop) (E : exn -> state -> Prop) (T : Prop) : Prop :=
  match m st with
  | Done a st' => Q a st'
  | Raise e st' => E e st'
  | Timeout => T
  end.

(** The field names of a struct, in declaration order. *)
Definition field_names (t : Ty) : list string :=
  match t with
  | TStruct fs => map name fs
  | _ => []
  end.

Definition struct_fields (t : Ty) : list Field :=
  match t with
  | TStruct fs => fs
  | _ => []
  end.

Definition is_struct (t : Ty) : Prop := class_of t = CStruct.

(** The same-named fields of a queue of flattened structs have the same
    class, for the names outside [seen]. *)
Definition compatible_from (seen : list string) (q : list (odict Field)) : Prop :=
  forall i j di dj n fi fj,
    n ∉ seen -> i < j ->
    q !! i = Some di -> q !! j = Some dj ->
    od_get n di = Some fi -> od_get n dj = Some fj ->
    class_of (typ fi) = class_of (typ fj).

(** Every entry of an ordered dictionary of fields is filed under the name
    of its field. *)
Definition keyed_by_name (d : odict Field) : Prop :=
  Forall (fun kv => name kv.2 = kv.1) d.

(** The direct fields of a struct, as [merge_TStructs] flattens it. *)
Definition direct_fields (t : Ty) : odict Field := flatten_fields t "" true false.

(** [Struct{a: Int, b: String}] and [Struct{b: String, c: Float}] *)
Definition struct_ab : Ty := TStruct [MkField "a" TInt 0; MkField "b" TString 1].
Definition struct_bc : Ty := TStruct [MkField "b" TString 2; MkField "c" TFloat 3].

(** Their merge: [Struct{a: Int, b: String, c: Float}]. *)
Definition struct_abc : Ty :=
  TStruct [MkField "a" TInt 0; MkField "b" TString 1; MkField "c" TFloat 3].

(** No field of the struct is itself a struct. *)
Definition flat_struct (t : Ty) : Prop :=
  Forall (fun f => class_of (typ f) <> CStruct) (struct_fields t).

(** Any two fields of the same name in two structs of the list have the
    same class. *)
Definition same_classes (s : list Ty) : Prop :=
  forall i j ti tj fi fj,
    i < j -> s !! i = Some ti -> s !! j = Some tj ->
    fi ∈ struct_fields ti -> fj ∈ struct_fields tj ->
    name fi = name fj -> class_of (typ fi) = class_of (typ fj).

(** [Struct{a: Int}], [Struct{a: String}], [Struct{a: Array[Int]}] and
    [Struct{a: Array[String]}] *)
Definition struct_a_int : Ty := TStruct [MkField "a" TInt 0].
Definition struct_a_string : Ty := TStruct [MkField "a" TString 1].
Definition struct_a_ints : Ty := TStruct [MkField "a" (TArray TInt) 0].
Definition struct_a_strings : Ty := TStruct [MkField "a" (TArray TString) 1].

(** ** Effects on the store *)

(** The attribute dictionaries of the fields of a type, through nested
    structs. *)
Fixpoint all_locs (t : Ty) : list loc :=
  match t with
  | TStruct fs => concat (map (fun f => attributes f :: all_locs (typ f)) fs)
  | _ => []
  end.

(** From [st] to [st'] no attribute entry was removed or changed, only the
    dictionaries in [L] may have gained entries, and the log was extended. *)
Definition grows (L : list loc) (st st' : state) : Prop :=
  (forall l k v, attrs_at st l !! k = Some v -> attrs_at st' l !! k = Some v) /\
  (forall l, l ∉ L -> attrs_at st' l = attrs_at st l) /\
  log st `prefix_of` log st'.

(** [m] relates the state it starts from to the state it leaves, whether
    it returns or raises. *)
Definition keeps {A} (R : state -> state -> Prop) (m : M A) : Prop :=
  forall st, wp m st (fun _ st' => R st st') (fun _ st' => R st st') True.

(** A store in which only the dictionary [1] has an entry, [Number = "1"]. *)
Definition numbered_state : state :=
  MkState {[ 1 := {[ "Number" := "1" ]} ]} [].

(** The dictionaries of the fields of [d] that are not named [nm], and
    those of all fields nested in the fields of [d], are in [G]. *)
Definition covered (nm : string) (G : list loc) (d : odict Field) : Prop :=
  forall k g, (k, g) ∈ d ->
    (forall x, x ∈ all_locs (typ g) -> x ∈ G) /\ (k <> nm -> attributes g ∈ G).

(** The outcome of the merge for the name [nm], first met in the field [f]
    and met again in the fields [ov] of later structs: the merged fields
    [fields'] hold a field of that name that carries the dictionary of [f];
    in the final state [st'] this dictionary is the left-biased union of
    what the dictionaries of [f] and of the fields [ov] held in [st]; and
    for each value of a later field that differs from the value kept for its
    key, the log has the warning. *)
Definition merged_attributes (nm : string) (f : Field) (ov : list Field)
    (st : state) (fields' : odict Field) (st' : state) : Prop :=
  (exists g, od_get nm fields' = Some g /\ name g = nm /\
             attributes g = attributes f) /\
  attrs_at st' (attributes f) =
    foldl (∪) (attrs_at st (attributes f))
      (map (fun f2 => attrs_at st (attributes f2)) ov) /\
  (forall f2 k v kept, f2 ∈ ov ->
     attrs_at st (attributes f2) !! k = Some v ->
     attrs_at st' (attributes f) !! k = Some kept -> kept <> v ->
     (WARNING, attribute_conflict k nm kept v) ∈ log st').

(** The fields of the structs of a list, in order. *)
Definition top_fields (s : list Ty) : list Field := concat (map struct_fields s).

(** The fields of the structs of [s] have attribute dictionaries of their
    own: no two of them share a dictionary, and none shares its dictionary
    with a field nested in one of them. *)
Definition separate_attributes (s : list Ty) : Prop :=
  NoDup (map attributes (top_fields s)) /\
  forall g x, g ∈ top_fields s -> x ∈ all_locs (typ g) ->
              x ∉ map attributes (top_fields s).

(** [Struct{a: Int}] twice, the field of the first with the dictionary [0]
    and that of the second with the dictionary [1]. *)
Definition struct_a_second : Ty := TStruct [MkField "a" TInt 1].

(** A store where the first field has [Number = "1"] and the second
    [Number = "2"]. *)
Definition conflicting_state : state :=
  MkState {[ 0 := {[ "Number" := "1" ]}; 1 := {[ "Number" := "2" ]} ]} [].

(** The same store once the conflict on [Number] has been reported. *)
Definition conflict_reported : state :=
  MkState (heap conflicting_state)
          [(WARNING, attribute_conflict "Number" "a" "1" "2")].

(** ** Triangular genotype index *)

(** Modelled from the spec: the host functions [gtj] and [gtk] that decode
    a linear genotype index (section 4.6), [k = floor((sqrt(8 idx + 1) - 1) / 2)]
    and [j = idx - k (k + 1) / 2]; the integer square root gives the same
    floor as the real one. *)
Definition triangle (k : Z) : Z := (k * (k + 1) / 2)%Z.
Definition gtk (idx : Z) : Z := ((Z.sqrt (8 * idx + 1) - 1) / 2)%Z.
Definition gtj (idx : Z) : Z := (idx - triangle (gtk idx))%Z.
Definition decode (idx : Z) : Z * Z := (gtj idx, gtk idx).
Definition encode (j k : Z) : Z := (triangle k + j)%Z.

(** ** Annotation expressions *)

(** Modelled from the spec: the fragment of the host expression language
    that the generated annotation expressions are written in (sections 4.6
    and 6). A dotted path such as [va.info.AC], [va.aIndex] or
    [v.nAltAlleles] is a variable that the host binds. *)
Inductive expr : Type :=
  | EVar (x : string)
  | EInt (n : Z)
  | EAdd (a b : expr)
  | ESub (a b : expr)
  | ENot (a : expr)
  | EAnd (a b : expr)
  | EIndex (a i : expr)
  | EArray (es : list expr)
  | ERange (n : expr)
  | ERangeFrom (a b : expr)
  | ESize (a : expr)
  | EToSet (a : expr)
  | EContains (a x : expr)
  | EFilter (a : expr) (x : string) (body : expr)
  | EMap (a : expr) (x : string) (body : expr)
  | ECall (f : string) (arg : expr)
  | ELet (x : string) (e1 e2 : expr).

(** An annotation expression [target = rhs]. *)
Record rule : Type := Assign { lhs : string; rhs : expr }.

Inductive value : Type :=
  | VInt (n : Z)
  | VBool (b : bool)
  | VArr (vs : list value)
  | VSet (vs : list value)
  | VNA.

Definition env : Type := list (string * value).

Fixpoint env_get (x : string) (e : env) : option value :=
  match e with
  | [] => None
  | (y, v) :: e' => if String.eqb y x then Some v else env_get x e'
  end.

Fixpoint value_eqb (v w : value) {struct v} : bool :=
  match v, w with
  | VInt n, VInt m => Z.eqb n m
  | VBool a, VBool b => Bool.eqb a b
  | VArr vs, VArr ws | VSet vs, VSet ws =>
      (fix all2 (vs ws : list value) : bool :=
         match vs, ws with
         | [], [] => true
         | v :: vs', w :: ws' => value_eqb v w && all2 vs' ws'
         | _, _ => false
         end) vs ws
  | VNA, VNA => true
  | _, _ => false
  end.

(** [range(a, b)]: the integers from [a] up to, not including, [b]. *)
Definition range (a b : Z) : list Z :=
  map (fun i => (a + Z.of_nat i)%Z) (seq 0 (Z.to_nat (b - a))).

(** [l.filter(p)] and [l.map(f)] for a [p] or [f] whose evaluation may
    fail. *)
Fixpoint filter_opt {A} (p : A -> option bool) (l : list A) : option (list A) :=
  match l with
  | [] => Some []
  | x :: l' =>
      match p x, filter_opt p l' with
      | Some b, Some r => Some (if b then x :: r else r)
      | _, _ => None
      end
  end.

Fixpoint map_opt {A B} (f : A -> option B) (l : list A) : option (list B) :=
  match l with
  | [] => Some []
  | x :: l' =>
      match f x, map_opt f l' with
      | Some y, Some r => Some (y :: r)
      | _, _ => None
      end
  end.

Definition as_bool (v : option value) : option bool :=
  match v with Some (VBool b) => Some b | _ => None end.

(** Evaluation; [None] is a run-time error of the host. *)
Fixpoint eval (e : env) (x : expr) {struct x} : option value :=
  match x with
  | EVar y => env_get y e
  | EInt n => Some (VInt n)
  | EAdd a b =>
      match eval e a, eval e b with
      | Some (VInt n), Some (VInt m) => Some (VInt (n + m))
      | _, _ => None
      end
  | ESub a b =>
      match eval e a, eval e b with
      | Some (VInt n), Some (VInt m) => Some (VInt (n - m))
      | _, _ => None
      end
  | ENot a =>
      match eval e a with
      | Some (VBool b) => Some (VBool (negb b))
      | _ => None
      end
  | EAnd a b =>
      match eval e a, eval e b with
      | Some (VBool p), Some (VBool q) => Some (VBool (p && q))
      | _, _ => None
      end
  | EIndex a i =>
      match eval e a, eval e i with
      | Some (VArr vs), Some (VInt n) =>
          if (0 <=? n)%Z then nth_error vs (Z.to_nat n) else None
      | _, _ => None
      end
  | EArray es => option_map VArr (map_opt (eval e) es)
  | ERange n =>
      match eval e n with
      | Some (VInt m) => Some (VArr (map VInt (range 0 m)))
      | _ => None
      end
  | ERangeFrom a b =>
      match eval e a, eval e b with
      | Some (VInt n), Some (VInt m) => Some (VArr (map VInt (range n m)))
      | _, _ => None
      end
  | ESize a =>
      match eval e a with
      | Some (VArr vs) => Some (VInt (Z.of_nat (length vs)))
      | _ => None
      end
  | EToSet a =>
      match eval e a with
      | Some (VArr vs) => Some (VSet vs)
      | _ => None
      end
  | EContains a y =>
      match eval e a, eval e y with
      | Some (VSet vs), Some v => Some (VBool (existsb (value_eqb v) vs))
      | _, _ => None
      end
  | EFilter a y body =>
      match eval e a with
      | Some (VArr vs) =>
          option_map VArr (filter_opt (fun v => as_bool (eval ((y, v) :: e) body)) vs)
      | _ => None
      end
  | EMap a y body =>
      match eval e a with
      | Some (VArr vs) => option_map VArr (map_opt (fun v => eval ((y, v) :: e) body) vs)
      | _ => None
      end
  | ECall f arg =>
      match eval e arg with
      | Some (VInt n) =>
          if String.eqb f "gtj" then Some (VInt (gtj n))
          else if String.eqb f "gtk" then Some (VInt (gtk n))
          else None
      | _ => None
      end
  | ELet y e1 e2 =>
      match eval e e1 with
      | Some v => eval ((y, v) :: e) e2
      | None => None
      end
  end.

(** The line feed of a Python string literal. *)
Definition newline : string := String (Ascii.ascii_of_nat 10) EmptyString.

(** Concrete syntax. *)
Fixpoint render (x : expr) : string :=
  match x with
  | EVar y => y
  | EInt n => NilZero.string_of_int (Z.to_int n)
  | EAdd a b => render a +:+ " + " +:+ render b
  | ESub a b => render a +:+ " - " +:+ render b
  | ENot a => "!" +:+ render a
  | EAnd a b => render a +:+ " && " +:+ render b
  | EIndex a i => render a +:+ "[" +:+ render i +:+ "]"
  | EArray es => "[" +:+ String.concat ", " (map render es) +:+ "]"
  | ERange n => "range(" +:+ render n +:+ ")"
  | ERangeFrom a b => "range(" +:+ render a +:+ ", " +:+ render b +:+ ")"
  | ESize a => render a +:+ ".size"
  | EToSet a => render a +:+ ".toSet"
  | EContains a y => render a +:+ ".contains(" +:+ render y +:+ ")"
  | EFilter a y body => render a +:+ ".filter(" +:+ y +:+ " => " +:+ render body +:+ ")"
  | EMap a y body => render a +:+ ".map(" +:+ y +:+ " => " +:+ render body +:+ ")"
  | ECall f arg => f +:+ "(" +:+ render arg +:+ ")"
  | ELet y e1 e2 => "let " +:+ y +:+ " = " +:+ render e1 +:+ " in" +:+ newline +:+ render e2
  end.

Definition render_rule (r : rule) : string := lhs r +:+ " = " +:+ render (rhs r).

(** A text without its line feeds. *)
Fixpoint one_line (s : string) : string :=
  match s with
  | EmptyString => EmptyString
  | String c s' =>
      if Ascii.eqb c (Ascii.ascii_of_nat 10) then one_line s' else String c (one_line s')
  end.

(** ** Annotation expressions of the allele-index remapper *)

(** [cut_allele_from_g_array(target, destination=None)] *)
Definition cut_allele_from_g_array (target : string) (destination : option string) : string :=
  let destination := default target destination in
  destination +:+
  " = let removed_alleles = range(1, v.nAltAlleles + 1).filter(i => !aIndices.toSet.contains(i)).toSet in" +:+
  newline +:+
  "range(" +:+ target +:+
  ".size).filter(i => !removed_alleles.contains(gtj(i)) && !removed_alleles.contains(gtk(i)))" +:+
  newline +:+
  ".map(i => " +:+ target +:+ "[i])".

(** The syntax tree of that text. *)
Definition removed_alleles_expr : expr :=
  EToSet
    (EFilter (ERangeFrom (EInt 1) (EAdd (EVar "v.nAltAlleles") (EInt 1))) "i"
       (ENot (EContains (EToSet (EVar "aIndices")) (EVar "i")))).

Definition kept_genotypes_expr (target : string) : expr :=
  EMap
    (EFilter (ERange (ESize (EVar target))) "i"
       (EAnd (ENot (EContains (EVar "removed_alleles") (ECall "gtj" (EVar "i"))))
             (ENot (EContains (EVar "removed_alleles") (ECall "gtk" (EVar "i"))))))
    "i" (EIndex (EVar target) (EVar "i")).

Definition cut_allele_rule (target : string) (destination : option string) : rule :=
  Assign (default target destination)
         (ELet "removed_alleles" removed_alleles_expr (kept_genotypes_expr target)).

(** A parameter that is [None] or an empty list is falsy: it contributes no
    expression. *)
Definition or_empty (o : option (list string)) : list string := default [] o.

Definition vep_sub_fields : list string :=
  ["transcript_consequences"; "intergenic_consequences";
   "motif_feature_consequences"; "regulatory_feature_consequences"].

(** [index_into_arrays(a_based_annotations, r_based_annotations, vep_root,
    drop_ref_ann)] *)
Definition index_into_arrays (a_based_annotations r_based_annotations : option (list string))
    (vep_root : option string) (drop_ref_ann : bool) : list string :=
  let annotations :=
    map (fun ann => ann +:+ " = " +:+ ann +:+ "[va.aIndex - 1]")
        (or_empty a_based_annotations) in
  let annotations :=
    annotations ++
    map (fun ann =>
           if drop_ref_ann then ann +:+ " = " +:+ ann +:+ "[va.aIndex]"
           else ann +:+ " = [" +:+ ann +:+ "[0], " +:+ ann +:+ "[va.aIndex]]")
        (or_empty r_based_annotations) in
  match vep_root with
  | Some root =>
      if is_empty_string root then annotations
      else
        annotations ++
        map (fun sub_field =>
               root +:+ "." +:+ sub_field +:+ " = " +:+ root +:+ "." +:+ sub_field +:+
               ".filter(x => x.allele_num == va.aIndex)")
            vep_sub_fields
  | None => annotations
  end.

(** The syntax trees of the expressions for A-based and R-based
    annotations. *)
Definition a_based_rule (ann : string) : rule :=
  Assign ann (EIndex (EVar ann) (ESub (EVar "va.aIndex") (EInt 1))).

Definition r_based_rule (drop_ref_ann : bool) (ann : string) : rule :=
  Assign ann
    (if drop_ref_ann then EIndex (EVar ann) (EVar "va.aIndex")
     else EArray [EIndex (EVar ann) (EInt 0); EIndex (EVar ann) (EVar "va.aIndex")]).

(** The alleles that [aIndices] leaves out, and the genotype indices of an
    array of [n] entries that involve none of them. *)
Definition removed_alleles (nAlt : Z) (aIndices : list Z) : list Z :=
  filter (fun a => a ∉ aIndices) (range 1 (nAlt + 1)).

Definition kept_genotypes (nAlt : Z) (aIndices : list Z) (n : nat) : list Z :=
  filter (fun idx => gtj idx ∉ removed_alleles nAlt aIndices /\
                     gtk idx ∉ removed_alleles nAlt aIndices)
         (range 0 (Z.of_nat n)).

(** A record where [va.info.AC] holds the values [10, 20, 30] and the
    surviving allele is the second one. *)
Definition split_env : env :=
  [("va.aIndex", VInt 2); ("va.info.AC", VArr [VInt 10; VInt 20; VInt 30])].

(** A variant with three alleles (two of them alternate), its genotype
    array of six entries, and the subset that keeps only the first
    alternate allele. *)
Definition subset_env : env :=
  [("va.info.PL", VArr [VInt 10; VInt 11; VInt 12; VInt 13; VInt 14; VInt 15]);
   ("aIndices", VArr [VInt 0; VInt 1]);
   ("v.nAltAlleles", VInt 2)].

(** ** Type predicates *)

(** [annotation_type_is_numeric(t)] *)
Definition annotation_type_is_numeric (t : Ty) : bool :=
  bool_decide (class_of t = CInt) || bool_decide (class_of t = CLong) ||
  bool_decide (class_of t = CFloat) || bool_decide (class_of t = CDouble).

(** [annotation_type_in_vcf_info(t)] *)
Definition annotation_type_in_vcf_info (t : Ty) : bool :=
  annotation_type_is_numeric t || bool_decide (class_of t = CString) ||
  bool_decide (class_of t = CArray) || bool_decide (class_of t = CSet) ||
  bool_decide (class_of t = CBoolean).

(** ** Attribute grouper *)

(** [get_ann_field(annotation, schema, root)] and
    [get_ann_type(annotation, schema, root)] *)
Definition get_ann_field (annotation : string) (schema : Ty) (root : string) : M Field :=
  anns <- flatten_struct schema root false true ;;
  match od_get annotation anns with
  | Some f => ret f
  | None => logger ERROR (annotation +:+ " missing from schema.") ;;; raise SystemExit
  end.

Definition get_ann_type (annotation : string) (schema : Ty) (root : string) : M Ty :=
  f <- get_ann_field annotation schema root ;; ret (typ f).

(** ['.' in root] *)
Fixpoint contains_dot (s : string) : bool :=
  match s with
  | EmptyString => false
  | String c s' => Ascii.eqb c (Ascii.ascii_of_nat 46) || contains_dot s'
  end.

(** The result of the grouping: a [defaultdict(list)] from the grouping key
    ([None] included) to the paths and fields filed under it. *)
Notation groups := (gmap (option string) (list (string * Field))).

(** [annotations[k].append(x)] and [annotations[k].extend(v)] *)
Definition group_extend (k : option string) (v : list (string * Field)) (annotations : groups)
    : groups :=
  <[k := default [] (annotations !! k) ++ v]> annotations.

Definition group_append (k : option string) (x : string * Field) (annotations : groups)
    : groups :=
  group_extend k [x] annotations.

Section group_loop.
(** The recursive call, for the path of a nested struct. *)
Variable rec : string -> M groups.
Variable grouping_key : string.
Variable recursive : bool.
Variable default_func : option (Field -> option string).

(** Body of [for field in fields.fields]. *)
Definition group_field (root : string) (annotations : groups) (field : Field) : M groups :=
  let path := dotted root (name field) in
  if bool_decide (class_of (typ field) = CArray) then
    a <- get_attrs (attributes field) ;;
    match a !! grouping_key with
    | Some k => ret (group_append (Some k) (path, field) annotations)
    | None => ret annotations
    end
  else if recursive && bool_decide (class_of (typ field) = CStruct) then
    f_annotations <- rec path ;;
    ret (foldl (fun acc kv => group_extend kv.1 kv.2 acc) annotations
               (map_to_list f_annotations))
  else
    match default_func with
    | Some func => ret (group_append (func field) (path, field) annotations)
    | None => ret (group_append None (path, field) annotations)
    end.
End group_loop.

(** [group_annotations_by_attribute(schema, grouping_key, root, recursive,
    default_func)], with a bound on the depth of its recursion. *)
Fixpoint group_annotations_fuel (fuel : nat) (schema : Ty) (grouping_key root : string)
    (recursive : bool) (default_func : option (Field -> option string)) : M groups :=
  match fuel with
  | 0 => timeout
  | S fuel' =>
      fields <- (if contains_dot root then get_ann_type root schema "va" else ret schema) ;;
      match fields with
      | TStruct fs =>
          fold_each fs
            (group_field
               (fun path =>
                  group_annotations_fuel fuel' schema grouping_key path recursive default_func)
               grouping_key recursive default_func root)
            ∅
      | _ => raise AttributeError
      end
  end.

(** Every recursive call looks up a longer path of the flattened schema, so
    there are no more nested calls than the schema has paths. *)
Definition group_annotations_by_attribute (schema : Ty) (grouping_key root : string)
    (recursive : bool) (default_func : option (Field -> option string)) : M groups :=
  group_annotations_fuel (S (length (flatten_fields schema "va" false true)))
    schema grouping_key root recursive default_func.

(** [default_values(field)] of [get_numbered_annotations] *)
Definition default_values (field : Field) : option string :=
  if bool_decide (class_of (typ field) = CArray) || bool_decide (class_of (typ field) = CSet)
  then Some "."
  else if bool_decide (class_of (typ field) = CBoolean) then Some "0"
  else if annotation_type_in_vcf_info (typ field) then Some "1"
  else None.

(** The summary line that [get_numbered_annotations] logs for a bucket. *)
Definition bucket_summary (kv : option string * list (string * Field)) : string :=
  match kv.1 with
  | Some k => k +:+ "-based annotations: " +:+ String.concat "," (map fst kv.2)
  | None => "Annotations with no number: " +:+ String.concat "," (map fst kv.2)
  end.

(** [get_numbered_annotations(schema, root, recursive, default_when_missing)] *)
Definition get_numbered_annotations (schema : Ty) (root : string)
    (recursive default_when_missing : bool) : M groups :=
  annotations <-
    group_annotations_by_attribute schema "Number" root recursive
      (if default_when_missing then Some default_values else None) ;;
  logger INFO "Found the following fields:" ;;;
  for_each (map_to_list annotations) (fun kv => logger INFO (bucket_summary kv)) ;;;
  ret annotations.

(** [Struct{x: Array[Int]}], and a struct with a set, a boolean, an integer
    and a struct. *)
Definition struct_array_only : Ty := TStruct [MkField "x" (TArray TInt) 0].
Definition struct_mixed : Ty :=
  TStruct [MkField "s" (TSet TInt) 0; MkField "b" TBoolean 1;
           MkField "n" TInt 2; MkField "t" (TStruct []) 3].

(** ** Schema replacer *)

(** Modelled from the spec: [str(t)], the text of a type, which the host
    library provides. *)
Fixpoint type_str (t : Ty) : string :=
  match t with
  | TInt => "Int"
  | TLong => "Long"
  | TFloat => "Float"
  | TDouble => "Double"
  | TString => "String"
  | TBoolean => "Boolean"
  | TArray e => "Array[" +:+ type_str e +:+ "]"
  | TSet e => "Set[" +:+ type_str e +:+ "]"
  | TStruct fs =>
      "Struct{" +:+
      String.concat "," (map (fun f => name f +:+ ":" +:+ type_str (typ f)) fs) +:+ "}"
  end.

Definition different_types_warning (path : string) (old new : Ty) : string :=
  "Field " +:+ path +:+ " found with different types in old (" +:+ type_str old +:+
  ") and new (" +:+ type_str new +:+
  ") schemas. Overriding with new schema -- all schema values will be lost).".

Section schema_expr_loop.
(** The recursive call [get_schema_expr(f.typ, path, old_schema_fields)]. *)
Variable rec : Ty -> string -> M string.
Variable old_schema_fields : odict Field.

(** The loop [for f in struct.fields] of [get_schema_expr]. The second
    test passes the type [f.typ] itself, an instance, where [isinstance]
    wants a class. *)
Fixpoint schema_expr_loop (fs : list Field) (root : string) (field_expr : list string)
    : M (list string) :=
  match fs with
  | [] => ret field_expr
  | f :: fs' =>
      let path := dotted root (name f) in
      field_expr <-
        match od_get path old_schema_fields with
        | None => ret (field_expr ++ [name f +:+ ": NA:" +:+ type_str (typ f)])
        | Some old =>
            isinstance (typ old) (AnInstance (typ f)) (fun same =>
              if negb same then
                logger WARNING (different_types_warning path (typ old) (typ f)) ;;;
                ret (field_expr ++ [name f +:+ ": NA:" +:+ type_str (typ f)])
              else
                isinstance (typ f) (AClass CStruct) (fun is_struct =>
                  if is_struct then
                    nested <- rec (typ f) path ;;
                    ret (field_expr ++ [name f +:+ ": " +:+ nested])
                  else ret (field_expr ++ [name f +:+ ": " +:+ path])))
        end ;;
      schema_expr_loop fs' root field_expr
  end.
End schema_expr_loop.

(** [get_schema_expr(struct, root, old_schema_fields)] *)
Fixpoint get_schema_expr (struct : Ty) (root : string) (old_schema_fields : odict Field)
    {struct struct} : M string :=
  match struct with
  | TStruct fs =>
      field_expr <-
        schema_expr_loop (fun t path => get_schema_expr t path old_schema_fields)
          old_schema_fields fs root [] ;;
      ret ("{" +:+ String.concat "," field_expr +:+ "}")
  | _ => raise AttributeError
  end.

(** The expression that [replace_vds_variant_schema(vds, new_schema)] hands
    to the host, [old_schema] being [vds.variant_schema]. *)
Definition replace_schema_expr (old_schema new_schema : Ty) : M string :=
  old_schema_fields <- flatten_struct old_schema "va" false true ;;
  e <- get_schema_expr new_schema "va" old_schema_fields ;;
  ret ("va = " +:+ e).

(** [Struct{a: Int, b: String}] and [Struct{b: String}] with dictionaries
    of their own. *)
Definition struct_new_ab : Ty := TStruct [MkField "a" TInt 4; MkField "b" TString 5].
Definition struct_new_b : Ty := TStruct [MkField "b" TString 5].

(** ** Column and field names *)

(** [s.startswith(p)] *)
Fixpoint starts_with (p s : string) : bool :=
  match p, s with
  | EmptyString, _ => true
  | String a p', String b s' => Ascii.eqb a b && starts_with p' s'
  | String _ _, EmptyString => false
  end.

(** [p in s] *)
Fixpoint occurs_in (p s : string) : bool :=
  starts_with p s ||
  match s with
  | EmptyString => false
  | String _ s' => occurs_in p s'
  end.

(** [s.replace(old, new)] for a non-empty [old]: the text is read from the
    left, every occurrence of [old] that is met is replaced by [new], and the
    reading goes on behind it. [skip] counts the characters of the occurrence
    that are still to be passed. *)
Fixpoint replace_from (old new : string) (skip : nat) (s : string) : string :=
  match s with
  | EmptyString => EmptyString
  | String c s' =>
      match skip with
      | S k => replace_from old new k s'
      | 0 =>
          if starts_with old s
          then new +:+ replace_from old new (String.length old - 1) s'
          else String c (replace_from old new 0 s')
      end
  end.

Definition str_replace (old new s : string) : string := replace_from old new 0 s.

(** [toSSQL(s)] and [fromSSQL(s)] *)
Definition toSSQL (s : string) : string := str_replace "." "___" s.
Definition fromSSQL (s : string) : string := str_replace "___" "." s.

(** A text is read back by [fromSSQL] when no underscore stands before a
    dot and no three underscores follow each other. *)
Definition plain_underscores (s : string) : bool :=
  negb (occurs_in "_." s) && negb (occurs_in "___" s).

(** [\d] *)
Definition is_digit (c : Ascii.ascii) : bool :=
  Nat.leb 48 (Ascii.nat_of_ascii c) && Nat.leb (Ascii.nat_of_ascii c) 57.

(** [re.search('^\d|\.', f)]: the name starts with a digit, or it has a dot
    somewhere. *)
Definition needs_quotes (f : string) : bool :=
  match f with
  | String c _ => is_digit c
  | EmptyString => false
  end || contains_dot f.

(** [quote_field_name(f)] *)
Definition quote_field_name (f : string) : string :=
  if needs_quotes f then "`" +:+ f +:+ "`" else f.

(** ** Lookups in a schema *)

(** [ann_exists(annotation, schema, root)] *)
Definition ann_exists (annotation : string) (schema : Ty) (root : string) : M bool :=
  anns <- flatten_struct schema root false true ;;
  ret (od_mem annotation anns).

(** The fields of a type, those of nested structs included, each with the
    names on the way to it. *)
Fixpoint fields_at (t : Ty) : list (list string * Field) :=
  match t with
  | TStruct fs =>
      concat (map (fun f =>
        ([name f], f) ::
        map (fun pf => (name f :: pf.1, pf.2)) (fields_at (typ f))) fs)
  | _ => []
  end.

(** ['{}.{}'.format(root, f.name) if root else f.name], and the key that
    [flatten_struct] forms along a path of names. *)
Definition extend_path (root n : string) : string :=
  if is_empty_string root then n else dotted root n.

Definition join_path (root : string) (p : list string) : string :=
  foldl extend_path root p.

(** ** Buckets of the attribute grouper *)

(** The bucket that the loop of [group_annotations_by_attribute] gives a
    field it does not recurse into: for an array the value of its grouping
    attribute, and no bucket when it has none; for another field the value
    of the default function, and [None] without one. *)
Definition bucket_of (st : state) (grouping_key : string)
    (default_func : option (Field -> option string)) (field : Field)
    : option (option string) :=
  if bool_decide (class_of (typ field) = CArray) then
    Some <$> attrs_at st (attributes field) !! grouping_key
  else
    Some (match default_func with Some func => func field | None => None end).

(** The fields of [fs] whose bucket is [k], with their paths below [root],
    in the order of [fs]. *)
Definition bucket_content (st : state) (grouping_key : string)
    (default_func : option (Field -> option string)) (root : string)
    (fs : list Field) (k : option string) : list (string * Field) :=
  omap (fun f =>
          if decide (bucket_of st grouping_key default_func f = Some k)
          then Some (dotted root (name f), f) else None) fs.

(** ** Unifying the schemas of several datasets *)

(** The typed null that [get_schema_expr] writes for a field. *)
Definition typed_null (f : Field) : string := name f +:+ ": NA:" +:+ type_str (typ f).

(** [unify_vds_schemas(vdses)], seen from the schemas of the datasets: the
    merged schema is computed from the list of the schemas, and then, for
    each dataset in turn, the expression that [replace_vds_variant_schema]
    hands to the host. *)
Definition unify_vds_schemas (schemas : list Ty) : M (list string) :=
  unified_schema <- merge_TStructs schemas ;;
  map_each (fun old_schema => replace_schema_expr old_schema unified_schema.1) schemas.

(** The entries that the full flattening of [t] below [root] has when no
    two fields get the same key: every field of [t], nested ones included,
    under the key of its path. *)
Definition keyed_fields (root : string) (t : Ty) : odict Field :=
  map (fun pf => (join_path root pf.1, pf.2)) (fields_at t).

(** ** Expressions for the consequence annotations *)

(** The expressions that [index_into_arrays] appends for a [vep_root] that
    is given and not empty: one filter for each of the four lists of
    consequences. *)
Definition vep_rules (vep_root : option string) : list string :=
  match vep_root with
  | Some root =>
      if is_empty_string root then []
      else
        map (fun sub_field =>
               root +:+ "." +:+ sub_field +:+ " = " +:+ root +:+ "." +:+ sub_field +:+
               ".filter(x => x.allele_num == va.aIndex)")
            vep_sub_fields
  | None => []
  end.

(** ** Recursion of the attribute grouper *)

(** The keys of the schema flattened from [va] that are longer than [root]:
    the paths that nested calls of [group_annotations_by_attribute] started
    at [root] can still find. *)
Definition longer_keys (schema : Ty) (root : string) : list string :=
  filter (fun k => String.length root < String.length k)
         (od_keys (flatten_fields schema "va" false true)).
(** * Properties *)

(** ** First occurrences *)

Lemma fresh_ext seen1 seen2 l :
  (forall x, x ∈ seen1 <-> x ∈ seen2) -> fresh seen1 l = fresh seen2 l.
Proof.
  revert seen1 seen2. induction l as [|x l IH]; intros s1 s2 Hs; simpl; [done|].
  destruct (decide (x ∈ s1)) as [H1|H1], (decide (x ∈ s2)) as [H2|H2].
  - by apply IH.
  - by apply Hs in H1.
  - by apply Hs in H2.
  - f_equal. apply IH. intros y. rewrite !elem_of_cons. by rewrite Hs.
Qed.

Lemma fresh_app seen l1 l2 :
  fresh seen (l1 ++ l2) = fresh seen l1 ++ fresh (seen ++ l1) l2.
Proof.
  revert seen. induction l1 as [|x l1 IH]; intros seen; simpl.
  - by rewrite app_nil_r.
  - destruct (decide (x ∈ seen)) as [Hx|Hx].
    + rewrite IH. rewrite (fresh_ext (seen ++ l1) (seen ++ x :: l1)); [done|].
      intros y. rewrite !elem_of_app, elem_of_cons. naive_solver.
    + simpl. rewrite IH.
      rewrite (fresh_ext ((x :: seen) ++ l1) (seen ++ x :: l1)); [done|].
      intros y. rewrite !elem_of_app, !elem_of_cons. naive_solver.
Qed.

Lemma fresh_fresh seen seen' l :
  (forall x, x ∈ seen' -> x ∈ seen) -> fresh seen (fresh seen' l) = fresh seen l.
Proof.
  revert seen seen'. induction l as [|x l IH]; intros s s' Hs; simpl; [done|].
  destruct (decide (x ∈ s')) as [H1|H1].
  - rewrite decide_True by auto. by apply IH.
  - simpl. destruct (decide (x ∈ s)) as [H2|H2].
    + apply IH. intros y. rewrite elem_of_cons. intros [->|?]; auto.
    + f_equal. apply IH. intros y. rewrite !elem_of_cons. naive_solver.
Qed.

Lemma elem_of_fresh seen l x : x ∈ fresh seen l <-> x ∈ l /\ x ∉ seen.
Proof.
  revert seen. induction l as [|y l IH]; intros seen; simpl.
  - rewrite elem_of_nil. naive_solver.
  - destruct (decide (y ∈ seen)) as [Hy|Hy].
    + rewrite IH, elem_of_cons. naive_solver.
    + rewrite !elem_of_cons, IH, elem_of_cons. split.
      * intros [->|[? ?]]; naive_solver.
      * intros [[->|?] ?]; [by left|].
        destruct (decide (x = y)) as [->|?]; [by left|right; naive_solver].
Qed.

Lemma NoDup_fresh seen l : NoDup (fresh seen l).
Proof.
  revert seen. induction l as [|y l IH]; intros seen; simpl; [constructor|].
  destruct (decide (y ∈ seen)); [apply IH|].
  constructor; [|apply IH].
  rewrite elem_of_fresh, elem_of_cons. naive_solver.
Qed.

Lemma fresh_NoDup seen l :
  NoDup l -> (forall x, x ∈ l -> x ∉ seen) -> fresh seen l = l.
Proof.
  revert seen. induction l as [|y l IH]; intros seen Hnd Hdis; simpl; [done|].
  inversion Hnd as [|? ? Hy Hnd']; subst.
  rewrite decide_False by (apply Hdis; left).
  f_equal. apply IH; [done|]. intros x Hx. rewrite elem_of_cons.
  intros [->|?]; [done|]. eapply Hdis; [by right|done].
Qed.

Lemma first_occurrences_NoDup l : NoDup l -> first_occurrences l = l.
Proof. intros. apply fresh_NoDup; [done|]. intros x _. apply not_elem_of_nil. Qed.

Lemma first_occurrences_app l1 l2 :
  first_occurrences (l1 ++ l2) = first_occurrences l1 ++ fresh l1 l2.
Proof. unfold first_occurrences. by rewrite fresh_app. Qed.

(** ** Keys of ordered dictionaries *)

Lemma od_keys_set {V} k (v : V) d :
  od_keys (od_set k v d) = od_keys d ++ fresh (od_keys d) [k].
Proof.
  unfold od_keys. induction d as [|[k' v'] d IH]; csimpl; [done|].
  destruct (decide (k' = k)) as [->|Hne]; csimpl.
  - rewrite decide_True by left. by rewrite app_nil_r.
  - rewrite IH. csimpl. destruct (decide (k ∈ d.*1)) as [Hin|Hin].
    + rewrite decide_True by (by right). done.
    + rewrite decide_False; [done|]. rewrite elem_of_cons. naive_solver.
Qed.

Lemma od_keys_update {V} (d e : odict V) :
  od_keys (od_update d e) = od_keys d ++ fresh (od_keys d) (od_keys e).
Proof.
  unfold od_update. revert d. induction e as [|[k v] e IH]; intros d; simpl.
  - by rewrite app_nil_r.
  - rewrite IH, od_keys_set. simpl.
    destruct (decide (k ∈ od_keys d)) as [Hin|Hin].
    + by rewrite !app_nil_r.
    + rewrite <- app_assoc. simpl.
      rewrite (fresh_ext (od_keys d ++ [k]) (k :: od_keys d)); [done|].
      intros x. rewrite elem_of_app, !elem_of_cons, elem_of_nil. naive_solver.
Qed.

Lemma is_empty_string_true s : is_empty_string s = true <-> s = "".
Proof. destruct s; simpl; split; congruence. Qed.

Lemma string_app_cons c (a b : string) : String c a +:+ b = String c (a +:+ b).
Proof. reflexivity. Qed.

Lemma string_app_assoc (a b c : string) : (a +:+ b) +:+ c = a +:+ (b +:+ c).
Proof.
  induction a as [|ch a IH]; [reflexivity|].
  by rewrite !string_app_cons, IH.
Qed.

Lemma path_key_cons root n p :
  p <> [] ->
  (root = "" -> n <> "") ->
  path_key (if is_empty_string root then n else dotted root n) p =
  path_key root (n :: p).
Proof.
  intros Hp Hn. destruct p as [|q p]; [done|].
  unfold path_key. destruct root as [|c root]; simpl is_empty_string; cbv iota.
  - destruct n as [|c n]; [by specialize (Hn eq_refl)|]. reflexivity.
  - unfold dotted. rewrite !string_app_cons. simpl is_empty_string. cbv iota.
    change (String.concat "." (n :: q :: p))
      with (n +:+ "." +:+ String.concat "." (q :: p)).
    by rewrite !string_app_assoc.
Qed.

Lemma fresh_chain R A B :
  (R ++ fresh R A) ++ fresh (R ++ fresh R A) B = R ++ fresh R (A ++ B).
Proof.
  rewrite fresh_app, <- app_assoc. do 2 f_equal.
  apply fresh_ext. intros x. rewrite !elem_of_app, elem_of_fresh. split.
  - naive_solver.
  - intros [?|?]; [by left|]. destruct (decide (x ∈ R)); naive_solver.
Qed.

Lemma name_paths_cons f fs lo r :
  name_paths (TStruct (f :: fs)) lo r =
  name_paths (TStruct [f]) lo r ++ name_paths (TStruct fs) lo r.
Proof. simpl. by rewrite app_nil_r. Qed.

Lemma name_paths_nonempty t lo r p : In p (name_paths t lo r) -> p <> [].
Proof.
  destruct t as [| | | | | | | |fs]; simpl; try done.
  intros (l & (f & <- & _)%in_map_iff & Hp)%in_concat.
  revert Hp. destruct (typ f), r, lo; simpl; rewrite ?in_map_iff; naive_solver.
Qed.

Section flatten_keys.
Variable leaf_only : bool.

Let rec_call := fun t path => flatten_fields t path leaf_only true.

Lemma flatten_loop_keys fs :
  Forall (fun f => forall root, root <> "" ->
    od_keys (flatten_fields (typ f) root leaf_only true) =
    first_occurrences (map (path_key root) (name_paths (typ f) leaf_only true))) fs ->
  forall root r result,
    (root = "" -> r = true -> named_structs (TStruct fs)) ->
    od_keys (flatten_loop rec_call fs root leaf_only r result) =
    od_keys result ++
    fresh (od_keys result) (map (path_key root) (name_paths (TStruct fs) leaf_only r)).
Proof.
  induction 1 as [|f fs Hf Hfs IH]; intros root r result Hnamed.
  - simpl. by rewrite app_nil_r.
  - rewrite name_paths_cons, map_app.
    assert (Hrest : root = "" -> r = true -> named_structs (TStruct fs)).
    { intros H1 H2. specialize (Hnamed H1 H2). simpl in *.
      by inversion Hnamed. }
    assert (Hhere : root = "" -> r = true ->
                    class_of (typ f) = CStruct -> name f <> "").
    { intros H1 H2. specialize (Hnamed H1 H2). simpl in *.
      by inversion Hnamed. }
    set (path := if is_empty_string root then name f else dotted root (name f)).
    assert (Hleaf : path = path_key root [name f]).
    { unfold path, path_key. by destruct (is_empty_string root). }
    assert (Hone : forall res,
      od_keys (flatten_loop rec_call fs root leaf_only r (od_set path f res)) =
      od_keys res ++ fresh (od_keys res)
        ([path_key root [name f]] ++
         map (path_key root) (name_paths (TStruct fs) leaf_only r))).
    { intros res. rewrite IH by done. rewrite od_keys_set, Hleaf.
      apply fresh_chain. }
    simpl flatten_loop. fold path.
    destruct (typ f) as [| | | | | | | |gs] eqn:Htyp;
      try (rewrite Hone; simpl; by rewrite Htyp).
    destruct r; [|rewrite Hone; simpl; by rewrite Htyp].
    assert (Hpath : path <> "").
    { unfold path. destruct root as [|c root']; simpl.
      - by apply Hhere.
      - unfold dotted. by rewrite string_app_cons. }
    rewrite IH by done.
    rewrite od_keys_update. unfold rec_call.
    rewrite Hf by done. unfold first_occurrences.
    rewrite fresh_fresh by (by intros ? ?%elem_of_nil).
    assert (Hnested :
      map (path_key path) (name_paths (TStruct gs) leaf_only true) =
      map (path_key root)
        (map (cons (name f)) (name_paths (TStruct gs) leaf_only true))).
    { rewrite map_map. apply map_ext_in. intros p Hp.
      apply path_key_cons; [by eapply name_paths_nonempty|].
      intros Hroot. by apply Hhere. }
    rewrite Hnested.
    assert (Hitems : name_paths (TStruct [f]) leaf_only true =
      (if leaf_only then [] else [[name f]]) ++
      map (cons (name f)) (name_paths (TStruct gs) leaf_only true)).
    { cbn [name_paths map concat]. rewrite Htyp. by rewrite app_nil_r. }
    rewrite Hitems. destruct leaf_only.
    + simpl app. apply fresh_chain.
    + rewrite od_keys_set, Hleaf, map_app. simpl map at 1.
      rewrite !fresh_chain. by rewrite <- app_assoc.
Qed.
End flatten_keys.

Lemma flatten_fields_keys t leaf_only root r :
  (root = "" -> r = true -> named_structs t) ->
  od_keys (flatten_fields t root leaf_only r) =
  first_occurrences (map (path_key root) (name_paths t leaf_only r)).
Proof.
  revert root r. induction t as [| | | | | | | |fs IH] using Ty_nested_ind;
    intros root r Hnamed; try reflexivity.
  simpl flatten_fields.
  rewrite flatten_loop_keys; [done| |done].
  eapply Forall_impl; [exact IH|]. intros f Hf root' Hroot'. by apply Hf.
Qed.

(** ** Keys of [flatten_struct] *)

(** C10, as stated, fails: with an empty root, the children of a struct
    field whose name is empty get their bare names as keys, not the
    dot-joined path [".c"]. *)
Lemma flatten_struct_keys_anonymous :
  od_keys (flatten_fields anonymous_struct "" true true) = ["c"] /\
  first_occurrences (map (path_key "") (name_paths anonymous_struct true true)) = [".c"] /\
  od_keys (flatten_fields anonymous_struct "" true true) <>
  first_occurrences (map (path_key "") (name_paths anonymous_struct true true)).
Proof. split; [reflexivity|]. split; [reflexivity|]. discriminate. Qed.

(** C10 (amended): flattening a struct succeeds, and its keys are the
    visited field paths, each joined by dots and, when the root is not
    empty, put below the root and a dot; with an empty root the keys are the
    bare names and the dot-joined paths below them, provided no struct-typed
    field of the flattened struct has an empty name when the flattening
    recurses. *)
Theorem flatten_struct_keys fs root leaf_only recursive st :
  (root = "" -> recursive = true -> named_structs (TStruct fs)) ->
  exists d,
    flatten_struct (TStruct fs) root leaf_only recursive st = Done d st /\
    od_keys d =
    first_occurrences
      (map (path_key root) (name_paths (TStruct fs) leaf_only recursive)).
Proof.
  intros Hnamed. eexists. split; [reflexivity|].
  by apply flatten_fields_keys.
Qed.

Lemma flatten_struct_keys_witness :
  exists d,
    flatten_struct sample_schema "" false true empty_state = Done d empty_state /\
    od_keys d = ["rsid"; "info"; "info.AC"; "info.AN"].
Proof.
  destruct (flatten_struct_keys
              [MkField "rsid" TString 0;
               MkField "info" (TStruct [MkField "AC" (TArray TInt) 1;
                                        MkField "AN" TInt 2]) 3]
              "" false true empty_state) as (d & Hd & Hk).
  - intros _ _. simpl. repeat constructor; intros _; discriminate.
  - exists d. split; [exact Hd|]. rewrite Hk. reflexivity.
Defined.

(** ** Reasoning about computations *)

Lemma wp_ret {A} (a : A) st (Q : A -> state -> Prop) E T :
  Q a st -> wp (ret a) st Q E T.
Proof. done. Qed.

Lemma wp_raise {A} e st (Q : A -> state -> Prop) (E : exn -> state -> Prop) T :
  E e st -> wp (raise e : M A) st Q E T.
Proof. done. Qed.

Lemma wp_bind {A B} (m : M A) (k : A -> M B) st (Q : B -> state -> Prop) E T :
  wp m st (fun a st' => wp (k a) st' Q E T) E T -> wp (bind m k) st Q E T.
Proof. unfold wp, bind. by destruct (m st). Qed.

Lemma wp_mono {A} (m : M A) st (Q Q' : A -> state -> Prop)
    (E E' : exn -> state -> Prop) (T T' : Prop) :
  wp m st Q E T ->
  (forall a st', Q a st' -> Q' a st') ->
  (forall e st', E e st' -> E' e st') ->
  (T -> T') ->
  wp m st Q' E' T'.
Proof. unfold wp. destruct (m st); auto. Qed.

Lemma wp_done {A} (m : M A) st a st' (Q : A -> state -> Prop) E T :
  wp m st Q E T -> m st = Done a st' -> Q a st'.
Proof. unfold wp. intros H Hm. by rewrite Hm in H. Qed.

Lemma wp_conj {A} (m : M A) st (Q Q' : A -> state -> Prop)
    (E E' : exn -> state -> Prop) (T T' : Prop) :
  wp m st Q E T -> wp m st Q' E' T' ->
  wp m st (fun a s => Q a s /\ Q' a s) (fun e s => E e s /\ E' e s) (T /\ T').
Proof. unfold wp. by destruct (m st). Qed.

Lemma wp_for_each {A} (I : list A -> state -> Prop) E T xs (body : A -> M unit) st :
  I [] st ->
  (forall pre x post st1, xs = pre ++ x :: post -> I pre st1 ->
     wp (body x) st1 (fun _ st2 => I (pre ++ [x]) st2) E T) ->
  wp (for_each xs body) st (fun _ st' => I xs st') E T.
Proof.
  intros H0 Hstep.
  cut (forall pre post st1, xs = pre ++ post -> I pre st1 ->
         wp (for_each post body) st1 (fun _ st' => I xs st') E T).
  { intros H. by apply (H [] xs). }
  intros pre post. revert pre. induction post as [|x post IH]; intros pre st1 Hxs HI.
  - rewrite app_nil_r in Hxs. subst. by apply wp_ret.
  - simpl. apply wp_bind. eapply wp_mono; [by eapply Hstep|..]; try done.
    intros u st2 HI2. simpl in HI2. apply (IH (pre ++ [x])); [|done].
    by rewrite <- app_assoc.
Qed.

Lemma wp_fold_each {A B} (I : list A -> B -> state -> Prop) E T xs
    (body : B -> A -> M B) acc st :
  I [] acc st ->
  (forall pre x post acc1 st1, xs = pre ++ x :: post -> I pre acc1 st1 ->
     wp (body acc1 x) st1 (fun acc2 st2 => I (pre ++ [x]) acc2 st2) E T) ->
  wp (fold_each xs body acc) st (fun acc' st' => I xs acc' st') E T.
Proof.
  intros H0 Hstep.
  cut (forall pre post acc1 st1, xs = pre ++ post -> I pre acc1 st1 ->
         wp (fold_each post body acc1) st1 (fun acc' st' => I xs acc' st') E T).
  { intros H. by apply (H [] xs). }
  intros pre post. revert pre.
  induction post as [|x post IH]; intros pre acc1 st1 Hxs HI.
  - rewrite app_nil_r in Hxs. subst. by apply wp_ret.
  - simpl. apply wp_bind. eapply wp_mono; [by eapply Hstep|..]; try done.
    intros acc2 st2 HI2. simpl in HI2. apply (IH (pre ++ [x])); [|done].
    by rewrite <- app_assoc.
Qed.

Lemma wp_isinstance_class {A} obj c (k : bool -> M A) st Q E T :
  wp (k (bool_decide (class_of obj = c))) st Q E T ->
  wp (isinstance obj (AClass c) k) st Q E T.
Proof. done. Qed.

Lemma wp_any {A} (m : M A) st (Q : A -> state -> Prop) :
  (forall a st', Q a st') -> wp m st Q (fun _ _ => True) True.
Proof. intros H. unfold wp. by destruct (m st). Qed.

(** ** Ordered dictionaries: lookups *)

Lemma od_get_set {V} k k' (v : V) d :
  od_get k (od_set k' v d) = if decide (k = k') then Some v else od_get k d.
Proof.
  induction d as [|[k0 v0] d IH]; simpl.
  - destruct (decide (k' = k)), (decide (k = k')); congruence.
  - destruct (decide (k0 = k')) as [->|Hne]; simpl.
    + destruct (decide (k' = k)) as [->|Hne'].
      * by rewrite decide_True.
      * by rewrite decide_False by congruence.
    + destruct (decide (k0 = k)) as [->|Hne'].
      * by rewrite decide_False by congruence.
      * done.
Qed.

Lemma od_get_None {V} k (d : odict V) : od_get k d = None <-> k ∉ od_keys d.
Proof.
  unfold od_keys. induction d as [|[k0 v0] d IH]; csimpl.
  - split; [intros _; apply not_elem_of_nil|done].
  - rewrite not_elem_of_cons. destruct (decide (k0 = k)) as [->|Hne].
    + split; [done|]. by intros [? _].
    + rewrite IH. naive_solver.
Qed.

Lemma od_get_Some_elem {V} k (v : V) d : od_get k d = Some v -> (k, v) ∈ d.
Proof.
  induction d as [|[k0 v0] d IH]; simpl; [done|].
  destruct (decide (k0 = k)) as [->|Hne].
  - intros [= ->]. by left.
  - intros ?. right. by apply IH.
Qed.

Lemma od_get_app {V} k (d e : odict V) :
  od_get k (d ++ e) = match od_get k d with Some v => Some v | None => od_get k e end.
Proof.
  induction d as [|[k0 v0] d IH]; simpl; [done|].
  by destruct (decide (k0 = k)).
Qed.

Lemma od_keys_app {V} (d e : odict V) : od_keys (d ++ e) = od_keys d ++ od_keys e.
Proof. unfold od_keys. apply fmap_app. Qed.

Lemma od_mem_spec {V} k (d : odict V) : od_mem k d = true <-> k ∈ od_keys d.
Proof. unfold od_mem. by rewrite bool_decide_eq_true. Qed.

Lemma keyed_by_name_set k f d :
  name f = k -> keyed_by_name d -> keyed_by_name (od_set k f d).
Proof.
  unfold keyed_by_name. intros <-. induction d as [|[k0 v0] d IH]; simpl; intros Hd.
  - by repeat constructor.
  - inversion Hd; subst. destruct (decide (k0 = name f)); constructor; auto.
Qed.

Lemma keyed_by_name_values d :
  keyed_by_name d -> map name (od_values d) = od_keys d.
Proof.
  unfold keyed_by_name, od_values, od_keys.
  induction d as [|[k f] d IH]; intros Hd; csimpl; [done|].
  inversion Hd as [|? ? Hk Hd']; subst. simpl in Hk. by rewrite Hk, IH.
Qed.

(** ** The direct fields of a struct *)

Lemma direct_fields_loop rec fs leaf_only result :
  flatten_loop rec fs "" leaf_only false result =
  foldl (fun acc f => od_set (name f) f acc) result fs.
Proof.
  revert result. induction fs as [|f fs IH]; intros result; simpl; [done|].
  by destruct (typ f); rewrite IH.
Qed.

Lemma direct_fields_eq fs leaf_only :
  flatten_fields (TStruct fs) "" leaf_only false =
  foldl (fun acc f => od_set (name f) f acc) [] fs.
Proof. simpl. apply direct_fields_loop. Qed.

Lemma direct_fields_keyed t leaf_only :
  keyed_by_name (flatten_fields t "" leaf_only false).
Proof.
  destruct t as [| | | | | | | |fs]; try (by constructor).
  rewrite direct_fields_eq.
  cut (forall acc : odict Field, keyed_by_name acc ->
         keyed_by_name (foldl (fun acc f => od_set (name f) f acc) acc fs)).
  { intros H. apply H. constructor. }
  induction fs as [|f fs IH]; intros acc Hacc; simpl; [done|].
  apply IH. by apply keyed_by_name_set.
Qed.

Lemma direct_fields_keys t leaf_only :
  od_keys (flatten_fields t "" leaf_only false) = first_occurrences (field_names t).
Proof.
  rewrite flatten_fields_keys by done.
  destruct t as [| | | | | | | |fs]; try reflexivity.
  f_equal. simpl. induction fs as [|f fs IH]; simpl; [done|].
  rewrite <- IH. by destruct (typ f).
Qed.

Lemma foldl_set_get_other (fs : list Field) acc n :
  n ∉ map name fs ->
  od_get n (foldl (fun acc f => od_set (name f) f acc) acc fs) = od_get n acc.
Proof.
  revert acc. induction fs as [|f fs IH]; intros acc Hn; simpl; [done|].
  simpl in Hn. apply not_elem_of_cons in Hn as [Hne Hn].
  rewrite IH by done. rewrite od_get_set. by rewrite decide_False.
Qed.

Lemma direct_fields_get fs leaf_only f :
  NoDup (map name fs) -> f ∈ fs ->
  od_get (name f) (flatten_fields (TStruct fs) "" leaf_only false) = Some f.
Proof.
  rewrite direct_fields_eq.
  cut (forall acc : odict Field, NoDup (map name fs) -> f ∈ fs ->
         od_get (name f) (foldl (fun acc f => od_set (name f) f acc) acc fs) = Some f).
  { intros H. apply H. }
  induction fs as [|g fs IH]; intros acc Hnd Hin; [by apply elem_of_nil in Hin|].
  simpl in *. inversion Hnd as [|? ? Hg Hnd']; subst.
  apply elem_of_cons in Hin as [->|Hin].
  - rewrite foldl_set_get_other by done. rewrite od_get_set. by rewrite decide_True.
  - by apply IH.
Qed.

Lemma direct_fields_values t leaf_only k f :
  (k, f) ∈ flatten_fields t "" leaf_only false -> f ∈ struct_fields t.
Proof.
  destruct t as [| | | | | | | |fs]; try (by intros ?%elem_of_nil).
  rewrite direct_fields_eq. simpl.
  cut (forall acc, (k, f) ∈ foldl (fun acc f => od_set (name f) f acc) acc fs ->
                   (k, f) ∈ acc \/ f ∈ fs).
  { intros H Hin. apply H in Hin as [?%elem_of_nil|?]; done. }
  induction fs as [|g fs IH]; intros acc; simpl; [by left|].
  intros [Hin|Hin]%IH; [|right; by right].
  clear IH. induction acc as [|[k0 v0] acc IHacc]; simpl in Hin.
  - apply list_elem_of_singleton in Hin as [= -> ->]. right; left.
  - destruct (decide (k0 = name g)).
    + apply elem_of_cons in Hin as [[= -> ->]|Hin]; [right; left|left; by right].
    + apply elem_of_cons in Hin as [->|Hin]; [left; left|].
      destruct (IHacc Hin) as [?|?]; [left; by right|by right].
Qed.

(** ** The merge loop: order of the fields and compatibility of classes *)

Lemma elem_of_overlap_of nm q f2 :
  f2 ∈ overlap_of nm q <-> exists j dj, q !! j = Some dj /\ od_get nm dj = Some f2.
Proof.
  unfold overlap_of. rewrite list_elem_of_omap. split.
  - intros (dj & (j & Hj)%list_elem_of_lookup & Hget). eauto.
  - intros (j & dj & Hj & Hget). exists dj. split; [|done].
    apply list_elem_of_lookup. eauto.
Qed.

Section merge_control.
Variable rec : list Ty -> M (Ty * list Ty).

Lemma merge_overlap_class nm f attrs f2 st (P : Prop) :
  (class_of (typ f2) = class_of (typ f) -> P) ->
  wp (merge_overlap nm f attrs f2) st (fun _ _ => P) (fun _ _ => True) True.
Proof.
  intros HP. unfold merge_overlap, type_of. apply wp_isinstance_class.
  case_bool_decide; [|done]. apply wp_any. auto.
Qed.

Lemma merge_field_control q fields nf st :
  keyed_by_name fields -> name nf.2 = nf.1 ->
  wp (merge_field rec q fields nf) st
    (fun fields' _ =>
       keyed_by_name fields' /\
       od_keys fields' = od_keys fields ++ fresh (od_keys fields) [nf.1] /\
       (nf.1 ∉ od_keys fields ->
        Forall (fun f2 => class_of (typ f2) = class_of (typ nf.2))
               (overlap_of nf.1 q)))
    (fun _ _ => True) True.
Proof.
  intros Hkeyed Hname. unfold merge_field. cbv zeta.
  destruct (od_mem _ _) eqn:Hmem.
  - apply od_mem_spec in Hmem. apply wp_ret. simpl.
    rewrite decide_True by done. by rewrite app_nil_r.
  - assert (Hnotin : nf.1 ∉ od_keys fields).
    { intros Hin%od_mem_spec. congruence. }
    apply wp_bind.
    eapply wp_mono;
      [apply (wp_for_each
                (fun pre _ => Forall (fun f2 => class_of (typ f2) = class_of (typ nf.2)) pre)
                (fun _ _ => True) True)| | |]; try done.
    + intros pre x post st1 _ Hpre. apply merge_overlap_class.
      intros Hx. apply Forall_app. split; [done|]. by repeat constructor.
    + intros u st1 Hall. simpl in Hall. clear u.
      assert (Hfinal : forall g, name g = nf.1 ->
                keyed_by_name (od_set nf.1 g fields) /\
                od_keys (od_set nf.1 g fields) =
                od_keys fields ++ fresh (od_keys fields) [nf.1] /\
                (nf.1 ∉ od_keys fields ->
                 Forall (fun f2 => class_of (typ f2) = class_of (typ nf.2))
                        (overlap_of nf.1 q))).
      { intros g Hg. split; [by apply keyed_by_name_set|].
        split; [apply od_keys_set|done]. }
      clear Hall.
      destruct (typ nf.2); try (apply wp_ret, Hfinal; exact Hname).
      destruct (overlap_of nf.1 q); [apply wp_ret, Hfinal; exact Hname|].
      apply wp_bind, wp_any. intros r st2. by apply wp_ret, Hfinal.
Qed.

Lemma merge_current_control q fields d st :
  keyed_by_name fields -> keyed_by_name d ->
  wp (fold_each d (merge_field rec q) fields) st
    (fun fields' _ =>
       keyed_by_name fields' /\
       od_keys fields' = od_keys fields ++ fresh (od_keys fields) (od_keys d) /\
       (forall n f, n ∉ od_keys fields -> od_get n d = Some f ->
          Forall (fun f2 => class_of (typ f2) = class_of (typ f)) (overlap_of n q)))
    (fun _ _ => True) True.
Proof.
  intros Hkeyed Hd.
  eapply wp_mono;
    [apply (wp_fold_each
              (fun pre fields' _ =>
                 keyed_by_name fields' /\
                 od_keys fields' = od_keys fields ++ fresh (od_keys fields) (od_keys pre) /\
                 (forall n f, n ∉ od_keys fields -> od_get n pre = Some f ->
                    Forall (fun f2 => class_of (typ f2) = class_of (typ f))
                           (overlap_of n q)))
              (fun _ _ => True) True)| | |]; try done.
  - split; [done|]. split; [by rewrite app_nil_r|]. intros n f _ [=].
  - intros pre [n f] post fields1 st1 Hsplit (Hk1 & Hkeys1 & Hcompat1).
    assert (Hnf : name f = n).
    { unfold keyed_by_name in Hd. rewrite Hsplit in Hd.
      apply Forall_app in Hd as [_ Hd]. by inversion Hd. }
    eapply wp_mono; [by apply merge_field_control| |done..].
    intros fields2 st2 (Hk2 & Hkeys2 & Hcompat2). cbn [fst snd] in *.
    split; [done|]. split.
    + rewrite Hkeys2, Hkeys1, od_keys_app. apply fresh_chain.
    + intros n' f' Hn' Hget. rewrite od_get_app in Hget.
      destruct (od_get n' pre) as [g|] eqn:Hpre.
      * injection Hget as ->. by eapply Hcompat1.
      * simpl in Hget. destruct (decide (n = n')) as [->|]; [|done].
        injection Hget as ->. apply Hcompat2.
        rewrite Hkeys1, elem_of_app, elem_of_fresh.
        apply od_get_None in Hpre. naive_solver.
Qed.

Lemma merge_queue_control q fields st :
  keyed_by_name fields -> Forall keyed_by_name q ->
  wp (merge_queue rec q fields) st
    (fun fields' _ =>
       keyed_by_name fields' /\
       od_keys fields' =
         od_keys fields ++ fresh (od_keys fields) (concat (map od_keys q)) /\
       compatible_from (od_keys fields) q)
    (fun _ _ => True) True.
Proof.
  intros Hkeyed Hq. revert fields st Hkeyed.
  induction Hq as [|d q Hd Hq IH]; intros fields st Hkeyed.
  - apply wp_ret. split; [done|]. split; [by rewrite app_nil_r|].
    intros i j di dj n fi fj _ _ Hi. by rewrite lookup_nil in Hi.
  - simpl. apply wp_bind.
    eapply wp_mono; [by apply merge_current_control| |done..].
    intros fields1 st1 (Hk1 & Hkeys1 & Hcompat1).
    eapply wp_mono; [by apply IH| |done..].
    intros fields2 st2 (Hk2 & Hkeys2 & Hcompat2).
    split; [done|]. split.
    { rewrite Hkeys2, Hkeys1. apply fresh_chain. }
    intros i j di dj n fi fj Hn Hij Hi Hj Hgi Hgj.
    destruct j as [|j]; [lia|]. simpl in Hj.
    assert (Hfj : fj ∈ overlap_of n q) by (apply elem_of_overlap_of; eauto).
    destruct (od_get n d) as [f|] eqn:Hd0.
    + (* the name is first met in [d] *)
      specialize (Hcompat1 n f Hn Hd0).
      rewrite Forall_forall in Hcompat1.
      destruct i as [|i]; simpl in Hi.
      * injection Hi as <-. rewrite Hd0 in Hgi. injection Hgi as <-.
        symmetry. by apply Hcompat1.
      * assert (Hfi : fi ∈ overlap_of n q) by (apply elem_of_overlap_of; eauto).
        rewrite (Hcompat1 fi Hfi). symmetry. by apply Hcompat1.
    + destruct i as [|i]; simpl in Hi.
      * injection Hi as <-. congruence.
      * apply (Hcompat2 i j di dj n); try done; [|lia].
        rewrite Hkeys1, elem_of_app, elem_of_fresh.
        apply od_get_None in Hd0. naive_solver.
Qed.
End merge_control.

Lemma fresh_concat_first seen (ls : list (list string)) :
  fresh seen (concat (map first_occurrences ls)) = fresh seen (concat ls).
Proof.
  revert seen. induction ls as [|l ls IH]; intros seen; simpl; [done|].
  rewrite !fresh_app. unfold first_occurrences at 1.
  rewrite fresh_fresh by (by intros ? ?%elem_of_nil). f_equal.
  rewrite IH. apply fresh_ext. intros x.
  rewrite !elem_of_app. unfold first_occurrences. rewrite elem_of_fresh.
  split; [naive_solver|]. intros [?|?]; [by left|right].
  split; [done|apply not_elem_of_nil].
Qed.

Lemma map_each_flatten s st :
  wp (map_each (fun x => flatten_struct x "" true false) s) st
    (fun q st' => st' = st /\ q = map direct_fields s /\ Forall is_struct s)
    (fun e st' => e = AttributeError /\ st' = st /\ ~ Forall is_struct s)
    False.
Proof.
  induction s as [|x s IH]; simpl.
  - apply wp_ret. by repeat split.
  - apply wp_bind.
    assert (Hx : is_struct x \/ ~ is_struct x).
    { unfold is_struct. destruct (decide (class_of x = CStruct)); auto. }
    destruct x; try (apply wp_raise; repeat split; try done;
                     intros Hall; inversion Hall; discriminate).
    apply wp_ret, wp_bind. eapply wp_mono; [exact IH| | |done].
    + intros q st' (-> & -> & Hall). apply wp_ret. repeat split; try done.
      by constructor.
    + intros e st' (-> & -> & Hall). repeat split; try done.
      intros Hall'. apply Hall. by inversion Hall'.
Qed.

Lemma merge_fuel_control n s st :
  2 <= length s ->
  wp (merge_TStructs_fuel n s) st
    (fun r _ =>
       r.2 = s /\ Forall is_struct s /\
       field_names r.1 = first_occurrences (concat (map field_names s)) /\
       compatible_from [] (map direct_fields s))
    (fun _ _ => True) True.
Proof.
  intros Hlen. destruct n as [|n]; [done|].
  destruct s as [|x [|y s]]; simpl in Hlen; try lia.
  cbn [merge_TStructs_fuel]. apply wp_bind.
  eapply wp_mono; [apply map_each_flatten| |done..].
  intros q st1 (-> & -> & Hall). apply wp_bind.
  eapply wp_mono; [apply merge_queue_control| |done..].
  - constructor.
  - apply Forall_forall. intros d (t & -> & _)%list_elem_of_fmap.
    apply direct_fields_keyed.
  - intros fields st2 (Hkeyed & Hkeys & Hcompat). apply wp_ret.
    cbn [fst snd field_names]. repeat split; try done.
    rewrite keyed_by_name_values by done. rewrite Hkeys.
    change (od_keys []) with (@nil string). rewrite app_nil_l.
    unfold first_occurrences at 1.
    rewrite <- (fresh_concat_first [] (map field_names (x :: y :: s))).
    f_equal. f_equal. rewrite !map_map. apply map_ext. intros t.
    apply direct_fields_keys.
Qed.

(** C5: when [merge_TStructs] returns for two or more structs, the names of
    the merged struct are the names of the inputs taken in the order of the
    list and, within a struct, in the order of its fields, every name at its
    first occurrence; so the fields of the first struct (whose names are
    distinct) come first in their own order, followed by the names that only
    later structs bring. *)
Theorem merge_TStructs_order s st T s' st' :
  2 <= length s ->
  merge_TStructs s st = Done (T, s') st' ->
  field_names T = first_occurrences (concat (map field_names s)) /\
  (forall first rest, s = first :: rest -> NoDup (field_names first) ->
     field_names T =
     field_names first ++ fresh (field_names first) (concat (map field_names rest))).
Proof.
  intros Hlen Hdone.
  pose proof (wp_done _ _ _ _ _ _ _ (merge_fuel_control _ s st Hlen) Hdone)
    as (_ & _ & Hnames & _).
  cbn [fst] in Hnames. split; [done|].
  intros first rest -> Hnd. rewrite Hnames. cbn [map concat].
  rewrite first_occurrences_app. by rewrite first_occurrences_NoDup.
Qed.

Lemma merge_TStructs_order_witness :
  merge_TStructs [struct_ab; struct_bc] empty_state =
    Done (struct_abc, [struct_ab; struct_bc]) empty_state /\
  field_names struct_abc = ["a"; "b"; "c"].
Proof.
  split; [reflexivity|].
  refine (proj1 (merge_TStructs_order [struct_ab; struct_bc] empty_state
                   struct_abc [struct_ab; struct_bc] empty_state _ eq_refl)).
  simpl; lia.
Defined.

(** ** The merge loop: exceptions and termination *)

Lemma ty_depth_field f fs : f ∈ fs -> ty_depth (typ f) < ty_depth (TStruct fs).
Proof.
  simpl. induction fs as [|g fs IH]; [by intros ?%elem_of_nil|].
  intros [->|Hin]%elem_of_cons; simpl; [lia|]. specialize (IH Hin). lia.
Qed.

Lemma max_depth_elem t s : t ∈ s -> ty_depth t <= max_depth s.
Proof.
  unfold max_depth. induction s as [|u s IH]; [by intros ?%elem_of_nil|].
  intros [->|Hin]%elem_of_cons; simpl; [lia|]. specialize (IH Hin). lia.
Qed.

Lemma max_depth_lt n s : (forall t, t ∈ s -> ty_depth t < n) -> 0 < n -> max_depth s < n.
Proof.
  intros Hs Hn. unfold max_depth. induction s as [|u s IH]; simpl; [done|].
  apply Nat.max_lub_lt; [apply Hs; left|]. apply IH. intros t Ht. apply Hs. by right.
Qed.

Lemma merge_attribute_done nm attrs kv st :
  exists st', merge_attribute nm attrs kv st = Done tt st'.
Proof.
  unfold merge_attribute, bind, get_attrs.
  destruct (attrs_at st attrs !! kv.1); [|by eexists].
  destruct (decide _); by eexists.
Qed.

Lemma merge_attributes_done nm attrs items st :
  exists st', for_each items (merge_attribute nm attrs) st = Done tt st'.
Proof.
  revert st. induction items as [|kv items IH]; intros st; simpl; [by eexists|].
  unfold bind. destruct (merge_attribute_done nm attrs kv st) as [st1 ->].
  apply IH.
Qed.

Lemma wp_merge_attributes nm attrs items st (Q : unit -> state -> Prop) E T :
  (forall st', Q tt st') -> wp (for_each items (merge_attribute nm attrs)) st Q E T.
Proof.
  intros HQ. unfold wp.
  by destruct (merge_attributes_done nm attrs items st) as [st1 ->].
Qed.

Section merge_raises.
Variable rec : list Ty -> M (Ty * list Ty).
Variable n : nat.
Hypothesis rec_raises : forall l st,
  max_depth l < n -> Forall is_struct l -> l <> [] ->
  wp (rec l) st (fun _ _ => True) (fun e _ => e = TypeError) False.

(** The types of the fields of a queue are less deep than [n]. *)
Let shallow (q : list (odict Field)) : Prop :=
  forall d k f, d ∈ q -> (k, f) ∈ d -> ty_depth (typ f) < n.

Lemma merge_overlap_raises nm f attrs f2 st (P : Prop) :
  (class_of (typ f2) = class_of (typ f) -> P) ->
  wp (merge_overlap nm f attrs f2) st (fun _ _ => P) (fun e _ => e = TypeError) False.
Proof.
  intros HP. unfold merge_overlap, type_of. apply wp_isinstance_class.
  case_bool_decide; [|done]. apply wp_bind, wp_ret.
  apply wp_merge_attributes. auto.
Qed.

Lemma merge_field_raises q fields nf st :
  shallow q -> ty_depth (typ nf.2) < n ->
  wp (merge_field rec q fields nf) st
    (fun _ _ => True) (fun e _ => e = TypeError) False.
Proof.
  intros Hq Hf. unfold merge_field. cbv zeta.
  destruct (od_mem _ _); [done|].
  apply wp_bind.
  eapply wp_mono;
    [apply (wp_for_each
              (fun pre _ => Forall (fun f2 => class_of (typ f2) = class_of (typ nf.2)) pre)
              (fun e _ => e = TypeError) False)| | |]; try done.
  - intros pre x post st1 _ Hpre. apply merge_overlap_raises.
    intros Hx. apply Forall_app. split; [done|]. by repeat constructor.
  - intros u st1 Hall. cbv beta in Hall. clear u.
    destruct (typ nf.2) as [| | | | | | | |gs] eqn:Htyp; try done.
    destruct (overlap_of nf.1 q) as [|f2 ov] eqn:Hov; [done|].
    apply wp_bind. eapply wp_mono; [apply rec_raises| | |]; try done.
    + apply max_depth_lt; [|lia].
      intros t [->|(g & -> & Hg)%list_elem_of_fmap]%elem_of_cons; [done|].
      assert (Hg' : g ∈ overlap_of nf.1 q) by (by rewrite Hov).
      apply elem_of_overlap_of in Hg' as (j & dj & Hj & Hget).
      eapply Hq; [by eapply list_elem_of_lookup_2|by apply od_get_Some_elem].
    + constructor; [done|]. apply Forall_fmap.
      eapply Forall_impl; [exact Hall|]. intros g Hg. simpl in *. exact Hg.
Qed.

Lemma merge_queue_raises q fields st :
  shallow q ->
  wp (merge_queue rec q fields) st
    (fun _ _ => True) (fun e _ => e = TypeError) False.
Proof.
  revert fields st. induction q as [|d q IH]; intros fields st Hq; [done|].
  simpl. apply wp_bind.
  assert (Hq' : shallow q).
  { intros d' k f Hd'. apply Hq. by right. }
  eapply wp_mono;
    [apply (wp_fold_each (fun _ _ _ => True) (fun e _ => e = TypeError) False)| | |];
    try done.
  - intros pre [k f] post acc1 st1 Hsplit _.
    eapply wp_mono; [apply merge_field_raises| | |]; try done.
    simpl. apply (Hq d k f); [left|]. rewrite Hsplit.
    apply elem_of_app. right. left.
  - intros fields1 st1 _. by apply IH.
Qed.
End merge_raises.

Lemma merge_fuel_raises n s st :
  max_depth s < n -> Forall is_struct s -> s <> [] ->
  wp (merge_TStructs_fuel n s) st (fun _ _ => True) (fun e _ => e = TypeError) False.
Proof.
  revert s st. induction n as [|n IH]; intros s st Hdepth Hall Hne; [lia|].
  destruct s as [|x [|y s]]; [done|done|].
  cbn [merge_TStructs_fuel]. apply wp_bind.
  eapply wp_mono; [apply map_each_flatten| | |done].
  - intros q st1 (-> & -> & _). apply wp_bind.
    eapply wp_mono; [eapply (merge_queue_raises _ n); [exact IH|]| | |]; try done.
    intros d k f (t & -> & Ht)%list_elem_of_fmap Hf%direct_fields_values.
      pose proof (max_depth_elem _ _ Ht) as Hle.
      destruct t as [| | | | | | | |fs]; try (by apply elem_of_nil in Hf).
      cbn [struct_fields] in Hf. pose proof (ty_depth_field _ _ Hf). lia.
  - intros e st1 (_ & _ & Hnot). by destruct Hnot.
Qed.

(** ** The merge loop: success on flat structs *)

Section merge_succeeds.
Variable rec : list Ty -> M (Ty * list Ty).

Lemma merge_field_succeeds q fields nf st :
  (nf.1 ∉ od_keys fields ->
   class_of (typ nf.2) <> CStruct /\
   forall f2, f2 ∈ overlap_of nf.1 q -> class_of (typ f2) = class_of (typ nf.2)) ->
  wp (merge_field rec q fields nf) st
    (fun fields' _ => od_keys fields' = od_keys fields ++ fresh (od_keys fields) [nf.1])
    (fun _ _ => False) False.
Proof.
  intros Hnf. unfold merge_field. cbv zeta.
  destruct (od_mem _ _) eqn:Hmem.
  - apply od_mem_spec in Hmem. apply wp_ret. simpl.
    rewrite decide_True by done. by rewrite app_nil_r.
  - destruct Hnf as [Hflat Hsame].
    { intros Hin%od_mem_spec. congruence. }
    apply wp_bind.
    eapply wp_mono;
      [apply (wp_for_each (fun _ _ => True) (fun _ _ => False) False)| | |]; try done.
    + intros pre x post st1 Hsplit _.
      unfold merge_overlap, type_of. apply wp_isinstance_class.
      rewrite bool_decide_eq_true_2.
      * apply wp_bind, wp_ret. by apply wp_merge_attributes.
      * apply Hsame. rewrite Hsplit. apply elem_of_app. right. left.
    + intros u st1 _.
      destruct (typ nf.2); try (apply wp_ret, od_keys_set). done.
Qed.

Lemma merge_queue_succeeds q fields st :
  Forall (fun d => Forall (fun kv => class_of (typ kv.2) <> CStruct) d) q ->
  compatible_from [] q ->
  wp (merge_queue rec q fields) st (fun _ _ => True) (fun _ _ => False) False.
Proof.
  intros Hflat. revert fields st.
  induction Hflat as [|d q Hd Hq IH]; intros fields st Hcompat; [done|].
  simpl. apply wp_bind.
  eapply wp_mono;
    [apply (wp_fold_each
              (fun pre fields' _ => forall k, k ∈ od_keys pre -> k ∈ od_keys fields')
              (fun _ _ => False) False)| | |]; try done.
  - intros k Hk. by apply elem_of_nil in Hk.
  - intros pre [k f] post fields1 st1 Hsplit Hpre.
    eapply wp_mono; [apply merge_field_succeeds| | |]; try done.
    + cbn [fst snd]. intros Hk. split.
      * rewrite Forall_forall in Hd. apply (Hd (k, f)).
        rewrite Hsplit. apply elem_of_app. right. left.
      * intros f2 (j & dj & Hj & Hget)%elem_of_overlap_of.
        symmetry. apply (Hcompat 0 (S j) d dj k f f2); try done.
        { apply not_elem_of_nil. } { lia. }
        rewrite Hsplit, od_get_app.
        destruct (od_get k pre) eqn:Hget'.
        { exfalso. apply Hk, Hpre. apply dec_stable. intros Hn.
          apply od_get_None in Hn. congruence. }
        simpl. by rewrite decide_True.
    + intros fields2 st2 Hkeys k' Hk'. cbn [fst snd] in Hkeys.
      rewrite Hkeys. rewrite od_keys_app in Hk'.
      apply elem_of_app in Hk' as [Hk'|Hk'].
      * apply elem_of_app. left. by apply Hpre.
      * apply list_elem_of_singleton in Hk' as ->.
        rewrite elem_of_app, elem_of_fresh.
        destruct (decide (k ∈ od_keys fields1)); [by left|right].
        split; [left|done].
  - intros fields1 st1 _. apply IH.
    intros i j di dj n' fi fj Hn' Hij Hi Hj.
    apply (Hcompat (S i) (S j) di dj n' fi fj); try done. lia.
Qed.
End merge_succeeds.

Lemma same_classes_compatible s :
  same_classes s -> compatible_from [] (map direct_fields s).
Proof.
  intros Hs i j di dj nm fi fj _ Hij Hi Hj Hgi Hgj.
  rewrite list_lookup_fmap in Hi, Hj.
  destruct (s !! i) as [ti|] eqn:Hti; [|done].
  destruct (s !! j) as [tj|] eqn:Htj; [|done].
  injection Hi as <-. injection Hj as <-.
  pose proof (od_get_Some_elem _ _ _ Hgi) as Hei.
  pose proof (od_get_Some_elem _ _ _ Hgj) as Hej.
  pose proof (direct_fields_keyed ti true) as Hki.
  pose proof (direct_fields_keyed tj true) as Hkj.
  unfold keyed_by_name in Hki, Hkj. rewrite Forall_forall in Hki, Hkj.
  specialize (Hki _ Hei). specialize (Hkj _ Hej). simpl in Hki, Hkj.
  apply (Hs i j ti tj fi fj); try done.
  - by eapply direct_fields_values.
  - by eapply direct_fields_values.
  - congruence.
Qed.

Lemma merge_flat_succeeds s st :
  2 <= length s -> Forall is_struct s -> Forall flat_struct s -> same_classes s ->
  exists T st', merge_TStructs s st = Done (T, s) st'.
Proof.
  intros Hlen Hall Hflat Hsame.
  assert (Hwp : wp (merge_TStructs s) st (fun r _ => r.2 = s) (fun _ _ => False) False).
  { unfold merge_TStructs. destruct s as [|x [|y s]]; simpl in Hlen; try lia.
    cbn [merge_TStructs_fuel]. apply wp_bind.
    eapply wp_mono; [apply map_each_flatten| | |done].
    - intros q st1 (-> & -> & _). apply wp_bind.
      eapply wp_mono; [apply merge_queue_succeeds| | |]; try done.
      + apply Forall_fmap. eapply Forall_impl; [exact Hflat|].
        intros t Ht. apply Forall_forall. intros [k f] Hkf ?.
        apply direct_fields_values in Hkf.
        unfold flat_struct in Ht. rewrite Forall_forall in Ht. by eapply Ht.
      + by apply same_classes_compatible.
    - intros e st1 (_ & _ & Hnot). by destruct Hnot. }
  unfold wp in Hwp. destruct (merge_TStructs s st) as [[T s'] st'| |]; try done.
  simpl in Hwp. subst. eauto.
Qed.

(** ** Type conflicts *)

Lemma merge_conflict_raises s st i j fsi fsj fi fj :
  Forall is_struct s ->
  i < j -> s !! i = Some (TStruct fsi) -> s !! j = Some (TStruct fsj) ->
  NoDup (map name fsi) -> NoDup (map name fsj) ->
  fi ∈ fsi -> fj ∈ fsj -> name fi = name fj ->
  class_of (typ fi) <> class_of (typ fj) ->
  exists st', merge_TStructs s st = Raise TypeError st'.
Proof.
  intros Hall Hij Hi Hj Hndi Hndj Hfi Hfj Hname Hclass.
  assert (Hlen : 2 <= length s).
  { apply lookup_lt_Some in Hj. lia. }
  assert (Hne : s <> []) by (intros ->; simpl in Hlen; lia).
  pose proof (merge_fuel_raises (S (max_depth s)) s st (Nat.lt_succ_diag_r _) Hall Hne)
    as Hraise.
  pose proof (merge_fuel_control (S (max_depth s)) s st Hlen) as Hctl.
  unfold merge_TStructs. unfold wp in Hraise, Hctl.
  destruct (merge_TStructs_fuel (S (max_depth s)) s st) as [r st'|e st'|];
    [|subst; eauto|done].
  destruct Hctl as (_ & _ & _ & Hcompat). exfalso. apply Hclass.
  apply (Hcompat i j (direct_fields (TStruct fsi)) (direct_fields (TStruct fsj))
           (name fi) fi fj); try done.
  - apply not_elem_of_nil.
  - by rewrite list_lookup_fmap, Hi.
  - by rewrite list_lookup_fmap, Hj.
  - by apply direct_fields_get.
  - rewrite Hname. by apply direct_fields_get.
Qed.

(** C6: [merge_TStructs] raises [TypeError], and returns no struct, whenever
    two structs of the list hold a field of the same name whose types
    have different classes, as for [[{a: Int}, {a: String}]]; types of the
    same class that differ in their element types are no conflict: a list of
    flat structs whose same-named fields agree on their classes is merged,
    as is [[{a: Array[Int]}, {a: Array[String]}]]. *)
Theorem merge_TStructs_type_conflict :
  (forall s st i j fsi fsj fi fj,
     Forall is_struct s ->
     i < j -> s !! i = Some (TStruct fsi) -> s !! j = Some (TStruct fsj) ->
     NoDup (map name fsi) -> NoDup (map name fsj) ->
     fi ∈ fsi -> fj ∈ fsj -> name fi = name fj ->
     class_of (typ fi) <> class_of (typ fj) ->
     exists st', merge_TStructs s st = Raise TypeError st') /\
  (exists st', merge_TStructs [struct_a_int; struct_a_string] empty_state =
               Raise TypeError st') /\
  (forall s st,
     2 <= length s -> Forall is_struct s -> Forall flat_struct s -> same_classes s ->
     exists T st', merge_TStructs s st = Done (T, s) st') /\
  (exists T st', merge_TStructs [struct_a_ints; struct_a_strings] empty_state =
                 Done (T, [struct_a_ints; struct_a_strings]) st').
Proof.
  split; [exact merge_conflict_raises|].
  split; [by eexists|].
  split; [exact merge_flat_succeeds|].
  by eexists _, _.
Qed.

Lemma merge_TStructs_type_conflict_witness :
  exists st',
    merge_TStructs [struct_a_int; struct_a_string] empty_state = Raise TypeError st'.
Proof.
  apply (proj1 merge_TStructs_type_conflict
           [struct_a_int; struct_a_string] empty_state 0 1
           [MkField "a" TInt 0] [MkField "a" TString 1]
           (MkField "a" TInt 0) (MkField "a" TString 1)).
  - repeat constructor.
  - lia.
  - reflexivity.
  - reflexivity.
  - apply NoDup_singleton.
  - apply NoDup_singleton.
  - left.
  - left.
  - reflexivity.
  - discriminate.
Defined.

(** ** Effects on the store *)

Lemma grows_refl L st : grows L st st.
Proof. by repeat split. Qed.

Lemma grows_trans L st1 st2 st3 : grows L st1 st2 -> grows L st2 st3 -> grows L st1 st3.
Proof.
  intros (Ha & Hb & Hc) (Ha' & Hb' & Hc'). repeat split.
  - eauto.
  - intros l Hl. rewrite Hb' by done. by apply Hb.
  - by etrans.
Qed.

Lemma grows_mono L L' st st' :
  (forall l, l ∈ L -> l ∈ L') -> grows L st st' -> grows L' st st'.
Proof. intros Hsub (Ha & Hb & Hc). repeat split; auto. Qed.

Section keeps_rules.
Variable L : list loc.

Lemma keeps_ret {A} (a : A) : keeps (grows L) (ret a).
Proof. intros st. apply wp_ret, grows_refl. Qed.

Lemma keeps_raise {A} e : keeps (grows L) (raise e : M A).
Proof. intros st. apply wp_raise, grows_refl. Qed.

Lemma keeps_bind {A B} (m : M A) (k : A -> M B) :
  keeps (grows L) m -> (forall a, keeps (grows L) (k a)) -> keeps (grows L) (bind m k).
Proof.
  intros Hm Hk st. apply wp_bind. eapply wp_mono; [apply Hm| |done..].
  intros a st1 H1. eapply wp_mono; [apply Hk|..]; try done.
  - intros b st2 H2. cbv beta in *. by eapply grows_trans.
  - intros e st2 H2. cbv beta in *. by eapply grows_trans.
Qed.

Lemma keeps_for_each {A} (xs : list A) body :
  (forall x, x ∈ xs -> keeps (grows L) (body x)) -> keeps (grows L) (for_each xs body).
Proof.
  induction xs as [|x xs IH]; intros Hbody; simpl; [apply keeps_ret|].
  apply keeps_bind; [apply Hbody; left|]. intros _. apply IH.
  intros y Hy. apply Hbody. by right.
Qed.

Lemma keeps_fold_each {A B} (xs : list A) (body : B -> A -> M B) acc :
  (forall x acc, x ∈ xs -> keeps (grows L) (body acc x)) ->
  keeps (grows L) (fold_each xs body acc).
Proof.
  revert acc. induction xs as [|x xs IH]; intros acc Hbody; simpl; [apply keeps_ret|].
  apply keeps_bind; [apply Hbody; left|]. intros acc'. apply IH.
  intros y acc'' Hy. apply Hbody. by right.
Qed.

Lemma keeps_map_each {A B} (f : A -> M B) xs :
  (forall x, keeps (grows L) (f x)) -> keeps (grows L) (map_each f xs).
Proof.
  intros Hf. induction xs as [|x xs IH]; simpl; [apply keeps_ret|].
  apply keeps_bind; [apply Hf|]. intros y.
  apply keeps_bind; [apply IH|]. intros ys. apply keeps_ret.
Qed.

Lemma keeps_flatten_struct t root lo r : keeps (grows L) (flatten_struct t root lo r).
Proof. destruct t; first [apply keeps_raise|apply keeps_ret]. Qed.

Lemma keeps_get_attrs l : keeps (grows L) (get_attrs l).
Proof. intros st. unfold wp, get_attrs. apply grows_refl. Qed.
End keeps_rules.

Lemma keeps_mono {A} (R R' : state -> state -> Prop) (m : M A) :
  (forall st st', R st st' -> R' st st') -> keeps R m -> keeps R' m.
Proof. intros HR Hm st. eapply wp_mono; [apply Hm|..]; auto. Qed.

Lemma attrs_at_set_item st l k v l' :
  attrs_at (MkState (<[l := <[k := v]> (attrs_at st l)]> (heap st)) (log st)) l' =
  if decide (l = l') then <[k := v]> (attrs_at st l) else attrs_at st l'.
Proof.
  unfold attrs_at at 1. simpl. destruct (decide (l = l')) as [->|Hne].
  - by rewrite lookup_insert_eq.
  - by rewrite lookup_insert_ne.
Qed.

Lemma logger_grows L lv msg : keeps (grows L) (logger lv msg).
Proof.
  intros st. unfold wp, logger. repeat split; try done. simpl.
  by apply prefix_app_r.
Qed.

Lemma merge_attribute_grows nm attrs kv : keeps (grows [attrs]) (merge_attribute nm attrs kv).
Proof.
  intros st. unfold merge_attribute, wp, bind, get_attrs, set_item.
  destruct (attrs_at st attrs !! kv.1) as [kept|] eqn:Hk.
  - destruct (decide (kv.2 = kept)); [apply grows_refl|]. apply logger_grows.
  - repeat split; try done.
    + intros l k v Hl. rewrite attrs_at_set_item.
      destruct (decide (attrs = l)) as [->|]; [|done].
      rewrite lookup_insert_ne; [done|]. congruence.
    + intros l Hl. rewrite attrs_at_set_item.
      rewrite decide_False; [done|]. intros ->. apply Hl. left.
Qed.

Lemma merge_overlap_grows nm f attrs f2 : keeps (grows [attrs]) (merge_overlap nm f attrs f2).
Proof.
  unfold merge_overlap, type_of, isinstance.
  destruct (bool_decide _); [|apply keeps_raise].
  apply keeps_bind; [apply keeps_get_attrs|].
  intros a2. apply keeps_for_each.
  intros kv _. apply merge_attribute_grows.
Qed.

Lemma all_locs_field f fs :
  f ∈ fs ->
  attributes f ∈ all_locs (TStruct fs) /\
  forall x, x ∈ all_locs (typ f) -> x ∈ all_locs (TStruct fs).
Proof.
  intros Hf. simpl. split.
  - apply list_elem_of_In, in_concat. exists (attributes f :: all_locs (typ f)).
    split; [|by left]. apply in_map_iff. exists f. by rewrite <- list_elem_of_In.
  - intros x Hx. apply list_elem_of_In, in_concat.
    exists (attributes f :: all_locs (typ f)).
    split; [|right; by apply list_elem_of_In].
    apply in_map_iff. exists f. by rewrite <- list_elem_of_In.
Qed.

Lemma elem_of_concat_map {A B} (f : A -> list B) l y :
  y ∈ concat (map f l) <-> exists x, x ∈ l /\ y ∈ f x.
Proof.
  rewrite list_elem_of_In, in_concat. split.
  - intros (ys & (x & <- & Hx)%in_map_iff & Hy). exists x.
    by rewrite !list_elem_of_In.
  - intros (x & Hx & Hy). exists (f x). split.
    + apply in_map_iff. exists x. by rewrite <- list_elem_of_In.
    + by apply list_elem_of_In.
Qed.

Section merge_grows.
Variable rec : list Ty -> M (Ty * list Ty).
Hypothesis rec_grows : forall l, keeps (grows (concat (map all_locs l))) (rec l).

Lemma merge_field_grows q fields nf N :
  (forall x, x ∈ all_locs (typ nf.2) -> x ∈ N) ->
  (forall f2 x, f2 ∈ overlap_of nf.1 q -> x ∈ all_locs (typ f2) -> x ∈ N) ->
  keeps (grows (attributes nf.2 :: N)) (merge_field rec q fields nf).
Proof.
  intros Hf Hov. unfold merge_field. cbv zeta.
  destruct (od_mem _ _); [apply keeps_ret|].
  apply keeps_bind.
  - apply keeps_for_each. intros f2 _.
    eapply keeps_mono; [|apply merge_overlap_grows].
    intros st st'. apply grows_mono. intros l ->%list_elem_of_singleton. left.
  - intros _.
    assert (Hrec : keeps (grows (attributes nf.2 :: N))
              (rec (typ nf.2 :: map typ (overlap_of nf.1 q)))).
    { eapply keeps_mono; [|apply rec_grows]. intros st st'. apply grows_mono.
      intros l (t & Ht & Hl)%elem_of_concat_map. right.
      apply elem_of_cons in Ht as [->|(f2 & <- & Hf2)%list_elem_of_In%in_map_iff];
        [by apply Hf|].
      eapply Hov; [|done]. by apply list_elem_of_In. }
    destruct (typ nf.2); try apply keeps_ret.
    destruct (overlap_of nf.1 q); [apply keeps_ret|].
    apply keeps_bind; [exact Hrec|]. intros r. apply keeps_ret.
Qed.

Lemma merge_queue_grows q fields L :
  (forall d k f, d ∈ q -> (k, f) ∈ d ->
     attributes f ∈ L /\ forall x, x ∈ all_locs (typ f) -> x ∈ L) ->
  keeps (grows L) (merge_queue rec q fields).
Proof.
  revert fields. induction q as [|d q IH]; intros fields Hq; simpl.
  - apply keeps_ret.
  - apply keeps_bind.
    + apply keeps_fold_each. intros [k f] acc Hkf.
      destruct (Hq d k f) as [Hattr Hnested]; [left|done|].
      eapply keeps_mono; [|apply (merge_field_grows _ _ _ L)].
      * intros st st'. apply grows_mono. intros l [->|Hl]%elem_of_cons; done.
      * exact Hnested.
      * simpl. intros f2 x (j & dj & Hj & Hget)%elem_of_overlap_of.
        destruct (Hq dj k f2) as [_ Hn2]; [|by apply od_get_Some_elem|by apply Hn2].
        right. by eapply list_elem_of_lookup_2.
    + intros fields1. apply IH. intros d' k f Hd'. apply Hq. by right.
Qed.
End merge_grows.

Lemma merge_fuel_grows n s :
  keeps (grows (concat (map all_locs s))) (merge_TStructs_fuel n s).
Proof.
  revert s. induction n as [|n IH]; intros s; [by intros st|].
  destruct s as [|x [|y s]].
  - apply keeps_raise.
  - cbn [merge_TStructs_fuel]. apply keeps_bind; [apply logger_grows|].
    intros _. apply keeps_ret.
  - intros st. cbn [merge_TStructs_fuel]. apply wp_bind.
    eapply wp_mono; [apply map_each_flatten| | |done].
    + intros q st1 (-> & -> & _).
      refine (keeps_bind _ _ _ _ (fun _ => keeps_ret _ _) st).
      apply merge_queue_grows; [exact IH|].
      intros d k f (t & -> & Ht)%list_elem_of_fmap Hf%direct_fields_values.
      destruct t as [| | | | | | | |fs]; try (by apply elem_of_nil in Hf).
      cbn [struct_fields] in Hf. destruct (all_locs_field _ _ Hf) as [H1 H2].
      split.
      * apply elem_of_concat_map. eauto.
      * intros l Hl. apply elem_of_concat_map. eauto.
    + intros e st1 (_ & -> & _). apply grows_refl.
Qed.

(** ** Mutation of the inputs *)

(** C4, as stated, fails. Given a list with one struct, [merge_TStructs]
    pops the struct off the list it was given and returns that very struct;
    given [[{a: Int}, {a: Int}]] where only the second field has the
    attribute [Number = "1"], it adds that attribute to the dictionary of the
    first input field. *)
Lemma merge_TStructs_mutates_inputs :
  (exists st', merge_TStructs [struct_a_int] empty_state = Done (struct_a_int, []) st') /\
  (exists r st',
     merge_TStructs [struct_a_int; TStruct [MkField "a" TInt 1]] numbered_state
       = Done r st' /\
     attrs_at numbered_state 0 = ∅ /\
     attrs_at st' 0 !! "Number" = Some "1" /\
     attrs_at st' 0 <> attrs_at numbered_state 0).
Proof.
  split; [by eexists|]. eexists _, _. split; [reflexivity|].
  split; [reflexivity|]. split; [reflexivity|]. discriminate.
Qed.

(** ** Union of the attributes *)

Lemma union_insert_present (a P : gmap string string) k v :
  is_Some (a !! k) -> a ∪ <[k := v]> P = a ∪ P.
Proof.
  intros Hk. apply map_eq. intros k'. rewrite !lookup_union.
  destruct (decide (k = k')) as [<-|Hne].
  - destruct Hk as [w ->]. rewrite lookup_insert_eq. by destruct (P !! k).
  - by rewrite lookup_insert_ne.
Qed.

(** The loop over the attributes of an overlapping field: the dictionary
    [attrs] becomes its left-biased union with the attributes [a2], nothing
    else changes, and every value of [a2] that differs from the one kept is
    reported. *)
Lemma merge_attributes_spec nm attrs (a2 : gmap string string) st :
  wp (for_each (map_to_list a2) (merge_attribute nm attrs)) st
    (fun _ st' =>
       attrs_at st' attrs = attrs_at st attrs ∪ a2 /\
       (forall l, l <> attrs -> attrs_at st' l = attrs_at st l) /\
       log st `prefix_of` log st' /\
       (forall k v kept, a2 !! k = Some v -> attrs_at st attrs !! k = Some kept ->
          kept <> v -> (WARNING, attribute_conflict k nm kept v) ∈ log st'))
    (fun _ _ => False) False.
Proof.
  pose proof (NoDup_fst_map_to_list a2) as Hnd.
  eapply wp_mono;
    [apply (wp_for_each
       (fun pre st1 =>
          attrs_at st1 attrs = attrs_at st attrs ∪ list_to_map pre /\
          (forall l, l <> attrs -> attrs_at st1 l = attrs_at st l) /\
          log st `prefix_of` log st1 /\
          (forall k v kept, (k, v) ∈ pre -> attrs_at st attrs !! k = Some kept ->
             kept <> v -> (WARNING, attribute_conflict k nm kept v) ∈ log st1))
       (fun _ _ => False) False)| | |]; try done.
  - split; [by rewrite list_to_map_nil, (right_id_L ∅ (∪))|].
    split; [done|]. split; [done|]. intros k v kept Hin. by apply elem_of_nil in Hin.
  - intros pre [k v] post st1 Hsplit (Hattrs & Hframe & Hlog & Hwarn).
    assert (Hfresh : k ∉ pre.*1).
    { rewrite Hsplit, fmap_app in Hnd. apply NoDup_app in Hnd as (_ & Hdis & _).
      intros Hk. apply (Hdis k Hk). csimpl. left. }
    assert (HP : (list_to_map pre : gmap string string) !! k = None).
    { by apply not_elem_of_list_to_map. }
    assert (Hcur : attrs_at st1 attrs !! k = attrs_at st attrs !! k).
    { rewrite Hattrs. by apply lookup_union_l. }
    unfold merge_attribute, wp, bind, get_attrs. cbn [fst snd].
    rewrite Hcur. rewrite list_to_map_snoc by done.
    destruct (attrs_at st attrs !! k) as [kept|] eqn:Hk.
    + assert (Hsame : attrs_at st1 attrs = attrs_at st attrs ∪ <[k:=v]> (list_to_map pre)).
      { rewrite union_insert_present; [done|]. by rewrite Hk. }
      destruct (decide (v = kept)) as [->|Hne]; cbn.
      * repeat split; try done. intros k' v' kept' [Hin|Hin]%elem_of_app; [by eauto|].
        apply list_elem_of_singleton in Hin as [= -> ->]. congruence.
      * unfold logger. repeat split; try done.
        { cbn. by apply prefix_app_r. }
        cbn. intros k' v' kept' [Hin|Hin]%elem_of_app Hk' Hne'.
        { apply elem_of_app. left. by eauto. }
        apply list_elem_of_singleton in Hin as [= -> ->].
        rewrite Hk in Hk'. injection Hk' as <-.
        apply elem_of_app. right. left.
    + unfold set_item. split; [|split; [|split]].
      * rewrite attrs_at_set_item, decide_True by done.
        rewrite Hattrs. by apply insert_union_r.
      * intros l Hl. rewrite attrs_at_set_item, decide_False by done. by apply Hframe.
      * done.
      * cbn. intros k' v' kept' [Hin|Hin]%elem_of_app Hk' Hne'; [by eauto|].
        apply list_elem_of_singleton in Hin as [= -> ->]. congruence.
  - intros u st' (Hattrs & Hframe & Hlog & Hwarn).
    rewrite list_to_map_to_list in Hattrs. repeat split; try done.
    intros k v kept Hk. apply Hwarn. by apply elem_of_map_to_list.
Qed.

Lemma foldl_union_is_Some (a : gmap string string) ms m k :
  is_Some (a !! k) \/ (m ∈ ms /\ is_Some (m !! k)) ->
  is_Some (foldl (∪) a ms !! k).
Proof.
  revert a. induction ms as [|m' ms IH]; intros a H; simpl.
  - destruct H as [H|[H _]]; [done|by apply elem_of_nil in H].
  - apply IH. destruct H as [[w Hw]|[[->|Hin]%elem_of_cons Hm]].
    + left. exists w. apply lookup_union_Some_raw. by left.
    + left. destruct (a !! k) as [w|] eqn:Ha.
      * exists w. apply lookup_union_Some_raw. by left.
      * destruct Hm as [w Hw]. exists w. apply lookup_union_Some_raw. by right.
    + by right.
Qed.

Lemma prefix_elem_of {A} (l1 l2 : list A) x : l1 `prefix_of` l2 -> x ∈ l1 -> x ∈ l2.
Proof. intros [k ->] Hx. apply elem_of_app. by left. Qed.

(** The loop over the overlapping fields. *)
Lemma merge_overlaps_spec nm f attrs overlaps st :
  attrs ∉ map attributes overlaps ->
  wp (for_each overlaps (merge_overlap nm f attrs)) st
    (fun _ st' =>
       attrs_at st' attrs =
         foldl (∪) (attrs_at st attrs)
           (map (fun f2 => attrs_at st (attributes f2)) overlaps) /\
       (forall l, l <> attrs -> attrs_at st' l = attrs_at st l) /\
       log st `prefix_of` log st' /\
       (forall f2 k v kept, f2 ∈ overlaps ->
          attrs_at st (attributes f2) !! k = Some v ->
          attrs_at st' attrs !! k = Some kept -> kept <> v ->
          (WARNING, attribute_conflict k nm kept v) ∈ log st'))
    (fun _ _ => True) False.
Proof.
  intros Hsep.
  eapply wp_mono;
    [apply (wp_for_each
       (fun pre st1 =>
          attrs_at st1 attrs =
            foldl (∪) (attrs_at st attrs)
              (map (fun f2 => attrs_at st (attributes f2)) pre) /\
          (forall l, l <> attrs -> attrs_at st1 l = attrs_at st l) /\
          log st `prefix_of` log st1 /\
          (forall f2 k v kept, f2 ∈ pre ->
             attrs_at st (attributes f2) !! k = Some v ->
             attrs_at st1 attrs !! k = Some kept -> kept <> v ->
             (WARNING, attribute_conflict k nm kept v) ∈ log st1))
       (fun _ _ => True) False)| | |]; try done.
  - repeat split; try done. intros f2 k v kept Hin. by apply elem_of_nil in Hin.
  - intros pre f2 post st1 Hsplit (Hattrs & Hframe & Hlog & Hwarn).
    assert (Hne : attributes f2 <> attrs).
    { intros Heq. apply Hsep. rewrite Hsplit, map_app. apply elem_of_app. right.
      simpl. rewrite Heq. left. }
    unfold merge_overlap, type_of. apply wp_isinstance_class.
    destruct (bool_decide _); [|done].
    apply wp_bind, wp_ret.
    eapply wp_mono; [apply merge_attributes_spec| |done..].
    intros u st2 (Hattrs2 & Hframe2 & Hlog2 & Hwarn2).
    rewrite (Hframe _ Hne) in Hattrs2, Hwarn2.
    split; [|split; [|split]].
    + rewrite map_app, foldl_app. simpl. by rewrite <- Hattrs.
    + intros l Hl. rewrite Hframe2 by done. by apply Hframe.
    + by etrans.
    + intros g k v kept [Hin|Hin]%elem_of_app Hv Hkept Hdiff.
      * assert (Hcur : is_Some (attrs_at st1 attrs !! k)).
        { rewrite Hattrs.
          apply (foldl_union_is_Some _ _ (attrs_at st (attributes g))). right.
          split; [|by rewrite Hv].
          apply list_elem_of_In, in_map_iff. exists g. by rewrite <- list_elem_of_In. }
        rewrite Hattrs2, lookup_union_l' in Hkept by done.
        eapply prefix_elem_of; [exact Hlog2|]. by eapply Hwarn.
      * apply list_elem_of_singleton in Hin as ->.
        rewrite Hattrs2 in Hkept. apply lookup_union_Some_raw in Hkept as [Hk|[_ Hk]].
        -- by eapply Hwarn2.
        -- congruence.
Qed.

(** ** The merge loop seen from one field name *)

Lemma keeps_done {A} (R : state -> state -> Prop) (m : M A) st (Q : A -> state -> Prop) :
  keeps R m ->
  wp m st Q (fun _ _ => True) True ->
  wp m st (fun a st' => Q a st' /\ R st st') (fun _ _ => True) True.
Proof. intros Hk Hq. specialize (Hk st). unfold wp in *. by destruct (m st). Qed.

Lemma fold_each_app {A B} (xs ys : list A) (body : B -> A -> M B) acc st :
  fold_each (xs ++ ys) body acc st =
  bind (fold_each xs body acc) (fun acc' => fold_each ys body acc') st.
Proof.
  revert acc st. induction xs as [|x xs IH]; intros acc st; simpl.
  - unfold bind, ret. done.
  - unfold bind in *. destruct (body acc x st); [|done..]. apply IH.
Qed.

Lemma od_get_split {V} nm (d : odict V) v :
  od_get nm d = Some v ->
  exists pre post, d = pre ++ (nm, v) :: post /\ nm ∉ od_keys pre.
Proof.
  induction d as [|[k w] d IH]; simpl; [done|].
  destruct (decide (k = nm)) as [->|Hne].
  - intros [= ->]. exists [], d. split; [done|]. apply not_elem_of_nil.
  - intros (pre & post & -> & Hpre)%IH. exists ((k, w) :: pre), post.
    split; [done|]. unfold od_keys in *. csimpl. rewrite not_elem_of_cons. by split.
Qed.

Section merge_focus.
Variable rec : list Ty -> M (Ty * list Ty).
Hypothesis rec_grows : forall l, keeps (grows (concat (map all_locs l))) (rec l).
Variable nm : string.
Variable G : list loc.

Lemma covered_overlap q k f2 :
  Forall (covered nm G) q -> f2 ∈ overlap_of k q ->
  forall x, x ∈ all_locs (typ f2) -> x ∈ G.
Proof.
  intros Hq (j & dj & Hj & Hget)%elem_of_overlap_of.
  rewrite Forall_forall in Hq.
  apply (Hq dj (list_elem_of_lookup_2 _ _ _ Hj) k f2).
  by apply od_get_Some_elem.
Qed.

(** What [merge_field] does to the dictionary of fields. *)
Lemma merge_field_shape q fields nf st :
  wp (merge_field rec q fields nf) st
    (fun fields' st' =>
       (nf.1 ∈ od_keys fields /\ fields' = fields /\ st' = st) \/
       (nf.1 ∉ od_keys fields /\
        exists g, fields' = od_set nf.1 g fields /\
                  attributes g = attributes nf.2 /\
                  (name nf.2 = nf.1 -> name g = nf.1)))
    (fun _ _ => True) True.
Proof.
  unfold merge_field. cbv zeta. destruct (od_mem _ _) eqn:Hmem.
  - apply od_mem_spec in Hmem. apply wp_ret. by left.
  - assert (Hnotin : nf.1 ∉ od_keys fields).
    { intros Hin%od_mem_spec. congruence. }
    apply wp_bind, wp_any. intros _ st1.
    assert (Hret : forall g st2, attributes g = attributes nf.2 ->
              (name nf.2 = nf.1 -> name g = nf.1) ->
              wp (ret (od_set nf.1 g fields)) st2
                (fun fields' st' =>
                   (nf.1 ∈ od_keys fields /\ fields' = fields /\ st' = st) \/
                   (nf.1 ∉ od_keys fields /\
                    exists g, fields' = od_set nf.1 g fields /\
                              attributes g = attributes nf.2 /\
                              (name nf.2 = nf.1 -> name g = nf.1)))
                (fun _ _ => True) True).
    { intros g st2 Hg1 Hg2. apply wp_ret. right. split; [done|]. by exists g. }
    destruct (typ nf.2); try (by apply Hret).
    destruct (overlap_of nf.1 q); [by apply Hret|].
    apply wp_bind, wp_any. intros r st2. by apply Hret.
Qed.

(** A step for another name, or for a name already merged, leaves the
    entry of [nm] and the dictionaries outside [G] as they are. *)
Lemma merge_field_other q fields nf st :
  Forall (covered nm G) q ->
  (forall x, x ∈ all_locs (typ nf.2) -> x ∈ G) ->
  (nf.1 <> nm -> attributes nf.2 ∈ G) ->
  (nf.1 = nm -> nm ∈ od_keys fields) ->
  wp (merge_field rec q fields nf) st
    (fun fields' st' => od_get nm fields' = od_get nm fields /\ grows G st st')
    (fun _ _ => True) True.
Proof.
  intros Hq Hnested Hattr Hskip.
  pose proof (merge_field_shape q fields nf st) as Hshape.
  pose proof (merge_field_grows rec rec_grows q fields nf G Hnested
                (fun f2 x Hf2 => covered_overlap q nf.1 f2 Hq Hf2 x) st) as Hgrow.
  unfold wp in *. destruct (merge_field rec q fields nf st) as [fields' st'| |]; try done.
  destruct Hshape as [(_ & -> & ->)|(Hnotin & g & -> & _)].
  - split; [done|apply grows_refl].
  - assert (Hne : nf.1 <> nm) by (intros Heq; apply Hnotin; rewrite Heq; auto).
    split.
    + rewrite od_get_set. by rewrite decide_False.
    + eapply grows_mono; [|exact Hgrow].
      intros l [->|Hl]%elem_of_cons; [by apply Hattr|done].
Qed.

Lemma merge_current_other q fields d st :
  Forall (covered nm G) q -> covered nm G d ->
  nm ∈ od_keys fields \/ nm ∉ od_keys d ->
  wp (fold_each d (merge_field rec q) fields) st
    (fun fields' st' => od_get nm fields' = od_get nm fields /\ grows G st st')
    (fun _ _ => True) True.
Proof.
  intros Hq Hd Hcase.
  eapply wp_mono;
    [apply (wp_fold_each
       (fun _ fields' st' => od_get nm fields' = od_get nm fields /\ grows G st st')
       (fun _ _ => True) True)| | |]; try done.
  intros pre [k g] post fields1 st1 Hsplit [Hget Hgrow].
  { assert (Hkg : (k, g) ∈ d).
    { rewrite Hsplit. apply elem_of_app. right. left. }
    destruct (Hd k g Hkg) as [Hnested Hattr].
    eapply wp_mono; [apply merge_field_other| |done..]; try done.
    + cbn [fst]. intros ->. apply dec_stable. intros Hnot.
      apply od_get_None in Hnot. rewrite Hget in Hnot. apply od_get_None in Hnot.
      destruct Hcase as [?|Hcase]; [done|]. apply Hcase.
      unfold od_keys. apply list_elem_of_fmap. by exists (nm, g).
    + intros fields2 st2 [Hget2 Hgrow2]. cbv beta. split; [congruence|].
      by eapply grows_trans. }
Qed.

Lemma merge_queue_other q fields st :
  Forall (covered nm G) q ->
  nm ∈ od_keys fields ->
  wp (merge_queue rec q fields) st
    (fun fields' st' => od_get nm fields' = od_get nm fields /\ grows G st st')
    (fun _ _ => True) True.
Proof.
  intros Hq. revert fields st. induction Hq as [|d q Hd Hq IH]; intros fields st Hin.
  - apply wp_ret. split; [done|apply grows_refl].
  - simpl. apply wp_bind.
    eapply wp_mono; [apply merge_current_other| |done..]; try done; [by left|].
    intros fields1 st1 [Hget1 Hgrow1]. cbv beta.
    eapply wp_mono; [apply IH| |done..].
    + apply dec_stable. intros Hnot. apply od_get_None in Hnot.
      rewrite Hget1 in Hnot. by apply od_get_None in Hnot.
    + intros fields2 st2 [Hget2 Hgrow2]. cbv beta. split; [congruence|].
      by eapply grows_trans.
Qed.

(** The step that merges the name [nm]. *)
Lemma merge_field_focus q fields f st :
  Forall (covered nm G) q ->
  (forall x, x ∈ all_locs (typ f) -> x ∈ G) ->
  nm ∉ od_keys fields -> name f = nm ->
  attributes f ∉ G ->
  attributes f ∉ map attributes (overlap_of nm q) ->
  wp (merge_field rec q fields (nm, f)) st
    (fun fields' st' =>
       ((exists g, od_get nm fields' = Some g /\ name g = nm /\
                   attributes g = attributes f) /\
        attrs_at st' (attributes f) =
          foldl (∪) (attrs_at st (attributes f))
            (map (fun f2 => attrs_at st (attributes f2)) (overlap_of nm q)) /\
        (forall f2 k v kept, f2 ∈ overlap_of nm q ->
           attrs_at st (attributes f2) !! k = Some v ->
           attrs_at st' (attributes f) !! k = Some kept -> kept <> v ->
           (WARNING, attribute_conflict k nm kept v) ∈ log st')) /\
       grows (attributes f :: G) st st')
    (fun _ _ => True) True.
Proof.
  intros Hq Hnested Hnotin Hname Hattr Hsep.
  apply keeps_done.
  { apply merge_field_grows; [done..|]. intros f2 x Hf2. by eapply covered_overlap. }
  unfold merge_field. cbv zeta. cbn [fst snd].
  destruct (od_mem _ _) eqn:Hmem; [by apply od_mem_spec in Hmem|].
  apply wp_bind.
  eapply wp_mono; [by apply merge_overlaps_spec| |done..].
  intros u st1 (Hattrs & Hframe & Hlog & Hwarn). clear u.
  assert (Hret : forall g, name g = nm -> attributes g = attributes f ->
            wp (ret (od_set nm g fields)) st1
              (fun fields' st' =>
                 (exists g, od_get nm fields' = Some g /\ name g = nm /\
                            attributes g = attributes f) /\
                 attrs_at st' (attributes f) =
                   foldl (∪) (attrs_at st (attributes f))
                     (map (fun f2 => attrs_at st (attributes f2)) (overlap_of nm q)) /\
                 (forall f2 k v kept, f2 ∈ overlap_of nm q ->
                    attrs_at st (attributes f2) !! k = Some v ->
                    attrs_at st' (attributes f) !! k = Some kept -> kept <> v ->
                    (WARNING, attribute_conflict k nm kept v) ∈ log st'))
              (fun _ _ => True) True).
  { intros g Hg1 Hg2. apply wp_ret. split; [|done].
    exists g. rewrite od_get_set. by rewrite decide_True. }
  destruct (typ f) as [| | | | | | | |gs] eqn:Htyp; try (by apply Hret).
  destruct (overlap_of nm q) as [|f2 ov] eqn:Hov; [by apply Hret|].
  apply wp_bind.
  eapply wp_mono; [apply rec_grows| |done..].
  intros r st2 (_ & Hframe2 & Hlog2). cbv beta.
  assert (Hsame : attrs_at st2 (attributes f) = attrs_at st1 (attributes f)).
  { apply Hframe2. intros (t & Ht & Hl)%elem_of_concat_map. apply Hattr.
    apply elem_of_cons in Ht as [->|(g & <- & Hg)%list_elem_of_In%in_map_iff].
    - by apply Hnested.
    - eapply covered_overlap; [exact Hq| |exact Hl].
      rewrite Hov. by apply list_elem_of_In. }
  apply wp_ret. split; [|split].
  - eexists. rewrite od_get_set, decide_True by done. done.
  - by rewrite Hsame.
  - intros g k v kept Hg Hv Hkept Hdiff. rewrite Hsame in Hkept.
    eapply prefix_elem_of; [exact Hlog2|]. by eapply Hwarn.
Qed.

Lemma merged_attributes_before f ov st st1 fields' st' :
  grows G st st1 ->
  attributes f ∉ G -> (forall f2, f2 ∈ ov -> attributes f2 ∉ G) ->
  merged_attributes nm f ov st1 fields' st' ->
  merged_attributes nm f ov st fields' st'.
Proof.
  intros (_ & Hframe & _) Hf Hov (Hg & Hattrs & Hwarn).
  assert (Hmap : map (fun f2 => attrs_at st1 (attributes f2)) ov =
                 map (fun f2 => attrs_at st (attributes f2)) ov).
  { apply map_ext_in. intros f2 Hf2%list_elem_of_In. apply Hframe. by apply Hov. }
  split; [done|]. split.
  - by rewrite Hattrs, Hmap, (Hframe _ Hf).
  - intros f2 k v kept Hf2 Hv. apply (Hwarn f2); [done|].
    by rewrite (Hframe _ (Hov _ Hf2)).
Qed.

Lemma merged_attributes_after f ov st fields1 st1 fields' st' :
  od_get nm fields' = od_get nm fields1 ->
  grows G st1 st' -> attributes f ∉ G ->
  merged_attributes nm f ov st fields1 st1 ->
  merged_attributes nm f ov st fields' st'.
Proof.
  intros Hget (_ & Hframe & Hlog) Hf (Hg & Hattrs & Hwarn).
  split; [by rewrite Hget|]. split.
  - by rewrite (Hframe _ Hf).
  - intros f2 k v kept Hf2 Hv Hkept Hdiff. rewrite (Hframe _ Hf) in Hkept.
    eapply prefix_elem_of; [exact Hlog|]. by eapply Hwarn.
Qed.

Lemma wp_fold_each_app {A B} (xs ys : list A) (body : B -> A -> M B) acc st
    (Q : B -> state -> Prop) E T :
  wp (bind (fold_each xs body acc) (fun acc' => fold_each ys body acc')) st Q E T ->
  wp (fold_each (xs ++ ys) body acc) st Q E T.
Proof. unfold wp. by rewrite fold_each_app. Qed.

Lemma covered_app d1 d2 : covered nm G (d1 ++ d2) -> covered nm G d1 /\ covered nm G d2.
Proof.
  intros H. split; intros k g Hkg; apply H, elem_of_app; [by left|by right].
Qed.

Lemma merge_queue_focus_here d q2 fields st f :
  Forall (covered nm G) q2 -> covered nm G d ->
  nm ∉ od_keys fields -> od_get nm d = Some f -> name f = nm ->
  attributes f ∉ G ->
  (forall f2, f2 ∈ overlap_of nm q2 -> attributes f2 ∉ G) ->
  attributes f ∉ map attributes (overlap_of nm q2) ->
  wp (merge_queue rec (d :: q2) fields) st
    (fun fields' st' => merged_attributes nm f (overlap_of nm q2) st fields' st')
    (fun _ _ => True) True.
Proof.
  intros Hq2 Hd Hnotin Hget Hname Hattr Hov Hsep.
  destruct (od_get_split _ _ _ Hget) as (pre & post & Hsplit & Hpre).
  rewrite Hsplit in Hd. apply covered_app in Hd as [Hdpre Hdpost].
  assert (Hnested : forall x, x ∈ all_locs (typ f) -> x ∈ G).
  { apply (Hdpost nm f). left. }
  assert (Hdpost' : covered nm G post).
  { intros k g Hkg. apply Hdpost. by right. }
  simpl merge_queue. apply wp_bind. rewrite Hsplit. apply wp_fold_each_app.
  apply wp_bind.
  eapply wp_mono; [apply merge_current_other| |done..]; try done; [by right|].
  intros fields1 st1 [Hget1 Hgrow1]. cbv beta.
  assert (Hnotin1 : nm ∉ od_keys fields1).
  { apply od_get_None. rewrite Hget1. by apply od_get_None. }
  cbn [fold_each]. apply wp_bind.
  eapply wp_mono; [by apply merge_field_focus| |done..].
  intros fields2 st2 [Hmerged Hgrow2]. cbv beta.
  assert (Hin2 : nm ∈ od_keys fields2).
  { destruct Hmerged as ((g & Hg & _) & _). apply dec_stable. intros Hnot.
    apply od_get_None in Hnot. congruence. }
  eapply wp_mono; [apply merge_current_other| |done..]; try done; [by left|].
  intros fields3 st3 [Hget3 Hgrow3]. cbv beta.
  assert (Hin3 : nm ∈ od_keys fields3).
  { apply dec_stable. intros Hnot. apply od_get_None in Hnot.
    rewrite Hget3 in Hnot. by apply od_get_None in Hnot. }
  eapply wp_mono; [by apply merge_queue_other| |done..].
  intros fields4 st4 [Hget4 Hgrow4]. cbv beta.
  eapply merged_attributes_before; [exact Hgrow1|done|done|].
  eapply merged_attributes_after; [exact Hget4|exact Hgrow4|done|].
  eapply merged_attributes_after; [exact Hget3|exact Hgrow3|done|].
  exact Hmerged.
Qed.

Lemma merge_queue_focus q1 d q2 fields st f :
  Forall (covered nm G) (q1 ++ d :: q2) ->
  Forall (fun d' => nm ∉ od_keys d') q1 ->
  nm ∉ od_keys fields -> od_get nm d = Some f -> name f = nm ->
  attributes f ∉ G ->
  (forall f2, f2 ∈ overlap_of nm q2 -> attributes f2 ∉ G) ->
  attributes f ∉ map attributes (overlap_of nm q2) ->
  wp (merge_queue rec (q1 ++ d :: q2) fields) st
    (fun fields' st' => merged_attributes nm f (overlap_of nm q2) st fields' st')
    (fun _ _ => True) True.
Proof.
  revert fields st.
  induction q1 as [|d0 q1 IH];
    intros fields st Hq Hq1 Hnotin Hget Hname Hattr Hov Hsep.
  - simpl app in *. apply Forall_cons in Hq as [Hc0 Hq'].
    by apply merge_queue_focus_here.
  - simpl app in *. apply Forall_cons in Hq as [Hc0 Hq'].
    apply Forall_cons in Hq1 as [Hd0 Hq1'].
    cbn [merge_queue]. apply wp_bind.
    eapply wp_mono; [apply merge_current_other| |done..]; try done; [by right|].
    intros fields1 st1 [Hget1 Hgrow1]. cbv beta.
    assert (Hnotin1 : nm ∉ od_keys fields1).
    { apply od_get_None. rewrite Hget1. by apply od_get_None. }
    eapply wp_mono; [by apply IH| |done..].
    intros fields2 st2 Hmerged. cbv beta.
    by eapply merged_attributes_before.
Qed.
End merge_focus.

(** ** Attributes of the merged fields *)

Lemma NoDup_map_inj {A B} (h : A -> B) (l : list A) x y :
  NoDup (map h l) -> x ∈ l -> y ∈ l -> h x = h y -> x = y.
Proof.
  induction l as [|z l IH]; simpl; intros Hnd Hx Hy Heq; [by apply elem_of_nil in Hx|].
  inversion Hnd as [|? ? Hz Hnd']; subst.
  apply elem_of_cons in Hx as [->|Hx]; apply elem_of_cons in Hy as [->|Hy]; auto.
  - exfalso. apply Hz. rewrite Heq. apply list_elem_of_In, in_map. by apply list_elem_of_In.
  - exfalso. apply Hz. rewrite <- Heq. apply list_elem_of_In, in_map. by apply list_elem_of_In.
Qed.

Lemma elem_of_map_iff {A B} (h : A -> B) (l : list A) y :
  y ∈ map h l <-> exists x, h x = y /\ x ∈ l.
Proof.
  rewrite list_elem_of_In, in_map_iff. by setoid_rewrite list_elem_of_In.
Qed.

Lemma top_fields_elem s t g : t ∈ s -> g ∈ struct_fields t -> g ∈ top_fields s.
Proof. intros Ht Hg. apply elem_of_concat_map. eauto. Qed.

Lemma top_fields_app s1 s2 : top_fields (s1 ++ s2) = top_fields s1 ++ top_fields s2.
Proof. unfold top_fields. by rewrite map_app, concat_app. Qed.

Lemma merge_fuel_unfold n s :
  2 <= length s ->
  merge_TStructs_fuel (S n) s =
  bind (map_each (fun x => flatten_struct x "" true false) s) (fun s_fields =>
  bind (merge_queue (merge_TStructs_fuel n) s_fields []) (fun fields =>
  ret (TStruct (od_values fields), s))).
Proof. destruct s as [|x [|y s]]; simpl; intros; try lia. done. Qed.

Lemma overlap_after_fields nm after f2 :
  f2 ∈ overlap_of nm (map direct_fields after) ->
  name f2 = nm /\ f2 ∈ top_fields after.
Proof.
  intros (j & dj & Hj & Hget)%elem_of_overlap_of.
  rewrite list_lookup_fmap in Hj.
  destruct (after !! j) as [t|] eqn:Ht; [|done]. injection Hj as <-.
  apply od_get_Some_elem in Hget. split.
  - pose proof (direct_fields_keyed t true) as Hk. unfold keyed_by_name in Hk.
    rewrite Forall_forall in Hk. apply (Hk _ Hget).
  - eapply top_fields_elem; [by eapply list_elem_of_lookup_2|].
    by eapply direct_fields_values.
Qed.

Lemma merge_attributes_general before fs after nm f st T s' st' :
  2 <= length (before ++ TStruct fs :: after) ->
  Forall (fun t => nm ∉ field_names t) before ->
  NoDup (map name fs) -> f ∈ fs -> name f = nm ->
  separate_attributes (before ++ TStruct fs :: after) ->
  merge_TStructs (before ++ TStruct fs :: after) st = Done (T, s') st' ->
  exists fields',
    T = TStruct (od_values fields') /\
    merged_attributes nm f (overlap_of nm (map direct_fields after)) st fields' st'.
Proof.
  intros Hlen Hbefore Hnd Hf Hname [Hsep1 Hsep2] Hdone.
  set (s := before ++ TStruct fs :: after) in *.
  set (top := top_fields s) in *.
  set (G := map attributes (filter (fun g => name g <> nm) top) ++
            concat (map (fun g => all_locs (typ g)) top)).
  assert (Hftop : f ∈ top).
  { apply (top_fields_elem s (TStruct fs)); [|done].
    unfold s. apply elem_of_app. right. left. }
  assert (HG : forall g, g ∈ top -> name g = nm -> attributes g ∉ G).
  { intros g Hg Hgn [Hin|Hin]%elem_of_app.
    - apply elem_of_map_iff in Hin as (g' & Heq & Hg').
      apply list_elem_of_filter in Hg' as [Hne Hg'].
      apply Hne. rewrite <- Hgn. f_equal. by eapply (NoDup_map_inj attributes top).
    - apply elem_of_concat_map in Hin as (g' & Hg' & Hx).
      apply (Hsep2 g' _ Hg' Hx). apply elem_of_map_iff. eauto. }
  assert (Hcov : Forall (covered nm G) (map direct_fields s)).
  { apply Forall_forall. intros d (t & -> & Ht)%list_elem_of_fmap k g Hkg.
    assert (Hg : g ∈ top).
    { eapply top_fields_elem; [exact Ht|]. by eapply direct_fields_values. }
    split.
    - intros x Hx. apply elem_of_app. right. apply elem_of_concat_map. eauto.
    - intros Hk. apply elem_of_app. left. apply elem_of_map_iff. exists g.
      split; [done|]. apply list_elem_of_filter. split; [|done].
      pose proof (direct_fields_keyed t true) as Hkeyed. unfold keyed_by_name in Hkeyed.
      rewrite Forall_forall in Hkeyed. specialize (Hkeyed _ Hkg). simpl in Hkeyed.
      congruence. }
  unfold merge_TStructs in Hdone. rewrite merge_fuel_unfold in Hdone by done.
  assert (Hwp : wp (bind (map_each (fun x => flatten_struct x "" true false) s)
                      (fun s_fields =>
                       bind (merge_queue (merge_TStructs_fuel (max_depth s)) s_fields [])
                         (fun fields => ret (TStruct (od_values fields), s)))) st
                  (fun r st' => exists fields',
                     r.1 = TStruct (od_values fields') /\
                     merged_attributes nm f (overlap_of nm (map direct_fields after))
                       st fields' st')
                  (fun _ _ => True) True).
  { apply wp_bind. eapply wp_mono; [apply map_each_flatten| |done..].
    intros q st1 (-> & -> & _). apply wp_bind.
    replace (map direct_fields s)
      with (map direct_fields before ++
            direct_fields (TStruct fs) :: map direct_fields after)
      by (unfold s; by rewrite map_app).
    eapply wp_mono;
      [apply (merge_queue_focus _ (merge_fuel_grows _) nm G)| |done..].
    - unfold s in Hcov. by rewrite map_app in Hcov.
    - apply Forall_forall. intros d (t & <- & Ht)%elem_of_map_iff.
      rewrite Forall_forall in Hbefore. specialize (Hbefore t Ht).
      unfold direct_fields. rewrite direct_fields_keys.
      unfold first_occurrences. rewrite elem_of_fresh. naive_solver.
    - apply not_elem_of_nil.
    - rewrite <- Hname. by apply direct_fields_get.
    - done.
    - by apply HG.
    - intros f2 [Hn2 Hf2]%overlap_after_fields. apply HG; [|done].
      unfold top, s. rewrite top_fields_app. apply elem_of_app. right.
      change (TStruct fs :: after) with ([TStruct fs] ++ after).
      rewrite top_fields_app. apply elem_of_app. by right.
    - intros (f2 & Heq & [Hn2 Hf2]%overlap_after_fields)%elem_of_map_iff.
      unfold top, s in Hsep1. rewrite top_fields_app, map_app in Hsep1.
      apply NoDup_app in Hsep1 as (_ & _ & Hsep1).
      change (TStruct fs :: after) with ([TStruct fs] ++ after) in Hsep1.
      rewrite top_fields_app, map_app in Hsep1.
      apply NoDup_app in Hsep1 as (_ & Hdis & _).
      apply (Hdis (attributes f)).
      + apply elem_of_map_iff. exists f. split; [done|].
        unfold top_fields. simpl. by rewrite app_nil_r.
      + apply elem_of_map_iff. eauto.
    - intros fields' st2 Hmerged. apply wp_ret. by exists fields'. }
  pose proof (wp_done _ _ _ _ _ _ _ Hwp Hdone) as (fields' & HT & Hmerged).
  exists fields'. by split.
Qed.



Lemma foldl_union_lookup_first (a : gmap string string) ms k v :
  a !! k = Some v -> foldl (∪) a ms !! k = Some v.
Proof.
  revert a. induction ms as [|m ms IH]; intros a Ha; simpl; [done|].
  apply IH. apply lookup_union_Some_raw. by left.
Qed.

(** C7: while [merge_TStructs] merges, reconciling the attributes never
    raises. When it returns, the field merged for a name carries the
    dictionary of the field where the name was first seen, and that
    dictionary is the union of the attributes of this field and of the
    same-named fields of the later structs, the first value seen for a key
    being kept: the entries of the first field are as they were, every key of
    a later field is present, and a later value that differs from the one
    kept is reported by a warning in the log. The fields of the given structs
    are assumed to have attribute dictionaries of their own. On
    [[{a: Int, Number = "1"}, {a: Int, Number = "2"}]] the merged field has
    [Number = "1"] and the log has exactly one warning. *)
Theorem merge_TStructs_attributes :
  (forall nm attrs items st,
     exists st', for_each items (merge_attribute nm attrs) st = Done tt st') /\
  (forall before fs after nm f st T s' st',
     2 <= length (before ++ TStruct fs :: after) ->
     Forall (fun t => nm ∉ field_names t) before ->
     NoDup (map name fs) -> f ∈ fs -> name f = nm ->
     separate_attributes (before ++ TStruct fs :: after) ->
     merge_TStructs (before ++ TStruct fs :: after) st = Done (T, s') st' ->
     exists g,
       g ∈ struct_fields T /\ name g = nm /\ attributes g = attributes f /\
       attrs_at st' (attributes g) =
         foldl (∪) (attrs_at st (attributes f))
           (map (fun f2 => attrs_at st (attributes f2))
                (overlap_of nm (map direct_fields after))) /\
       (forall k v, attrs_at st (attributes f) !! k = Some v ->
          attrs_at st' (attributes g) !! k = Some v) /\
       (forall f2 k v, f2 ∈ overlap_of nm (map direct_fields after) ->
          attrs_at st (attributes f2) !! k = Some v ->
          exists kept,
            attrs_at st' (attributes g) !! k = Some kept /\
            (kept <> v -> (WARNING, attribute_conflict k nm kept v) ∈ log st'))) /\
  (merge_TStructs [struct_a_int; struct_a_second] conflicting_state =
     Done (struct_a_int, [struct_a_int; struct_a_second]) conflict_reported /\
   attrs_at conflict_reported 0 !! "Number" = Some "1" /\
   log conflict_reported = [(WARNING, attribute_conflict "Number" "a" "1" "2")]).
Proof.
  split; [exact merge_attributes_done|]. split.
  - intros before fs after nm f st T s' st' Hlen Hbefore Hnd Hf Hname Hsep Hdone.
    destruct (merge_attributes_general _ _ _ _ _ _ _ _ _
                Hlen Hbefore Hnd Hf Hname Hsep Hdone)
      as (fields' & -> & ((g & Hget & Hgn & Hga) & Hattrs & Hwarn)).
    exists g. rewrite Hga. repeat split; try done.
    + apply od_get_Some_elem in Hget. cbn [struct_fields]. unfold od_values.
      apply list_elem_of_fmap. by exists (nm, g).
    + intros k v Hk. rewrite Hattrs. by apply foldl_union_lookup_first.
    + intros f2 k v Hf2 Hk.
      destruct (foldl_union_is_Some (attrs_at st (attributes f))
                  (map (fun f2 => attrs_at st (attributes f2))
                       (overlap_of nm (map direct_fields after)))
                  (attrs_at st (attributes f2)) k) as [kept Hkept].
      { right. split; [|by rewrite Hk]. apply elem_of_map_iff. eauto. }
      exists kept. rewrite Hattrs. split; [done|]. intros Hdiff.
      eapply Hwarn; [exact Hf2|exact Hk| |exact Hdiff]. by rewrite Hattrs.
  - split; [reflexivity|]. split; reflexivity.
Qed.

Lemma merge_TStructs_attributes_witness :
  merge_TStructs [struct_a_int; struct_a_second] conflicting_state =
    Done (struct_a_int, [struct_a_int; struct_a_second]) conflict_reported /\
  exists g,
    g ∈ struct_fields struct_a_int /\ name g = "a" /\ attributes g = 0 /\
    attrs_at conflict_reported (attributes g) =
      foldl (∪) (attrs_at conflicting_state 0)
        (map (fun f2 => attrs_at conflicting_state (attributes f2))
             (overlap_of "a" (map direct_fields [struct_a_second]))).
Proof.
  split; [reflexivity|].
  destruct (proj1 (proj2 merge_TStructs_attributes)
              [] [MkField "a" TInt 0] [struct_a_second] "a" (MkField "a" TInt 0)
              conflicting_state struct_a_int [struct_a_int; struct_a_second]
              conflict_reported)
    as (g & Hg1 & Hg2 & Hg3 & Hg4 & _).
  - simpl. lia.
  - constructor.
  - repeat constructor. apply not_elem_of_nil.
  - left.
  - reflexivity.
  - split.
    + unfold top_fields. simpl. apply NoDup_cons. split; [|apply NoDup_singleton].
      rewrite list_elem_of_singleton. discriminate.
    + intros g x Hg Hx. unfold top_fields in Hg. simpl in Hg.
      rewrite !elem_of_cons, elem_of_nil in Hg.
      destruct Hg as [->|[->|[]]]; by apply elem_of_nil in Hx.
  - reflexivity.
  - exists g. by repeat split.
Defined.

(** ** Triangular genotype index *)

Lemma triangle_succ k : (0 <= k)%Z -> triangle (k + 1) = (triangle k + k + 1)%Z.
Proof.
  intros Hk. unfold triangle.
  replace ((k + 1) * (k + 1 + 1))%Z with (k * (k + 1) + (k + 1) * 2)%Z by lia.
  rewrite Z.div_add by lia. lia.
Qed.

Lemma triangle_double k : (0 <= k)%Z -> (2 * triangle k = k * (k + 1))%Z.
Proof.
  revert k. apply natlike_ind; [reflexivity|].
  intros k Hk IH. unfold Z.succ. rewrite triangle_succ by done. lia.
Qed.

Lemma gtk_encode j k : (0 <= j <= k)%Z -> gtk (encode j k) = k.
Proof.
  intros Hjk. unfold gtk, encode.
  pose proof (triangle_double k ltac:(lia)) as Hd.
  assert (Hsq : (8 * (triangle k + j) + 1 = (2 * k + 1) * (2 * k + 1) + 8 * j)%Z) by lia.
  rewrite Hsq.
  pose proof (Z.sqrt_spec ((2 * k + 1) * (2 * k + 1) + 8 * j) ltac:(nia)) as Hs.
  pose proof (Z.sqrt_nonneg ((2 * k + 1) * (2 * k + 1) + 8 * j)) as Hn.
  set (r := Z.sqrt ((2 * k + 1) * (2 * k + 1) + 8 * j)) in *. cbv zeta in Hs.
  assert (Hlo : (2 * k + 1 <= r)%Z) by nia.
  assert (Hhi : (r < 2 * k + 3)%Z) by nia.
  symmetry. apply Z.div_unique with (r := (r - 1 - 2 * k)%Z); lia.
Qed.

Lemma decode_encode j k : (0 <= j <= k)%Z -> decode (encode j k) = (j, k).
Proof.
  intros Hjk. unfold decode, gtj. rewrite gtk_encode by done.
  unfold encode. f_equal. lia.
Qed.

(** [gtk idx] is the floor of [(sqrt (8 idx + 1) - 1) / 2]: the odd number
    [2 gtk idx + 1] is the largest whose square is at most [8 idx + 1]. *)
Lemma gtk_floor idx :
  (0 <= idx)%Z ->
  ((2 * gtk idx + 1) * (2 * gtk idx + 1) <= 8 * idx + 1 <
   (2 * gtk idx + 3) * (2 * gtk idx + 3))%Z.
Proof.
  intros Hidx. unfold gtk.
  pose proof (Z.sqrt_spec (8 * idx + 1) ltac:(lia)) as Hs.
  pose proof (Z.sqrt_nonneg (8 * idx + 1)) as Hn.
  set (r := Z.sqrt (8 * idx + 1)) in *. cbv zeta in Hs.
  assert (Hr : (1 <= r)%Z) by nia.
  pose proof (Z.div_mod (r - 1) 2 ltac:(lia)) as Hdiv.
  pose proof (Z.mod_pos_bound (r - 1) 2 ltac:(lia)) as Hmod.
  set (q := ((r - 1) / 2)%Z) in *.
  assert (Hq : (2 * q + 1 <= r <= 2 * q + 2)%Z) by lia.
  unfold Z.succ in Hs. split; nia.
Qed.

(** C9: for every number of alleles from 1 to 20 and every pair
    [0 <= j <= k < nAllele], decoding the triangular index
    [k (k + 1) / 2 + j] gives back [(j, k)]. *)
Theorem triangular_round_trip nAllele j k :
  (1 <= nAllele <= 20)%Z -> (0 <= j <= k)%Z -> (k < nAllele)%Z ->
  encode j k = (k * (k + 1) / 2 + j)%Z /\ decode (encode j k) = (j, k).
Proof. intros _ Hjk _. split; [reflexivity|]. by apply decode_encode. Qed.

Lemma triangular_round_trip_witness :
  encode 1 2 = (2 * (2 + 1) / 2 + 1)%Z /\ decode (encode 1 2) = (1, 2)%Z.
Proof. apply (triangular_round_trip 3 1 2); lia. Defined.

(** ** Splitting multi-allelic annotations *)

Lemma render_a_based_rule ann :
  render_rule (a_based_rule ann) = ann +:+ " = " +:+ ann +:+ "[va.aIndex - 1]".
Proof. reflexivity. Qed.

Lemma render_r_based_rule drop ann :
  render_rule (r_based_rule drop ann) =
  if drop then ann +:+ " = " +:+ ann +:+ "[va.aIndex]"
  else ann +:+ " = [" +:+ ann +:+ "[0], " +:+ ann +:+ "[va.aIndex]]".
Proof.
  destruct drop; [reflexivity|].
  unfold render_rule, r_based_rule. cbn [lhs rhs render map String.concat].
  rewrite !string_app_assoc. reflexivity.
Qed.

Lemma index_into_arrays_render a r vep_root drop :
  index_into_arrays a r vep_root drop =
  map render_rule (map a_based_rule (or_empty a) ++ map (r_based_rule drop) (or_empty r)) ++
  vep_rules vep_root.
Proof.
  assert (H : map (fun ann => ann +:+ " = " +:+ ann +:+ "[va.aIndex - 1]") (or_empty a) ++
              map (fun ann =>
                     if drop then ann +:+ " = " +:+ ann +:+ "[va.aIndex]"
                     else ann +:+ " = [" +:+ ann +:+ "[0], " +:+ ann +:+ "[va.aIndex]]")
                  (or_empty r) =
              map render_rule
                (map a_based_rule (or_empty a) ++ map (r_based_rule drop) (or_empty r))).
  { rewrite map_app, !map_map. f_equal.
    apply map_ext. intros ann. cbv beta. rewrite render_r_based_rule. by destruct drop. }
  unfold index_into_arrays, vep_rules. cbv zeta. rewrite H.
  destruct vep_root as [root|]; [|by rewrite app_nil_r].
  destruct (is_empty_string root); [by rewrite app_nil_r|done].
Qed.

Lemma eval_index e ann i vals n :
  env_get ann e = Some (VArr vals) -> eval e i = Some (VInt n) -> (0 <= n)%Z ->
  eval e (EIndex (EVar ann) i) = nth_error vals (Z.to_nat n).
Proof.
  intros Hann Hi Hn. cbn [eval]. rewrite Hann, Hi.
  by rewrite (proj2 (Z.leb_le 0 n) Hn).
Qed.

(** C3, as stated, fails: the expression emitted for an A-based annotation,
    and the one for an R-based annotation when the reference is dropped,
    rewrite the annotation to one element of its array, not to a list that
    holds this element. *)
Lemma split_rules_give_elements :
  index_into_arrays (Some ["va.info.AC"]) None None false =
    ["va.info.AC = va.info.AC[va.aIndex - 1]"] /\
  eval split_env (rhs (a_based_rule "va.info.AC")) = Some (VInt 20) /\
  eval split_env (rhs (a_based_rule "va.info.AC")) <> Some (VArr [VInt 20]) /\
  index_into_arrays None (Some ["va.info.AC"]) None true =
    ["va.info.AC = va.info.AC[va.aIndex]"] /\
  eval split_env (rhs (r_based_rule true "va.info.AC")) = Some (VInt 30) /\
  eval split_env (rhs (r_based_rule true "va.info.AC")) <> Some (VArr [VInt 30]).
Proof. repeat split; try reflexivity; discriminate. Qed.

(** C3 (amended): whatever [vep_root] is given, the expressions that
    [index_into_arrays] emits are, in order, one per A-based annotation, one
    per R-based annotation, and then the filters of the consequence lists
    when a [vep_root] is given. With the surviving allele index [aIndex]
    (from 1), the expression for an A-based annotation rewrites the value to
    its element [value[aIndex - 1]]; the one for an R-based annotation
    rewrites it to the element [value[aIndex]] when the reference is
    dropped, and to the pair [[value[0], value[aIndex]]] otherwise. *)
Theorem index_into_arrays_rules a r vep_root drop e ann vals aIndex :
  env_get ann e = Some (VArr vals) ->
  env_get "va.aIndex" e = Some (VInt aIndex) ->
  (1 <= aIndex)%Z ->
  index_into_arrays a r vep_root drop =
    map render_rule
        (map a_based_rule (or_empty a) ++ map (r_based_rule drop) (or_empty r)) ++
    vep_rules vep_root /\
  (ann ∈ or_empty a ->
   render_rule (a_based_rule ann) ∈ index_into_arrays a r vep_root drop) /\
  (ann ∈ or_empty r ->
   render_rule (r_based_rule drop ann) ∈ index_into_arrays a r vep_root drop) /\
  eval e (rhs (a_based_rule ann)) = nth_error vals (Z.to_nat (aIndex - 1)) /\
  eval e (rhs (r_based_rule true ann)) = nth_error vals (Z.to_nat aIndex) /\
  eval e (rhs (r_based_rule false ann)) =
    match nth_error vals 0, nth_error vals (Z.to_nat aIndex) with
    | Some ref, Some alt => Some (VArr [ref; alt])
    | _, _ => None
    end.
Proof.
  intros Hann Hidx Hpos. split; [apply index_into_arrays_render|].
  assert (Hsub : eval e (ESub (EVar "va.aIndex") (EInt 1)) = Some (VInt (aIndex - 1))).
  { cbn [eval]. by rewrite Hidx. }
  split; [|split; [|split; [|split]]].
  - intros Hin. rewrite index_into_arrays_render, map_app, !elem_of_app. left. left.
    apply list_elem_of_fmap. exists (a_based_rule ann). split; [done|].
    apply list_elem_of_fmap. by exists ann.
  - intros Hin. rewrite index_into_arrays_render, map_app, !elem_of_app. left. right.
    apply list_elem_of_fmap. exists (r_based_rule drop ann). split; [done|].
    apply list_elem_of_fmap. by exists ann.
  - cbn [rhs a_based_rule]. apply eval_index; [done..|lia].
  - cbn [rhs r_based_rule]. apply eval_index; [done..|lia].
  - cbn [rhs r_based_rule eval map_opt].
    rewrite Hann, Hidx. cbn [eval Z.leb Z.to_nat].
    rewrite (proj2 (Z.leb_le 0 aIndex)) by lia.
    change (0 <=? 0)%Z with true. cbv iota. change (Z.to_nat 0) with 0.
    destruct (nth_error vals 0); [|reflexivity].
    by destruct (nth_error vals (Z.to_nat aIndex)).
Qed.

Lemma index_into_arrays_rules_witness :
  index_into_arrays (Some ["va.info.AC"]) None (Some "va.vep") false =
    ["va.info.AC = va.info.AC[va.aIndex - 1]";
     "va.vep.transcript_consequences = va.vep.transcript_consequences.filter(x => x.allele_num == va.aIndex)";
     "va.vep.intergenic_consequences = va.vep.intergenic_consequences.filter(x => x.allele_num == va.aIndex)";
     "va.vep.motif_feature_consequences = va.vep.motif_feature_consequences.filter(x => x.allele_num == va.aIndex)";
     "va.vep.regulatory_feature_consequences = va.vep.regulatory_feature_consequences.filter(x => x.allele_num == va.aIndex)"] /\
  eval split_env (rhs (a_based_rule "va.info.AC")) = Some (VInt 20) /\
  eval split_env (rhs (r_based_rule true "va.info.AC")) = Some (VInt 30) /\
  eval split_env (rhs (r_based_rule false "va.info.AC")) = Some (VArr [VInt 10; VInt 30]).
Proof.
  destruct (index_into_arrays_rules (Some ["va.info.AC"]) None (Some "va.vep") false
              split_env "va.info.AC" [VInt 10; VInt 20; VInt 30] 2)
    as (Hrules & _ & _ & Ha & Hr & Hp); [reflexivity|reflexivity|lia|].
  split; [rewrite Hrules; reflexivity|]. by repeat split.
Defined.

(** ** Subsetting genotype arrays *)

Lemma one_line_app a b : one_line (a +:+ b) = one_line a +:+ one_line b.
Proof.
  induction a as [|c a IH]; [reflexivity|].
  rewrite string_app_cons. cbn [one_line]. rewrite IH.
  by destruct (Ascii.eqb c (Ascii.ascii_of_nat 10)).
Qed.

Lemma cut_allele_text target destination :
  one_line (cut_allele_from_g_array target destination) =
  one_line (render_rule (cut_allele_rule target destination)).
Proof.
  unfold cut_allele_from_g_array, render_rule, cut_allele_rule.
  unfold removed_alleles_expr, kept_genotypes_expr.
  cbn [lhs rhs render]. rewrite !string_app_assoc, !one_line_app.
  reflexivity.
Qed.

Lemma existsb_VInt a l :
  existsb (value_eqb (VInt a)) (map VInt l) = bool_decide (a ∈ l).
Proof.
  induction l as [|b l IH]; [reflexivity|]. cbn [map existsb]. rewrite IH.
  cbn [value_eqb].
  destruct (Z.eqb_spec a b) as [->|Hne]; simpl.
  - symmetry. apply bool_decide_eq_true. left.
  - apply bool_decide_ext. rewrite elem_of_cons. naive_solver.
Qed.

Lemma filter_opt_VInt (p : value -> option bool) (P : Z -> Prop)
    `{!forall a, Decision (P a)} l :
  (forall a, a ∈ l -> p (VInt a) = Some (bool_decide (P a))) ->
  filter_opt p (map VInt l) = Some (map VInt (filter P l)).
Proof.
  induction l as [|a l IH]; intros Hp; [reflexivity|].
  cbn [map filter_opt]. rewrite Hp by left. rewrite IH by (intros; apply Hp; by right).
  rewrite filter_cons. by destruct (decide (P a));
    [rewrite bool_decide_eq_true_2|rewrite bool_decide_eq_false_2].
Qed.

Lemma map_opt_total {A B} (f : A -> option B) (g : A -> B) l :
  (forall a, a ∈ l -> f a = Some (g a)) -> map_opt f l = Some (map g l).
Proof.
  induction l as [|a l IH]; intros Hf; [reflexivity|].
  cbn [map map_opt]. rewrite Hf by left. by rewrite IH by (intros; apply Hf; by right).
Qed.

Lemma elem_of_range a b i : i ∈ range a b <-> (a <= i < b)%Z.
Proof.
  unfold range. rewrite elem_of_map_iff. setoid_rewrite list_elem_of_In.
  setoid_rewrite in_seq. split.
  - intros (n & <- & Hn). lia.
  - intros Hi. exists (Z.to_nat (i - a)). lia.
Qed.

Lemma eval_removed_alleles e aIndices nAlt :
  env_get "aIndices" e = Some (VArr (map VInt aIndices)) ->
  env_get "v.nAltAlleles" e = Some (VInt nAlt) ->
  eval e removed_alleles_expr = Some (VSet (map VInt (removed_alleles nAlt aIndices))).
Proof.
  intros Ha Hn. unfold removed_alleles_expr. cbn [eval]. rewrite Hn.
  rewrite (filter_opt_VInt _ (fun a => a ∉ aIndices)); [reflexivity|].
  intros a _. cbn [eval env_get]. change (String.eqb "i" "aIndices") with false.
  change (String.eqb "i" "i") with true. cbv iota. rewrite Ha. cbn [as_bool].
  rewrite existsb_VInt. f_equal.
  destruct (decide (a ∈ aIndices));
    [rewrite bool_decide_eq_true_2, bool_decide_eq_false_2 by auto
    |rewrite bool_decide_eq_false_2, bool_decide_eq_true_2 by auto]; done.
Qed.

Lemma eval_kept_genotypes e target vals removed :
  target <> "i" -> target <> "removed_alleles" ->
  env_get target e = Some (VArr vals) ->
  eval (("removed_alleles", VSet (map VInt removed)) :: e) (kept_genotypes_expr target) =
  Some (VArr (map (fun idx => nth (Z.to_nat idx) vals VNA)
                  (filter (fun idx => gtj idx ∉ removed /\ gtk idx ∉ removed)
                          (range 0 (Z.of_nat (length vals)))))).
Proof.
  intros Hi Hr Ht.
  assert (Hget : forall v,
            env_get target (("i", v) :: ("removed_alleles", VSet (map VInt removed)) :: e)
            = Some (VArr vals)).
  { intros v. cbn [env_get].
    rewrite (proj2 (String.eqb_neq "i" target)) by congruence.
    by rewrite (proj2 (String.eqb_neq "removed_alleles" target)) by congruence. }
  unfold kept_genotypes_expr. cbn [eval env_get].
  rewrite (proj2 (String.eqb_neq "removed_alleles" target)) by congruence.
  rewrite Ht.
  rewrite (filter_opt_VInt _ (fun idx => gtj idx ∉ removed /\ gtk idx ∉ removed)).
  - cbn [option_map].
    rewrite (map_opt_total _ (fun v => match v with
                                       | VInt idx => nth (Z.to_nat idx) vals VNA
                                       | _ => VNA
                                       end)).
    + cbn [option_map]. by rewrite map_map.
    + intros v (idx & <- & Hidx)%elem_of_map_iff.
      apply list_elem_of_filter in Hidx as [_ Hidx%elem_of_range].
      rewrite (proj2 (String.eqb_neq "i" target)) by congruence.
      change (String.eqb "i" "i") with true. cbv iota.
      rewrite (proj2 (Z.leb_le 0 idx)) by lia.
      apply nth_error_nth'. lia.
  - intros idx _. cbn [eval env_get].
    change (String.eqb "i" "removed_alleles") with false.
    change (String.eqb "i" "i") with true. cbv iota.
    change (String.eqb "removed_alleles" "removed_alleles") with true. cbv iota.
    change (String.eqb "gtj" "gtj") with true.
    change (String.eqb "gtk" "gtj") with false.
    change (String.eqb "gtk" "gtk") with true. cbv iota. cbn [as_bool].
    rewrite !existsb_VInt. f_equal.
    destruct (decide (gtj idx ∈ removed)), (decide (gtk idx ∈ removed));
      repeat first [rewrite bool_decide_eq_true_2 by tauto
                   |rewrite bool_decide_eq_false_2 by tauto]; reflexivity.
Qed.

Lemma range_sorted a b : StronglySorted Z.lt (range a b).
Proof.
  unfold range. generalize (Z.to_nat (b - a)) as n. generalize 0 as s.
  intros s n. revert s. induction n as [|n IH]; intros s; simpl; constructor.
  - apply IH.
  - apply Forall_forall. intros x (i & <- & Hi%list_elem_of_In%in_seq)%elem_of_map_iff.
    lia.
Qed.

Lemma filter_sorted (P : Z -> Prop) `{!forall a, Decision (P a)} l :
  StronglySorted Z.lt l -> StronglySorted Z.lt (filter P l).
Proof.
  induction 1 as [|x l Hl IH Hx]; [constructor|].
  rewrite filter_cons. destruct (decide (P x)); [|done].
  constructor; [done|]. apply Forall_forall. intros y [_ Hy]%list_elem_of_filter.
  rewrite Forall_forall in Hx. by apply Hx.
Qed.

(** C8: the expression that [cut_allele_from_g_array] emits for a G-based
    array computes the removed alleles [{1..nAlt} \ aIndices] and rewrites
    the array to [value[idx]] for exactly the indices [idx], in ascending
    order, whose decoded components [gtj idx] and [gtk idx] are both outside
    the removed alleles; the entries kept are the original ones, not
    renumbered. With three alleles and [aIndices = [0, 1]], the indices
    0, 1, 2 are kept and 3, 4, 5 dropped. *)
Theorem cut_allele_from_g_array_keeps target destination e vals aIndices nAlt :
  target <> "i" -> target <> "removed_alleles" ->
  env_get target e = Some (VArr vals) ->
  env_get "aIndices" e = Some (VArr (map VInt aIndices)) ->
  env_get "v.nAltAlleles" e = Some (VInt nAlt) ->
  one_line (cut_allele_from_g_array target destination) =
    one_line (render_rule (cut_allele_rule target destination)) /\
  eval e (rhs (cut_allele_rule target destination)) =
    Some (VArr (map (fun idx => nth (Z.to_nat idx) vals VNA)
                    (kept_genotypes nAlt aIndices (length vals)))) /\
  (forall idx, idx ∈ kept_genotypes nAlt aIndices (length vals) <->
     (0 <= idx < Z.of_nat (length vals))%Z /\
     gtj idx ∉ removed_alleles nAlt aIndices /\
     gtk idx ∉ removed_alleles nAlt aIndices) /\
  StronglySorted Z.lt (kept_genotypes nAlt aIndices (length vals)) /\
  kept_genotypes 2 [0; 1]%Z 6 = [0; 1; 2]%Z.
Proof.
  intros Hi Hr Ht Ha Hn. split; [apply cut_allele_text|]. split; [|split; [|split]].
  - cbn [rhs cut_allele_rule eval]. rewrite (eval_removed_alleles e aIndices nAlt) by done.
    by apply eval_kept_genotypes.
  - intros idx. unfold kept_genotypes. rewrite list_elem_of_filter, elem_of_range.
    tauto.
  - apply filter_sorted, range_sorted.
  - reflexivity.
Qed.

Lemma cut_allele_from_g_array_keeps_witness :
  eval subset_env (rhs (cut_allele_rule "va.info.PL" None)) =
    Some (VArr [VInt 10; VInt 11; VInt 12]).
Proof.
  refine (proj1 (proj2 (cut_allele_from_g_array_keeps "va.info.PL" None subset_env
                          [VInt 10; VInt 11; VInt 12; VInt 13; VInt 14; VInt 15]
                          [0; 1]%Z 2 _ _ eq_refl eq_refl eq_refl)));
    discriminate.
Defined.

(** ** Replacing a schema *)

(** The loop of [get_schema_expr] fills the fields whose path the old
    schema does not have, and raises [TypeError] at the first field whose
    path it has. *)
Lemma schema_expr_loop_spec rec old fs root acc st :
  schema_expr_loop rec old fs root acc st =
  if forallb (fun f => bool_decide (od_get (dotted root (name f)) old = None)) fs
  then Done (acc ++ map (fun f => name f +:+ ": NA:" +:+ type_str (typ f)) fs) st
  else Raise TypeError st.
Proof.
  revert acc. induction fs as [|f fs IH]; intros acc.
  - simpl. by rewrite app_nil_r.
  - cbn [schema_expr_loop forallb map]. unfold bind at 1.
    destruct (od_get (dotted root (name f)) old) as [g|] eqn:Hget.
    + by rewrite bool_decide_eq_false_2.
    + rewrite bool_decide_eq_true_2 by done. cbn [ret andb].
      rewrite IH, <- app_assoc. reflexivity.
Qed.

Lemma get_schema_expr_spec fs root old st :
  get_schema_expr (TStruct fs) root old st =
  if forallb (fun f => bool_decide (od_get (dotted root (name f)) old = None)) fs
  then Done ("{" +:+ String.concat ","
               (map (fun f => name f +:+ ": NA:" +:+ type_str (typ f)) fs) +:+ "}") st
  else Raise TypeError st.
Proof.
  cbn [get_schema_expr]. unfold bind. rewrite schema_expr_loop_spec.
  by destruct (forallb _ fs).
Qed.

(** C1: for the old schema [{a: Int}] and the new schema
    [{a: Int, b: String}] the specification expects the program
    [{a: va.a, b: NA:String}]; the code raises [TypeError] instead, at the
    test of the field [a], which the old schema has. Only when the old schema
    has none of the paths does it produce a program, all of typed nulls. *)
Theorem replace_schema_shared_field_raises :
  replace_schema_expr struct_a_int struct_new_ab empty_state =
    Raise TypeError empty_state /\
  replace_schema_expr (TStruct []) struct_new_ab empty_state =
    Done "va = {a: NA:Int,b: NA:String}" empty_state.
Proof. split; reflexivity. Qed.

(** ** Grouping by attribute *)

(** An array field without the grouping attribute is put in no bucket. *)
Lemma group_field_array_dropped rec key recursive default_func root annotations field st :
  class_of (typ field) = CArray ->
  attrs_at st (attributes field) !! key = None ->
  group_field rec key recursive default_func root annotations field st =
  Done annotations st.
Proof.
  intros Hclass Hattr. unfold group_field.
  rewrite bool_decide_eq_true_2 by done.
  unfold bind, get_attrs. by rewrite Hattr.
Qed.

(** A field that is neither an array nor, when recursing, a struct goes to
    the bucket of its default key. *)
Lemma group_field_default rec key root annotations field st :
  class_of (typ field) <> CArray ->
  group_field rec key false (Some default_values) root annotations field st =
  Done (group_append (default_values field) (dotted root (name field), field)
                     annotations) st.
Proof.
  intros Hclass. unfold group_field. by rewrite bool_decide_eq_false_2.
Qed.

(** C2: with the default classification on, the specification files an
    [Array] field that lacks the attribute under ["."]; the code files it
    nowhere, so that not every field is in a bucket. The other defaults are
    as specified: a [Set] under ["."], a [Boolean] under ["0"], another
    exportable type under ["1"], the rest under [None]. *)
Theorem array_without_number_in_no_bucket :
  (exists st',
     get_numbered_annotations struct_array_only "va" false true empty_state =
       Done ∅ st') /\
  default_values (MkField "x" (TArray TInt) 0) = Some "." /\
  (exists st',
     get_numbered_annotations struct_mixed "va" false true empty_state =
       Done (<[Some "." := [("va.s", MkField "s" (TSet TInt) 0)]]>
             (<[Some "0" := [("va.b", MkField "b" TBoolean 1)]]>
              (<[Some "1" := [("va.n", MkField "n" TInt 2)]]>
               (<[None := [("va.t", MkField "t" (TStruct []) 3)]]> ∅))))
            st').
Proof.
  split; [by eexists|]. split; [reflexivity|]. eexists. by vm_compute.
Qed.

(** ** Column names for Spark *)

Lemma toSSQL_cons c s :
  toSSQL (String c s) =
  if Ascii.eqb (Ascii.ascii_of_nat 46) c then "___" +:+ toSSQL s else String c (toSSQL s).
Proof.
  unfold toSSQL, str_replace. cbn [replace_from starts_with].
  destruct (Ascii.eqb _ c); reflexivity.
Qed.

Lemma contains_dot_cons c s :
  contains_dot (String c s) = Ascii.eqb c (Ascii.ascii_of_nat 46) || contains_dot s.
Proof. reflexivity. Qed.

Lemma contains_dot_app a b : contains_dot (a +:+ b) = contains_dot a || contains_dot b.
Proof.
  induction a as [|c a IH]; [reflexivity|].
  rewrite string_app_cons, !contains_dot_cons, IH. by rewrite orb_assoc.
Qed.

(** X1: the result of [toSSQL] holds no dot, whatever the text: it can
    serve as a column name where dots are not allowed. *)
Theorem toSSQL_no_dot s : contains_dot (toSSQL s) = false.
Proof.
  induction s as [|c s IH]; [reflexivity|].
  rewrite toSSQL_cons. destruct (Ascii.eqb _ c) eqn:Hc.
  - rewrite contains_dot_app, IH. reflexivity.
  - rewrite contains_dot_cons, IH, Ascii.eqb_sym, Hc. reflexivity.
Qed.

Lemma fromSSQL_match t : fromSSQL ("___" +:+ t) = "." +:+ fromSSQL t.
Proof. reflexivity. Qed.

Lemma fromSSQL_other c t :
  starts_with "___" (String c t) = false ->
  fromSSQL (String c t) = String c (fromSSQL t).
Proof. intros H. unfold fromSSQL, str_replace. cbn [replace_from]. by rewrite H. Qed.

Lemma starts_with_split p s : starts_with p s = true -> exists t, s = p +:+ t.
Proof.
  revert s. induction p as [|a p IH]; intros s H.
  - by exists s.
  - destruct s as [|b s]; [done|]. cbn [starts_with] in H.
    apply andb_true_iff in H as [->%Ascii.eqb_eq [t ->]%IH].
    by exists t.
Qed.

Lemma string_length_app (a b : string) :
  String.length (a +:+ b) = String.length a + String.length b.
Proof. induction a as [|c a IH]; [done|]. rewrite string_app_cons. simpl. by rewrite IH. Qed.

(** Induction along the reading of [fromSSQL]. *)
Lemma fromSSQL_ind (P : string -> string -> Prop) :
  P "" "" ->
  (forall t, P t (fromSSQL t) -> P ("___" +:+ t) ("." +:+ fromSSQL t)) ->
  (forall c t, starts_with "___" (String c t) = false ->
     P t (fromSSQL t) -> P (String c t) (String c (fromSSQL t))) ->
  forall t, P t (fromSSQL t).
Proof.
  intros Hnil Hmatch Hother t.
  assert (H : forall n t, String.length t <= n -> P t (fromSSQL t)).
  { clear t. induction n as [|n IH]; intros t Hlen.
    - destruct t; [exact Hnil|simpl in Hlen; lia].
    - destruct t as [|c t]; [exact Hnil|].
      destruct (starts_with "___" (String c t)) eqn:Hs.
      + apply starts_with_split in Hs as [t' Ht']. rewrite Ht', fromSSQL_match.
        apply Hmatch, IH. rewrite Ht', string_length_app in Hlen. simpl in Hlen. lia.
      + rewrite fromSSQL_other by done. apply Hother; [done|].
        apply IH. simpl in Hlen. lia. }
  by apply (H (String.length t)).
Qed.

Lemma starts_with_cons a p b s :
  starts_with (String a p) (String b s) = Ascii.eqb a b && starts_with p s.
Proof. reflexivity. Qed.

Lemma fromSSQL_no_underscores t : occurs_in "___" (fromSSQL t) = false.
Proof.
  enough (H : occurs_in "___" (fromSSQL t) = false /\
              (starts_with "_" (fromSSQL t) = true -> starts_with "_" t = true) /\
              (starts_with "__" (fromSSQL t) = true -> starts_with "__" t = true))
    by apply H.
  apply (fromSSQL_ind (fun t o =>
    occurs_in "___" o = false /\
    (starts_with "_" o = true -> starts_with "_" t = true) /\
    (starts_with "__" o = true -> starts_with "__" t = true))); clear t.
  - done.
  - intros t (IH & _ & _). split; [|done].
    rewrite string_app_cons. change ("" +:+ fromSSQL t) with (fromSSQL t).
    cbn [occurs_in]. by rewrite IH.
  - intros c t Hs (IH & IH1 & IH2).
    rewrite starts_with_cons in Hs.
    split; [|split].
    + cbn [occurs_in]. rewrite IH, orb_false_r, starts_with_cons.
      destruct (Ascii.eqb _ c) eqn:Hc; [|done]. cbn [andb] in *.
      destruct (starts_with "__" (fromSSQL t)) eqn:Ho; [|done].
      by rewrite IH2 in Hs.
    + rewrite !starts_with_cons. by intros [-> _]%andb_true_iff.
    + rewrite !starts_with_cons. intros [-> H]%andb_true_iff. cbn [andb].
      by apply IH1.
Qed.

Lemma occurs_in_cons p c s :
  occurs_in p (String c s) = starts_with p (String c s) || occurs_in p s.
Proof. reflexivity. Qed.

Lemma fromSSQL_no_underscore_dot t :
  contains_dot t = false -> occurs_in "_." (fromSSQL t) = false.
Proof.
  enough (H : contains_dot t = false ->
              occurs_in "_." (fromSSQL t) = false /\
              (starts_with "." (fromSSQL t) = true -> starts_with "___" t = true))
    by (intros Ht; by apply H).
  apply (fromSSQL_ind (fun t o =>
    contains_dot t = false ->
    occurs_in "_." o = false /\
    (starts_with "." o = true -> starts_with "___" t = true))); clear t.
  - done.
  - intros t IH Hdot. rewrite contains_dot_app in Hdot.
    apply orb_false_iff in Hdot as [_ Hdot]. destruct (IH Hdot) as [IH1 _].
    split; [|done].
    rewrite string_app_cons. change ("" +:+ fromSSQL t) with (fromSSQL t).
    rewrite occurs_in_cons, IH1. reflexivity.
  - intros c t Hs IH Hdot. rewrite contains_dot_cons in Hdot.
    apply orb_false_iff in Hdot as [Hc Hdot]. destruct (IH Hdot) as [IH1 IH2].
    split.
    + rewrite occurs_in_cons, IH1, orb_false_r, starts_with_cons.
      destruct (Ascii.eqb _ c) eqn:Hu; [|done]. cbn [andb].
      destruct (starts_with "." (fromSSQL t)) eqn:Ho; [|done].
      destruct (starts_with_split _ _ (IH2 eq_refl)) as [t' ->].
      apply Ascii.eqb_eq in Hu as <-. discriminate Hs.
    + rewrite starts_with_cons, andb_true_r.
      intros Hd. apply Ascii.eqb_eq in Hd. rewrite <- Hd in Hc. discriminate Hc.
Qed.

(** X3: on a text without dots [toSSQL] undoes [fromSSQL]: every dot that
    [fromSSQL] writes stands for three underscores of the text. *)
Theorem toSSQL_fromSSQL t : contains_dot t = false -> toSSQL (fromSSQL t) = t.
Proof.
  apply (fromSSQL_ind (fun t o => contains_dot t = false -> toSSQL o = t)); clear t.
  - done.
  - intros t IH Hdot. rewrite contains_dot_app in Hdot.
    apply orb_false_iff in Hdot as [_ Hdot].
    rewrite string_app_cons. change ("" +:+ fromSSQL t) with (fromSSQL t).
    rewrite toSSQL_cons, IH by done. reflexivity.
  - intros c t _ IH Hdot. rewrite contains_dot_cons in Hdot.
    apply orb_false_iff in Hdot as [Hc Hdot].
    rewrite toSSQL_cons, Ascii.eqb_sym, Hc, IH by done. reflexivity.
Qed.

Lemma toSSQL_fromSSQL_witness : toSSQL (fromSSQL "va___info___AC_raw") = "va___info___AC_raw".
Proof. apply (toSSQL_fromSSQL "va___info___AC_raw"). reflexivity. Defined.

Lemma plain_underscores_cons c s :
  plain_underscores (String c s) = true -> plain_underscores s = true.
Proof.
  unfold plain_underscores. rewrite !occurs_in_cons, !negb_orb.
  intros [[_ ->]%andb_true_iff [_ ->]%andb_true_iff]%andb_true_iff. done.
Qed.

Lemma string_app_nil_l (s : string) : "" +:+ s = s.
Proof. reflexivity. Qed.

Lemma fromSSQL_toSSQL_pending s :
  (plain_underscores s = true -> fromSSQL (toSSQL s) = s) /\
  (plain_underscores ("_" +:+ s) = true -> fromSSQL ("_" +:+ toSSQL s) = "_" +:+ s) /\
  (plain_underscores ("__" +:+ s) = true -> fromSSQL ("__" +:+ toSSQL s) = "__" +:+ s).
Proof.
  induction s as [|c s (IH0 & IH1 & IH2)]; [done|].
  rewrite toSSQL_cons.
  destruct (Ascii.eqb _ c) eqn:Hdot.
  { apply Ascii.eqb_eq in Hdot as <-. split; [|split].
    - intros H%plain_underscores_cons. rewrite fromSSQL_match, IH0 by done. reflexivity.
    - intros H. exfalso. revert H. unfold plain_underscores. by vm_compute.
    - intros H. exfalso. revert H. unfold plain_underscores. by vm_compute. }
  destruct (Ascii.eqb (Ascii.ascii_of_nat 95) c) eqn:Hund.
  { apply Ascii.eqb_eq in Hund as <-. split; [|split].
    - exact IH1.
    - exact IH2.
    - unfold plain_underscores. intros [_ H]%andb_true_iff. by vm_compute in H. }
  let u := eval cbv in (Ascii.ascii_of_nat 95) in
    change (Ascii.ascii_of_nat 95) with u in Hund;
    assert (Hc : forall p x, starts_with (String u p) (String c x) = false).
  { intros p x. by rewrite starts_with_cons, Hund. }
  assert (H0 : plain_underscores (String c s) = true ->
               fromSSQL (String c (toSSQL s)) = String c s).
  { intros H%plain_underscores_cons. rewrite fromSSQL_other by apply Hc. by rewrite IH0. }
  split; [exact H0|]. split.
  - intros H%plain_underscores_cons. rewrite !string_app_cons, !string_app_nil_l.
    rewrite fromSSQL_other by (by rewrite starts_with_cons, Hc, andb_false_r).
    by rewrite H0.
  - intros H%plain_underscores_cons%plain_underscores_cons.
    rewrite !string_app_cons, !string_app_nil_l.
    rewrite fromSSQL_other
      by (by rewrite 2!starts_with_cons, Hc, !andb_false_r).
    rewrite fromSSQL_other by (by rewrite starts_with_cons, Hc, andb_false_r).
    by rewrite H0.
Qed.

(** X2: [fromSSQL] reads back what [toSSQL] wrote exactly for the texts in
    which no underscore stands before a dot and no three underscores follow
    each other; for every other text the round trip gives a different
    text. *)
Theorem fromSSQL_toSSQL s :
  fromSSQL (toSSQL s) = s <-> plain_underscores s = true.
Proof.
  split; [|apply fromSSQL_toSSQL_pending].
  intros H. unfold plain_underscores. rewrite <- H.
  rewrite fromSSQL_no_underscores, fromSSQL_no_underscore_dot by apply toSSQL_no_dot.
  reflexivity.
Qed.

(** ** Quoting field names *)

Lemma needs_quotes_quoted f :
  needs_quotes ("`" +:+ f +:+ "`") = contains_dot f.
Proof.
  unfold needs_quotes. rewrite string_app_cons, string_app_nil_l.
  rewrite contains_dot_cons, contains_dot_app.
  change (contains_dot "`") with false. by rewrite orb_false_r.
Qed.

(** X4: quoting a field name a second time changes nothing exactly when the
    name has no dot: a name that starts with a digit is quoted once and then
    left alone, a name with a dot gets a further pair of quotes at every
    call. *)
Theorem quote_field_name_twice f :
  quote_field_name (quote_field_name f) = quote_field_name f <-> contains_dot f = false.
Proof.
  unfold quote_field_name at 2 3.
  destruct (needs_quotes f) eqn:Hq.
  - unfold quote_field_name. rewrite needs_quotes_quoted.
    destruct (contains_dot f); split; try done.
    intros H. apply (f_equal String.length) in H.
    rewrite !string_length_app in H. simpl in H. lia.
  - unfold quote_field_name. rewrite Hq. split; [|done]. intros _.
    unfold needs_quotes in Hq. by apply orb_false_iff in Hq as [_ ?].
Qed.

(** ** Lookups in a schema *)

Lemma elem_of_od_set {V} k (v : V) k' v' d :
  (k, v) ∈ od_set k' v' d -> (k, v) = (k', v') \/ (k, v) ∈ d.
Proof.
  induction d as [|[k1 v1] d IH]; simpl.
  - rewrite list_elem_of_singleton. by left.
  - destruct (decide (k1 = k')) as [->|Hne]; rewrite !elem_of_cons.
    + naive_solver.
    + intros [?|?%IH]; naive_solver.
Qed.

Lemma elem_of_od_update {V} k (v : V) d e :
  (k, v) ∈ od_update d e -> (k, v) ∈ d \/ (k, v) ∈ e.
Proof.
  unfold od_update. revert d. induction e as [|[k1 v1] e IH]; intros d; simpl.
  - by left.
  - intros [[[= -> ->]|H]%elem_of_od_set|H]%IH.
    + right. by left.
    + by left.
    + right. by right.
Qed.

Lemma fields_at_cons f fs :
  fields_at (TStruct (f :: fs)) =
  (([name f], f) :: map (fun pf => (name f :: pf.1, pf.2)) (fields_at (typ f))) ++
  fields_at (TStruct fs).
Proof. reflexivity. Qed.

Section flatten_sound.
Variable leaf_only : bool.

Let rec_call := fun t path => flatten_fields t path leaf_only true.

Lemma flatten_loop_sound fs :
  Forall (fun f => forall root k g,
    (k, g) ∈ flatten_fields (typ f) root leaf_only true ->
    exists p, (p, g) ∈ fields_at (typ f) /\ k = join_path root p) fs ->
  forall root r result k g,
    (k, g) ∈ flatten_loop rec_call fs root leaf_only r result ->
    (k, g) ∈ result \/
    exists p, (p, g) ∈ fields_at (TStruct fs) /\ k = join_path root p.
Proof.
  induction 1 as [|f fs Hf Hfs IH]; intros root r result k g Hin.
  - by left.
  - rewrite fields_at_cons.
    assert (Hhere : forall res,
      (k, g) ∈ flatten_loop rec_call fs root leaf_only r
                 (od_set (extend_path root (name f)) f res) ->
      (k, g) ∈ res \/
      exists p, (p, g) ∈ (([name f], f) ::
                   map (fun pf => (name f :: pf.1, pf.2)) (fields_at (typ f))) ++
                   fields_at (TStruct fs) /\ k = join_path root p).
    { intros res [[[=-> ->]|?]%elem_of_od_set|(p & Hp & ->)]%IH.
      - right. exists [name f]. split; [|done]. apply elem_of_app. left. by left.
      - by left.
      - right. exists p. split; [|done]. apply elem_of_app. by right. }
    cbn [flatten_loop] in Hin. fold (extend_path root (name f)) in Hin.
    destruct (typ f) as [| | | | | | | |gs] eqn:Htyp; try (by apply Hhere).
    destruct r; [|by apply Hhere].
    apply IH in Hin as [Hin|(p & Hp & ->)].
    + apply elem_of_od_update in Hin as [Hin|Hin].
      * destruct leaf_only; [by left|].
        apply elem_of_od_set in Hin as [[=-> ->]|?]; [|by left].
        right. exists [name f]. split; [|done]. apply elem_of_app. left. by left.
      * unfold rec_call in Hin.
        apply Hf in Hin as (p & Hp & ->).
        right. exists (name f :: p). split; [|done].
        apply elem_of_app. left. right. apply list_elem_of_fmap. by exists (p, g).
    + right. exists p. split; [|done]. apply elem_of_app. by right.
Qed.
End flatten_sound.

Lemma flatten_fields_sound t leaf_only root r k g :
  (k, g) ∈ flatten_fields t root leaf_only r ->
  exists p, (p, g) ∈ fields_at t /\ k = join_path root p.
Proof.
  revert root r k g. induction t as [| | | | | | | |fs IH] using Ty_nested_ind;
    intros root r k g Hin; try (by apply elem_of_nil in Hin).
  cbn [flatten_fields] in Hin.
  apply flatten_loop_sound in Hin as [Hin|Hin]; [by apply elem_of_nil in Hin|done|].
  eapply Forall_impl; [exact IH|]. intros f Hf root' k' g'. apply Hf.
Qed.

(** X6: a lookup never invents a field. The field that [get_ann_field]
    returns, and whose type [get_ann_type] returns, stands in the schema, at
    the top or in a nested struct, and the annotation asked for is the key of
    its path: the names on the way to it joined to the root, each step with a
    dot unless what precedes is empty. The state is left as it was. *)
Theorem get_ann_field_in_schema annotation schema root st f st' :
  get_ann_field annotation schema root st = Done f st' ->
  st' = st /\
  get_ann_type annotation schema root st = Done (typ f) st /\
  exists p, (p, f) ∈ fields_at schema /\ annotation = join_path root p.
Proof.
  unfold get_ann_type, get_ann_field, bind.
  destruct schema as [| | | | | | | |fs]; try done.
  cbn [flatten_struct ret].
  destruct (od_get annotation _) as [g|] eqn:Hget; [|done].
  intros [= -> ->]. split; [done|]. split; [done|].
  apply od_get_Some_elem in Hget. by apply flatten_fields_sound in Hget.
Qed.

Lemma get_ann_field_in_schema_witness :
  exists p,
    (p, MkField "AN" TInt 2) ∈ fields_at sample_schema /\
    "va.info.AN" = join_path "va" p.
Proof.
  destruct (get_ann_field_in_schema "va.info.AN" sample_schema "va" empty_state
              (MkField "AN" TInt 2) empty_state) as (_ & _ & Hp).
  - reflexivity.
  - exact Hp.
Defined.

(** Where the entries of the flattening loop come from. *)
Lemma flatten_loop_elem rec fs root leaf_only r result k g :
  (k, g) ∈ flatten_loop rec fs root leaf_only r result ->
  (k, g) ∈ result \/
  exists f, f ∈ fs /\
    ((k, g) = (extend_path root (name f), f) /\
     (class_of (typ f) = CStruct -> r = true -> leaf_only = false) \/
     class_of (typ f) = CStruct /\ r = true /\
     (k, g) ∈ rec (typ f) (extend_path root (name f))).
Proof.
  revert result. induction fs as [|f fs IH]; intros result Hin.
  - by left.
  - assert (Hlater : forall res,
      (k, g) ∈ flatten_loop rec fs root leaf_only r res ->
      (k, g) ∈ res \/
      exists f0, f0 ∈ f :: fs /\
        ((k, g) = (extend_path root (name f0), f0) /\
         (class_of (typ f0) = CStruct -> r = true -> leaf_only = false) \/
         class_of (typ f0) = CStruct /\ r = true /\
         (k, g) ∈ rec (typ f0) (extend_path root (name f0)))).
    { intros res [?|(f0 & Hf0 & H0)]%IH; [by left|].
      right. exists f0. split; [by right|done]. }
    assert (Hset : forall res, (class_of (typ f) = CStruct -> r = true -> leaf_only = false) ->
      (k, g) ∈ od_set (extend_path root (name f)) f res ->
      (k, g) ∈ res \/
      exists f0, f0 ∈ f :: fs /\
        ((k, g) = (extend_path root (name f0), f0) /\
         (class_of (typ f0) = CStruct -> r = true -> leaf_only = false) \/
         class_of (typ f0) = CStruct /\ r = true /\
         (k, g) ∈ rec (typ f0) (extend_path root (name f0)))).
    { intros res Hcond [Heq|?]%elem_of_od_set; [|by left].
      right. exists f. split; [by left|]. by left. }
    cbn [flatten_loop] in Hin. fold (extend_path root (name f)) in Hin.
    destruct (typ f) as [| | | | | | | |gs] eqn:Htyp;
      try (apply Hlater in Hin as [Hin|?]; [|by right]; apply Hset; [done|done]).
    destruct r.
    + apply Hlater in Hin as [Hin|?]; [|by right].
      apply elem_of_od_update in Hin as [Hin|Hin].
      * destruct leaf_only; [by left|]. by apply Hset.
      * right. exists f. split; [by left|]. right. by rewrite Htyp.
    + apply Hlater in Hin as [Hin|?]; [|by right]. apply Hset; [done|done].
Qed.

Lemma flatten_fields_leaves t root k g :
  (k, g) ∈ flatten_fields t root true true -> class_of (typ g) <> CStruct.
Proof.
  revert root k g. induction t as [| | | | | | | |fs IH] using Ty_nested_ind;
    intros root k g Hin; try (by apply elem_of_nil in Hin).
  cbn [flatten_fields] in Hin.
  apply flatten_loop_elem in Hin as [Hin|(f & Hf & [[[= _ ->] Hc]|(_ & _ & Hin)])].
  - by apply elem_of_nil in Hin.
  - intros Hs. by specialize (Hc Hs eq_refl).
  - rewrite Forall_forall in IH. by eapply IH.
Qed.

(** X7: with [leaf_only] (and the recursion on) no entry of the flattened
    schema is a struct: a nested struct stands in the result only through
    the fields below it, so that fields whose structs have no field leave
    no trace at all. *)
Theorem flatten_struct_leaf_only t root st d st' :
  flatten_struct t root true true st = Done d st' ->
  (forall k g, (k, g) ∈ d -> class_of (typ g) <> CStruct) /\
  (Forall (fun g => typ g = TStruct []) (struct_fields t) -> d = []).
Proof.
  destruct t as [| | | | | | | |fs]; try done.
  cbn [flatten_struct ret]. intros [= <- <-]. split.
  - intros k g. apply (flatten_fields_leaves (TStruct fs)).
  - cbn [struct_fields flatten_fields].
    enough (H : forall res, Forall (fun g => typ g = TStruct []) fs ->
              flatten_loop (fun t path => flatten_fields t path true true)
                fs root true true res = res) by apply H.
    intros res. induction 1 as [|g fs' Hg Hfs IH]; [done|].
    cbn [flatten_loop]. rewrite Hg. exact IH.
Qed.

Lemma flatten_struct_leaf_only_witness :
  Forall (fun kv : string * Field => class_of (typ kv.2) <> CStruct)
    [("rsid", MkField "rsid" TString 0);
     ("info.AC", MkField "AC" (TArray TInt) 1);
     ("info.AN", MkField "AN" TInt 2)].
Proof.
  apply Forall_forall. intros [k g] Hkg.
  exact (proj1 (flatten_struct_leaf_only sample_schema "" empty_state _ empty_state
                  eq_refl) k g Hkg).
Defined.

(** ** Flattening without recursion *)

Lemma string_app_inv_head (a x y : string) : a +:+ x = a +:+ y -> x = y.
Proof.
  induction a as [|c a IH]; [done|].
  rewrite !string_app_cons. intros [= H]. by apply IH.
Qed.

Lemma extend_path_inj root a b : extend_path root a = extend_path root b -> a = b.
Proof.
  unfold extend_path, dotted. destruct (is_empty_string root); [done|].
  intros H%string_app_inv_head. by apply (string_app_inv_head ".") in H.
Qed.

Lemma flatten_loop_direct rec fs root leaf_only result :
  flatten_loop rec fs root leaf_only false result =
  foldl (fun acc f => od_set (extend_path root (name f)) f acc) result fs.
Proof.
  revert result. induction fs as [|f fs IH]; intros result; [done|].
  cbn [flatten_loop foldl]. fold (extend_path root (name f)).
  destruct (typ f); apply IH.
Qed.

Lemma od_set_new {V} k (v : V) d : k ∉ od_keys d -> od_set k v d = d ++ [(k, v)].
Proof.
  unfold od_keys. induction d as [|[k' v'] d IH]; csimpl; [done|].
  rewrite not_elem_of_cons. intros [Hne Hd].
  rewrite decide_False by done. by rewrite IH.
Qed.

Lemma foldl_od_set_new root (fs : list Field) acc :
  NoDup (map name fs) ->
  (forall f, f ∈ fs -> extend_path root (name f) ∉ od_keys acc) ->
  foldl (fun acc f => od_set (extend_path root (name f)) f acc) acc fs =
  acc ++ map (fun f => (extend_path root (name f), f)) fs.
Proof.
  revert acc. induction fs as [|f fs IH]; intros acc Hnd Hnew.
  - by rewrite app_nil_r.
  - cbn [foldl map]. apply NoDup_cons in Hnd as [Hf Hnd].
    rewrite od_set_new by (apply Hnew; by left).
    rewrite IH; [by rewrite <- app_assoc|done|].
    intros g Hg. rewrite od_keys_app, elem_of_app. intros [Hin|Hin].
    + apply (Hnew g); [by right|done].
    + apply list_elem_of_singleton in Hin. apply extend_path_inj in Hin.
      apply Hf. rewrite <- Hin. apply list_elem_of_fmap. by exists g.
Qed.

Lemma foldl_od_set_get root (fs : list Field) acc n :
  od_get (extend_path root n)
    (foldl (fun acc f => od_set (extend_path root (name f)) f acc) acc fs) =
  match last (filter (fun f => name f = n) fs) with
  | Some f => Some f
  | None => od_get (extend_path root n) acc
  end.
Proof.
  revert acc. induction fs as [|f fs IH]; intros acc; [done|].
  cbn [foldl]. rewrite IH, od_get_set.
  rewrite filter_cons. destruct (decide (name f = n)) as [<-|Hne].
  - rewrite decide_True by done.
    destruct (filter _ fs) as [|g l] eqn:Hl; [done|].
    rewrite (last_cons f). by destruct (last (g :: l)).
  - rewrite decide_False; [done|]. intros H%extend_path_inj. by apply Hne.
Qed.

(** X8: without recursion the flattening files every field of the struct,
    nested structs included, under its own name below the root, whatever
    [leaf_only] is: when the names differ the entries are the fields in
    their order, and when a name comes twice its last field is the one that
    a lookup finds. *)
Theorem flatten_struct_not_recursive fs root leaf_only st :
  exists d,
    flatten_struct (TStruct fs) root leaf_only false st = Done d st /\
    flatten_struct (TStruct fs) root (negb leaf_only) false st = Done d st /\
    (forall n, od_get (extend_path root n) d = last (filter (fun f => name f = n) fs)) /\
    (NoDup (map name fs) -> d = map (fun f => (extend_path root (name f), f)) fs).
Proof.
  eexists. split; [reflexivity|].
  cbn [flatten_struct flatten_fields]. rewrite !flatten_loop_direct.
  split; [reflexivity|]. split.
  - intros n. rewrite foldl_od_set_get. by destruct (last _).
  - intros Hnd. rewrite foldl_od_set_new; [done|done|].
    intros f _. apply not_elem_of_nil.
Qed.

(** ** Keys of the full and of the leaf-only flattening *)

Lemma elem_of_od_keys_set {V} k k' (v : V) d :
  k ∈ od_keys (od_set k' v d) <-> k = k' \/ k ∈ od_keys d.
Proof.
  rewrite od_keys_set, elem_of_app, elem_of_fresh, list_elem_of_singleton.
  destruct (decide (k ∈ od_keys d)); naive_solver.
Qed.

Lemma elem_of_od_keys_update {V} k (d e : odict V) :
  k ∈ od_keys (od_update d e) <-> k ∈ od_keys d \/ k ∈ od_keys e.
Proof.
  rewrite od_keys_update, elem_of_app, elem_of_fresh.
  destruct (decide (k ∈ od_keys d)); naive_solver.
Qed.

Lemma elem_of_od_keys {V} k (d : odict V) : k ∈ od_keys d <-> exists v, (k, v) ∈ d.
Proof.
  unfold od_keys. rewrite list_elem_of_fmap. split.
  - intros ([k' v] & -> & H). by exists v.
  - intros (v & H). by exists (k, v).
Qed.

Lemma flatten_loop_has_key rec fs root leaf_only r result k :
  (k ∈ od_keys result \/
   exists f, f ∈ fs /\
     (k = extend_path root (name f) /\
      (class_of (typ f) = CStruct -> r = true -> leaf_only = false) \/
      class_of (typ f) = CStruct /\ r = true /\
      k ∈ od_keys (rec (typ f) (extend_path root (name f))))) ->
  k ∈ od_keys (flatten_loop rec fs root leaf_only r result).
Proof.
  revert result. induction fs as [|f fs IH]; intros result.
  - intros [?|(f & []%elem_of_nil & _)]. done.
  - intros H. cbn [flatten_loop]. fold (extend_path root (name f)).
    assert (Hcases :
      k ∈ od_keys result \/
      (k = extend_path root (name f) /\
       (class_of (typ f) = CStruct -> r = true -> leaf_only = false) \/
       class_of (typ f) = CStruct /\ r = true /\
       k ∈ od_keys (rec (typ f) (extend_path root (name f)))) \/
      exists f0, f0 ∈ fs /\
        (k = extend_path root (name f0) /\
         (class_of (typ f0) = CStruct -> r = true -> leaf_only = false) \/
         class_of (typ f0) = CStruct /\ r = true /\
         k ∈ od_keys (rec (typ f0) (extend_path root (name f0))))).
    { destruct H as [?|(f0 & [->|Hf0]%elem_of_cons & H0)]; [by left|by right; left|].
      right. right. by exists f0. }
    clear H.
    destruct (typ f) as [| | | | | | | |gs] eqn:Htyp;
      try (apply IH; destruct Hcases as [?|[[[-> _]|(? & _)]|?]];
           [left; apply elem_of_od_keys_set; by right
           |left; apply elem_of_od_keys_set; by left
           |done
           |by right]).
    destruct r.
    + apply IH. destruct Hcases as [?|[[[-> Hlo]|(_ & _ & Hin)]|?]]; [| | |by right].
      * left. apply elem_of_od_keys_update. left.
        destruct leaf_only; [done|]. apply elem_of_od_keys_set. by right.
      * left. apply elem_of_od_keys_update. left.
        rewrite (Hlo eq_refl eq_refl). apply elem_of_od_keys_set. by left.
      * left. apply elem_of_od_keys_update. by right.
    + apply IH. destruct Hcases as [?|[[[-> _]|(_ & ? & _)]|?]].
      * left. apply elem_of_od_keys_set. by right.
      * left. apply elem_of_od_keys_set. by left.
      * done.
      * by right.
Qed.

Lemma flatten_fields_leaf_keys t root r k :
  k ∈ od_keys (flatten_fields t root true r) ->
  k ∈ od_keys (flatten_fields t root false r).
Proof.
  revert root r k. induction t as [| | | | | | | |fs IH] using Ty_nested_ind;
    intros root r k Hin; try done.
  cbn [flatten_fields] in *.
  apply elem_of_od_keys in Hin as [g Hin].
  apply flatten_loop_elem in Hin as [Hin|(f & Hf & Hin)];
    [by apply elem_of_nil in Hin|].
  apply flatten_loop_has_key. right. exists f. split; [done|].
  destruct Hin as [[[= -> _] _]|(Hc & Hr & Hin)].
  - left. by split.
  - right. split; [done|]. split; [done|].
    rewrite Forall_forall in IH. apply IH; [done|].
    apply elem_of_od_keys. by exists g.
Qed.

(** X9: every key of the flattened schema (leaves only, as [flatten_struct]
    gives by default) is an annotation that exists: [ann_exists] answers
    [True] for it and [get_ann_field] returns a field without logging. *)
Theorem flattened_keys_exist schema root st d st' k :
  flatten_struct schema root true true st = Done d st' ->
  k ∈ od_keys d ->
  ann_exists k schema root st = Done true st /\
  exists f, get_ann_field k schema root st = Done f st.
Proof.
  destruct schema as [| | | | | | | |fs]; try done.
  cbn [flatten_struct ret]. intros [= <- <-] Hk.
  apply (flatten_fields_leaf_keys (TStruct fs)) in Hk.
  unfold ann_exists, get_ann_field, bind. cbn [flatten_struct ret].
  split.
  - f_equal. by apply od_mem_spec.
  - destruct (od_get k _) as [f|] eqn:Hget; [by exists f|].
    by apply od_get_None in Hget.
Qed.

Lemma flattened_keys_exist_witness :
  ann_exists "va.info.AC" sample_schema "va" empty_state = Done true empty_state /\
  exists f, get_ann_field "va.info.AC" sample_schema "va" empty_state = Done f empty_state.
Proof.
  eapply (flattened_keys_exist sample_schema "va" empty_state).
  - reflexivity.
  - by vm_compute; repeat constructor.
Defined.


(** ** Buckets of the attribute grouper *)

Lemma group_field_bucket rec key recursive default_func root annotations field st :
  recursive && bool_decide (class_of (typ field) = CStruct) = false ->
  group_field rec key recursive default_func root annotations field st =
  Done (match bucket_of st key default_func field with
        | Some k => group_append k (dotted root (name field), field) annotations
        | None => annotations
        end) st.
Proof.
  intros Hrec. unfold group_field, bucket_of.
  destruct (bool_decide (class_of (typ field) = CArray)).
  - unfold bind, get_attrs. by destruct (attrs_at st (attributes field) !! key).
  - rewrite Hrec. by destruct default_func.
Qed.

Lemma group_loop_bucket rec key recursive default_func root fs annotations st :
  Forall (fun f => recursive && bool_decide (class_of (typ f) = CStruct) = false) fs ->
  fold_each fs (group_field rec key recursive default_func root) annotations st =
  Done (foldl (fun acc f =>
                 match bucket_of st key default_func f with
                 | Some k => group_append k (dotted root (name f), f) acc
                 | None => acc
                 end) annotations fs) st.
Proof.
  intros H. revert annotations. induction H as [|f fs Hf Hfs IH]; intros annotations.
  - done.
  - cbn [fold_each foldl]. unfold bind. rewrite group_field_bucket by done. apply IH.
Qed.

Lemma group_foldl_lookup (st : state) (key : string)
    (default_func : option (Field -> option string)) (root : string)
    (fs : list Field) (annotations : groups) (k : option string) :
  (foldl (fun acc f =>
            match bucket_of st key default_func f with
            | Some k => group_append k (dotted root (name f), f) acc
            | None => acc
            end) annotations fs) !! k =
  match bucket_content st key default_func root fs k with
  | [] => annotations !! k
  | l => Some (default [] (annotations !! k) ++ l)
  end.
Proof.
  revert annotations. induction fs as [|f fs IH]; intros annotations; [done|].
  cbn [foldl]. rewrite IH. unfold bucket_content. cbn [omap list_omap].
  fold (bucket_content st key default_func root fs k).
  destruct (bucket_of st key default_func f) as [k'|] eqn:Hb.
  - destruct (decide (Some k' = Some k)) as [[= ->]|Hne].
    + unfold group_append, group_extend. rewrite lookup_insert_eq. cbn [default].
      destruct (bucket_content st key default_func root fs k); [done|].
      unfold id. by rewrite <- app_assoc.
    + unfold group_append, group_extend.
      rewrite lookup_insert_ne by congruence. done.
  - rewrite decide_False by done. done.
Qed.

(** X10: without recursion, and for a root that is a plain name, the
    grouping of a struct returns, never exits and leaves the state as it
    was; the bucket of a key holds exactly the fields whose attribute (for an
    array) or default (for another field) is that key, with their paths
    below the root and in the order of the struct; a key that no field has is
    no key of the result; and an array without the attribute is in no
    bucket. *)
Theorem group_annotations_buckets fs key root default_func st :
  contains_dot root = false ->
  exists annotations,
    group_annotations_by_attribute (TStruct fs) key root false default_func st =
      Done annotations st /\
    (forall k, default [] (annotations !! k) =
               bucket_content st key default_func root fs k) /\
    (forall k, annotations !! k = None <->
               bucket_content st key default_func root fs k = []) /\
    (forall f k l, class_of (typ f) = CArray ->
       attrs_at st (attributes f) !! key = None ->
       annotations !! k = Some l -> (dotted root (name f), f) ∈ l -> False).
Proof.
  intros Hroot. eexists. split; [|split; [|split]].
  - unfold group_annotations_by_attribute. cbn [group_annotations_fuel].
    rewrite Hroot. unfold bind at 1. cbn [ret].
    apply group_loop_bucket. apply Forall_forall. by intros f _.
  - intros k. rewrite group_foldl_lookup, lookup_empty.
    by destruct (bucket_content _ _ _ _ _ _).
  - intros k. rewrite group_foldl_lookup, lookup_empty.
    by destruct (bucket_content _ _ _ _ _ _).
  - intros f k l Hclass Hattr. rewrite group_foldl_lookup, lookup_empty.
    destruct (bucket_content _ _ _ _ _ _) as [|x l'] eqn:Hl; [done|].
    intros [= <-]. cbn [default app]. rewrite <- Hl. unfold bucket_content.
    rewrite list_elem_of_omap. intros (f' & _ & Hf').
    destruct (decide (bucket_of st key default_func f' = Some k)) as [Hb|]; [|done].
    injection Hf' as _ ->. unfold bucket_of in Hb.
    rewrite bool_decide_eq_true_2, Hattr in Hb by done. done.
Qed.

Lemma group_annotations_buckets_witness :
  exists annotations,
    group_annotations_by_attribute struct_mixed "Number" "va" false
      (Some default_values) empty_state = Done annotations empty_state /\
    default [] (annotations !! Some "0") = [("va.b", MkField "b" TBoolean 1)].
Proof.
  destruct (group_annotations_buckets (struct_fields struct_mixed) "Number" "va"
              (Some default_values) empty_state) as (a & Ha & Hk & _).
  - reflexivity.
  - exists a. split; [exact Ha|]. rewrite Hk. reflexivity.
Defined.

Lemma for_each_logger {A} (xs : list A) lv (msg : A -> string) st :
  for_each xs (fun x => logger lv (msg x)) st =
  Done tt (MkState (heap st) (log st ++ map (fun x => (lv, msg x)) xs)).
Proof.
  revert st. induction xs as [|x xs IH]; intros st.
  - cbn. rewrite app_nil_r. by destruct st.
  - cbn [for_each]. unfold bind, logger at 1. rewrite IH. cbn.
    by rewrite <- app_assoc.
Qed.

(** X13: [get_numbered_annotations], without recursion and for a root that
    is a plain name, returns for every struct; it changes no attribute and
    logs the heading and one line for each bucket; a field that is no array
    is filed under its default dimension when the defaults are on (["."] for a
    set, ["0"] for a boolean, ["1"] for a number or a text, [None] for a
    struct), and under [None] when they are off. *)
Theorem get_numbered_annotations_defaults fs root default_when_missing st :
  contains_dot root = false ->
  exists annotations st',
    get_numbered_annotations (TStruct fs) root false default_when_missing st =
      Done annotations st' /\
    heap st' = heap st /\
    (exists lines,
       log st' = log st ++ (INFO, "Found the following fields:") :: lines /\
       lines ≡ₚ map (fun kv => (INFO, bucket_summary kv)) (map_to_list annotations)) /\
    (forall f, f ∈ fs -> class_of (typ f) <> CArray ->
       exists l,
         annotations !! (if default_when_missing then default_values f else None) =
           Some l /\
         (dotted root (name f), f) ∈ l) /\
    (forall f, class_of (typ f) <> CArray ->
       default_values f =
       match class_of (typ f) with
       | CSet => Some "."
       | CBoolean => Some "0"
       | CStruct => None
       | _ => Some "1"
       end).
Proof.
  intros Hroot.
  destruct (group_annotations_buckets fs "Number" root
              (if default_when_missing then Some default_values else None) st Hroot)
    as (a & Ha & Hk & Hnone & _).
  exists a. eexists. split; [|split; [|split; [|split]]].
  - unfold get_numbered_annotations, bind. rewrite Ha.
    unfold logger at 1. rewrite for_each_logger. reflexivity.
  - reflexivity.
  - eexists. split; [|reflexivity]. cbn [log heap]. by rewrite <- app_assoc.
  - intros f Hf Hclass.
    set (k := if default_when_missing then default_values f else None).
    assert (Hin : (dotted root (name f), f) ∈
                  bucket_content st "Number"
                    (if default_when_missing then Some default_values else None)
                    root fs k).
    { unfold bucket_content. apply list_elem_of_omap. exists f. split; [done|].
      rewrite decide_True; [done|]. unfold bucket_of.
      rewrite bool_decide_eq_false_2 by done. unfold k.
      by destruct default_when_missing. }
    destruct (a !! k) as [l|] eqn:Hl.
    + exists l. split; [done|]. specialize (Hk k). rewrite Hl in Hk. cbn in Hk.
      by rewrite Hk.
    + apply Hnone in Hl. rewrite Hl in Hin. by apply elem_of_nil in Hin.
  - intros f Hclass. unfold default_values, annotation_type_in_vcf_info,
      annotation_type_is_numeric.
    destruct (class_of (typ f)); try done.
Qed.

Lemma get_numbered_annotations_defaults_witness :
  exists annotations st',
    get_numbered_annotations struct_mixed "va" false true empty_state =
      Done annotations st' /\
    exists l, annotations !! Some "." = Some l /\ ("va.s", MkField "s" (TSet TInt) 0) ∈ l.
Proof.
  destruct (get_numbered_annotations_defaults (struct_fields struct_mixed) "va" true
              empty_state) as (a & st' & Ha & _ & _ & Hf & _).
  - reflexivity.
  - exists a, st'. split; [exact Ha|].
    apply (Hf (MkField "s" (TSet TInt) 0)); [by left|done].
Defined.

(** ** Outcomes of the schema merger *)

(** X14: what [merge_TStructs] can do. It raises [ValueError] exactly for
    the empty list; a list of one element is returned as that element, struct
    or not, with one warning, and the list is emptied; a longer list with an
    element that is no struct raises [AttributeError] before anything is
    merged; a longer list of structs is either merged, the list being left as
    it was, or refused with [TypeError]. Nothing else happens, and the
    recursion on nested structs always ends. *)
Theorem merge_TStructs_outcomes s st :
  match merge_TStructs s st with
  | Done r st' =>
      (exists x, s = [x] /\ r = (x, []) /\
                 st' = MkState (heap st) (log st ++ [(WARNING, single_struct_warning)])) \/
      (2 <= length s /\ Forall is_struct s /\ is_struct r.1 /\ r.2 = s)
  | Raise ValueError st' => s = [] /\ st' = st
  | Raise AttributeError st' => 2 <= length s /\ ~ Forall is_struct s /\ st' = st
  | Raise TypeError st' => 2 <= length s /\ Forall is_struct s
  | Raise _ _ => False
  | Timeout => False
  end.
Proof.
  destruct s as [|x [|y s]].
  - done.
  - left. by exists x.
  - set (l := x :: y :: s).
    assert (Hlen : 2 <= length l) by (simpl; lia).
    destruct (decide (Forall is_struct l)) as [Hall|Hnot].
    + pose proof (merge_fuel_raises (S (max_depth l)) l st (Nat.lt_succ_diag_r _)
                    Hall ltac:(done)) as Hr.
      pose proof (merge_fuel_control (S (max_depth l)) l st Hlen) as Hc.
      unfold wp in Hr, Hc. fold (merge_TStructs l) in Hr, Hc.
      destruct (merge_TStructs l st) as [r st'|e st'|] eqn:Hm; [|by subst e|done].
      right. destruct Hc as (H2 & _ & _ & _). repeat split; try done.
      unfold merge_TStructs in Hm. rewrite merge_fuel_unfold in Hm by done.
      unfold bind in Hm.
      destruct (map_each _ l st) as [q st1|?|]; [|done..].
      destruct (merge_queue _ q [] st1) as [fields st2|?|]; [|done..].
      by injection Hm as <- _.
    + pose proof (map_each_flatten l st) as Hf. unfold wp in Hf.
      unfold merge_TStructs. rewrite merge_fuel_unfold by done. unfold bind.
      destruct (map_each _ l st) as [q st1|e st1|]; [|by destruct Hf as (-> & -> & _)|done].
      by destruct Hf as (_ & _ & ?).
Qed.

(** ** Replacing and unifying schemas *)

Lemma direct_path_is_key fs g leaf_only :
  g ∈ fs ->
  dotted "va" (name g) ∈ od_keys (flatten_fields (TStruct fs) "va" leaf_only false) /\
  dotted "va" (name g) ∈ od_keys (flatten_fields (TStruct fs) "va" false true).
Proof.
  intros Hg. split; cbn [flatten_fields]; apply flatten_loop_has_key; right;
    exists g; (split; [done|]); left; by split.
Qed.

Lemma replace_schema_expr_spec ofs nfs st :
  replace_schema_expr (TStruct ofs) (TStruct nfs) st =
  if forallb (fun f => bool_decide
                (od_get (dotted "va" (name f))
                        (flatten_fields (TStruct ofs) "va" false true) = None)) nfs
  then Done ("va = " +:+ "{" +:+ String.concat "," (map typed_null nfs) +:+ "}") st
  else Raise TypeError st.
Proof.
  unfold replace_schema_expr, bind. cbn [flatten_struct ret].
  rewrite get_schema_expr_spec. by destruct (forallb _ nfs).
Qed.

Lemma replace_shared_name_raises ofs nfs st f g :
  f ∈ nfs -> g ∈ ofs -> name f = name g ->
  replace_schema_expr (TStruct ofs) (TStruct nfs) st = Raise TypeError st.
Proof.
  intros Hf Hg Hname. rewrite replace_schema_expr_spec.
  destruct (forallb _ nfs) eqn:Hall; [|done].
  rewrite forallb_forall in Hall. apply list_elem_of_In, Hall in Hf.
  apply bool_decide_eq_true_1, od_get_None in Hf.
  destruct Hf. rewrite Hname. exact (proj2 (direct_path_is_key ofs g true Hg)).
Qed.

(** X15: [replace_vds_variant_schema] never gets to reuse a value of the
    old schema. For an old and a new struct the expression is computed
    exactly when no top-level field of the new schema has a path that exists
    in the old one (at the top or nested), and it then sets every field to a
    typed null; the call raises [TypeError] exactly when some top-level field
    of the new schema has such a path, in particular as soon as the two
    schemas share the name of a top-level field, before any warning is logged
    and whatever the types are. Nothing else can happen, and the state is
    left as it was. *)
Theorem replace_schema_never_reuses ofs nfs st :
  ((forall f, f ∈ nfs ->
      ann_exists (dotted "va" (name f)) (TStruct ofs) "va" st = Done false st) <->
   replace_schema_expr (TStruct ofs) (TStruct nfs) st =
     Done ("va = {" +:+ String.concat "," (map typed_null nfs) +:+ "}") st) /\
  ((exists f, f ∈ nfs /\
      ann_exists (dotted "va" (name f)) (TStruct ofs) "va" st = Done true st) <->
   replace_schema_expr (TStruct ofs) (TStruct nfs) st = Raise TypeError st) /\
  (replace_schema_expr (TStruct ofs) (TStruct nfs) st = Raise TypeError st \/
   replace_schema_expr (TStruct ofs) (TStruct nfs) st =
     Done ("va = {" +:+ String.concat "," (map typed_null nfs) +:+ "}") st) /\
  (forall f g, f ∈ nfs -> g ∈ ofs -> name f = name g ->
     replace_schema_expr (TStruct ofs) (TStruct nfs) st = Raise TypeError st).
Proof.
  assert (Hexists : forall f : Field,
    ann_exists (dotted "va" (name f)) (TStruct ofs) "va" st =
    Done (negb (bool_decide (od_get (dotted "va" (name f))
                               (flatten_fields (TStruct ofs) "va" false true) = None)))
         st).
  { intros f. unfold ann_exists, bind. cbn [flatten_struct ret]. f_equal.
    destruct (od_mem _ _) eqn:Hmem.
    - apply od_mem_spec in Hmem. rewrite bool_decide_eq_false_2; [done|].
      intros Hnone%od_get_None. by apply Hnone.
    - rewrite bool_decide_eq_true_2; [done|]. apply od_get_None.
      intros Hin%od_mem_spec. congruence. }
  rewrite replace_schema_expr_spec.
  destruct (forallb _ nfs) eqn:Hall.
  - rewrite forallb_forall in Hall.
    assert (Hnone : forall f, f ∈ nfs ->
              ann_exists (dotted "va" (name f)) (TStruct ofs) "va" st = Done false st).
    { intros f Hf%list_elem_of_In. rewrite Hexists. by rewrite (Hall f Hf). }
    split; [done|]. split; [|split; [by right|]].
    + split; [|done]. intros (f & Hf & Hex). rewrite (Hnone f Hf) in Hex. done.
    + intros f g Hf Hg Hname. specialize (Hnone f Hf). rewrite Hexists in Hnone.
      injection Hnone as Hnone. apply negb_false_iff, bool_decide_eq_true_1 in Hnone.
      apply od_get_None in Hnone. destruct Hnone. rewrite Hname.
      exact (proj2 (direct_path_is_key ofs g true Hg)).
  - assert (Hsome : exists f, f ∈ nfs /\
              ann_exists (dotted "va" (name f)) (TStruct ofs) "va" st = Done true st).
    { apply not_true_iff_false in Hall.
      destruct (decide (Exists (fun f =>
                  od_get (dotted "va" (name f))
                         (flatten_fields (TStruct ofs) "va" false true) <> None) nfs))
        as [Hex|Hnex].
      - apply Exists_exists in Hex as (f & Hf & Hget). exists f. split; [done|].
        rewrite Hexists. by rewrite bool_decide_eq_false_2.
      - destruct Hall. apply forallb_forall. intros f Hf%list_elem_of_In.
        apply bool_decide_eq_true_2.
        destruct (od_get _ _) eqn:Hget; [|done].
        destruct Hnex. apply Exists_exists. exists f. split; [done|]. by rewrite Hget. }
    split; [|split; [done|split; [by left|done]]].
    split; [|done]. intros Hnone. destruct Hsome as (f & Hf & Hex).
    rewrite (Hnone f Hf) in Hex. done.
Qed.

Lemma replace_schema_never_reuses_witness :
  replace_schema_expr (TStruct [MkField "a" (TStruct [MkField "b" TInt 0]) 1])
    (TStruct [MkField "a.b" TInt 2]) empty_state = Raise TypeError empty_state.
Proof.
  refine (proj1 (proj1 (proj2 (replace_schema_never_reuses
            [MkField "a" (TStruct [MkField "b" TInt 0]) 1]
            [MkField "a.b" TInt 2] empty_state))) _).
  exists (MkField "a.b" TInt 2). split; [by left|reflexivity].
Defined.

Lemma merge_done_struct s st T s' st' :
  2 <= length s ->
  merge_TStructs s st = Done (T, s') st' ->
  Forall is_struct s /\
  exists fs, T = TStruct fs /\
             map name fs = first_occurrences (concat (map field_names s)).
Proof.
  intros Hlen Hdone.
  pose proof (wp_done _ _ _ _ _ _ _ (merge_fuel_control _ s st Hlen) Hdone)
    as (_ & Hall & Hnames & _).
  split; [done|]. cbn [fst] in Hnames.
  unfold merge_TStructs in Hdone. rewrite merge_fuel_unfold in Hdone by done.
  unfold bind in Hdone.
  destruct (map_each _ s st) as [q st1|?|]; [|done..].
  destruct (merge_queue _ q [] st1) as [fields st2|?|]; [|done..].
  injection Hdone as <- _ _. by eexists.
Qed.

Lemma replace_done_disjoint old new st y st' :
  replace_schema_expr old new st = Done y st' ->
  exists ofs nfs, old = TStruct ofs /\ new = TStruct nfs /\ st' = st /\
    y = "va = {" +:+ String.concat "," (map typed_null nfs) +:+ "}" /\
    forall f g, f ∈ nfs -> g ∈ ofs -> name f <> name g.
Proof.
  intros Hdone.
  destruct old as [| | | | | | | |ofs]; try done.
  destruct new as [| | | | | | | |nfs]; try done.
  exists ofs, nfs. split; [done|]. split; [done|].
  assert (Hshared : forall f g, f ∈ nfs -> g ∈ ofs -> name f <> name g).
  { intros f g Hf Hg Hname.
    rewrite (replace_shared_name_raises ofs nfs st f g) in Hdone; done. }
  rewrite replace_schema_expr_spec in Hdone.
  destruct (forallb _ nfs); [|done]. by injection Hdone as <- <-.
Qed.

Lemma map_each_done {A B} (f : A -> M B) l st r st' :
  map_each f l st = Done r st' ->
  Forall2 (fun x y => exists st1 st2, f x st1 = Done y st2) l r.
Proof.
  revert st r. induction l as [|x l IH]; intros st r; cbn [map_each].
  - intros [= <- _]. constructor.
  - unfold bind at 1. destruct (f x st) as [y st1|?|] eqn:Hx; [|done..].
    unfold bind at 1. destruct (map_each f l st1) as [ys st2|?|] eqn:Hl; [|done..].
    intros [= <- <-]. constructor; [by exists st, st1|]. by eapply IH.
Qed.

Lemma map_each_pure {A B} (f : A -> M B) (g : A -> B) l st :
  (forall x st, x ∈ l -> f x st = Done (g x) st) ->
  map_each f l st = Done (map g l) st.
Proof.
  induction l as [|x l IH]; intros Hf; [done|].
  cbn [map_each map]. unfold bind at 1. rewrite Hf by (by left).
  unfold bind at 1. rewrite IH; [done|]. intros y st' Hy. apply Hf. by right.
Qed.

(** X16: [unify_vds_schemas] succeeds only on datasets without a single
    annotation. Whenever the call returns, every schema was the empty struct
    and every expression is [va = {}]; a schema with a field makes the call
    raise, for the merged schema holds the name of that field and the
    replacement then meets a path of the old schema. Datasets whose schemas
    are all empty are unified. *)
Theorem unify_vds_schemas_only_empty schemas st :
  (forall r st', unify_vds_schemas schemas st = Done r st' ->
     Forall (fun t => t = TStruct []) schemas /\
     r = map (fun _ => "va = {}") schemas) /\
  (schemas <> [] -> Forall (fun t => t = TStruct []) schemas ->
   exists st', unify_vds_schemas schemas st =
               Done (map (fun _ => "va = {}") schemas) st').
Proof.
  assert (Hconcat : forall s : list Ty,
            Forall (fun t => t = TStruct []) s -> concat (map field_names s) = []).
  { induction 1 as [|t s -> _ IH]; [done|]. exact IH. }
  split.
  - intros r st'. unfold unify_vds_schemas. unfold bind at 1.
    destruct (merge_TStructs schemas st) as [[T s2] st1|?|] eqn:Hm; [|done..].
    cbn [fst]. intros Hdone%map_each_done.
    assert (Hnames : exists nfs, T = TStruct nfs /\
              (forall t g, t ∈ schemas -> g ∈ struct_fields t ->
                 exists f, f ∈ nfs /\ name f = name g) /\
              (Forall (fun t => t = TStruct []) schemas -> nfs = [])).
    { destruct schemas as [|x [|y s]]; [done| |].
      - injection Hm as <- _ _.
        apply Forall2_cons_inv_l in Hdone as (y & r' & (st2 & st3 & Hx) & _ & _).
        apply replace_done_disjoint in Hx as (ofs & nfs & -> & _).
        exists ofs. split; [done|]. split.
        + intros t g ->%list_elem_of_singleton Hg. by exists g.
        + intros [[= ->] _]%Forall_cons. done.
      - apply merge_done_struct in Hm as (_ & nfs & -> & Hn); [|simpl; lia].
        exists nfs. split; [done|]. split.
        + intros t g Ht Hg.
          assert (Hin : name g ∈ map name nfs).
          { rewrite Hn. apply elem_of_fresh. split; [|apply not_elem_of_nil].
            apply list_elem_of_In, in_concat. exists (field_names t).
            split; [apply in_map, list_elem_of_In, Ht|].
            destruct t; try (by apply elem_of_nil in Hg).
            apply list_elem_of_In, list_elem_of_fmap. by exists g. }
          apply list_elem_of_fmap in Hin as (f & Hname & Hf). by exists f.
        + intros Hall. rewrite (Hconcat _ Hall) in Hn. by destruct nfs. }
    destruct Hnames as (nfs & -> & Hnames & Hnil).
    assert (Hempty : Forall (fun t => t = TStruct []) schemas).
    { apply Forall_forall. intros t Ht.
      destruct (list_elem_of_lookup_1 _ _ Ht) as [i Hi].
      destruct (Forall2_lookup_l _ _ _ _ _ Hdone Hi) as (y & _ & st2 & st3 & Hy).
      apply replace_done_disjoint in Hy as (ofs & nfs' & -> & [= <-] & _ & _ & Hdis).
      destruct ofs as [|g ofs]; [done|].
      destruct (Hnames (TStruct (g :: ofs)) g Ht) as (f & Hf & Hname); [by left|].
      destruct (Hdis f g Hf); [by left|done]. }
    split; [done|]. rewrite (Hnil Hempty) in Hdone. clear -Hdone.
    induction Hdone as [|x y l r (st2 & st3 & Hx) _ IH]; [done|].
    cbn [map]. f_equal; [|exact IH].
    by apply replace_done_disjoint in Hx as (ofs & nfs' & _ & [= <-] & _ & -> & _).
  - intros Hne Hall.
    assert (Hreplace : forall x st1, x ∈ schemas ->
              replace_schema_expr x (TStruct []) st1 = Done "va = {}" st1).
    { intros x st1 Hx. rewrite Forall_forall in Hall. by rewrite (Hall x Hx). }
    unfold unify_vds_schemas.
    destruct schemas as [|x [|y s]]; [done| |].
    + apply Forall_cons in Hall as [-> _]. by eexists.
    + set (l := x :: y :: s) in *.
      destruct (merge_flat_succeeds l st) as (T & st1 & Hm).
      * simpl. lia.
      * eapply Forall_impl; [exact Hall|]. by intros t ->.
      * eapply Forall_impl; [exact Hall|]. intros t ->. by constructor.
      * intros i j ti tj fi fj _ Hi _ Hfi.
        apply list_elem_of_lookup_2 in Hi. rewrite Forall_forall in Hall.
        rewrite (Hall ti Hi) in Hfi. by apply elem_of_nil in Hfi.
      * pose proof Hm as (_ & nfs & -> & Hn)%merge_done_struct; [|simpl; lia].
        rewrite (Hconcat _ Hall) in Hn. destruct nfs; [|done].
        exists st1. unfold bind at 1. rewrite Hm. cbn [fst].
        by apply map_each_pure.
Qed.

Lemma unify_vds_schemas_only_empty_witness :
  exists st', unify_vds_schemas [TStruct []; TStruct []] empty_state =
              Done ["va = {}"; "va = {}"] st'.
Proof.
  refine (proj2 (unify_vds_schemas_only_empty [TStruct []; TStruct []] empty_state) _ _).
  - discriminate.
  - by repeat constructor.
Defined.

(** ** Grouping below a root *)

Lemma fields_at_nonempty t p f : (p, f) ∈ fields_at t -> p <> [].
Proof.
  destruct t as [| | | | | | | |fs]; try (by intros ?%elem_of_nil).
  cbn [fields_at]. intros (l & (g & <- & _)%in_map_iff & Hp)%list_elem_of_In%in_concat.
  apply list_elem_of_In, elem_of_cons in Hp as [[= -> _]|Hp]; [done|].
  by apply list_elem_of_fmap in Hp as ([q h] & [= -> _] & _).
Qed.

Lemma join_path_va p : p <> [] -> exists x, join_path "va" p = "va." +:+ x.
Proof.
  destruct p as [|n p]; [done|]. intros _. unfold join_path. cbn [foldl].
  change (extend_path "va" n) with ("va." +:+ n).
  generalize n. clear n. induction p as [|m p IH]; intros n; [by exists n|].
  cbn [foldl]. change (extend_path ("va." +:+ n) m) with (("va." +:+ n) +:+ "." +:+ m).
  rewrite string_app_assoc. apply IH.
Qed.

Lemma dotted_below_va root n x :
  contains_dot root = false -> dotted root n = "va." +:+ x -> root = "va".
Proof.
  unfold dotted. intros Hdot H.
  destruct root as [|c1 [|c2 [|c3 root]]]; try discriminate H.
  - by injection H as -> ->.
  - exfalso. injection H as _ _ -> _.
    rewrite !contains_dot_cons in Hdot.
    apply orb_false_iff in Hdot as [_ [_ [Hd _]%orb_false_iff]%orb_false_iff].
    by vm_compute in Hd.
Qed.

Lemma flattened_key_va schema leaf_only r k :
  k ∈ od_keys (flatten_fields schema "va" leaf_only r) -> exists x, k = "va." +:+ x.
Proof.
  intros [g (p & Hp & ->)%flatten_fields_sound]%elem_of_od_keys.
  apply join_path_va. by eapply fields_at_nonempty.
Qed.

Lemma group_missing_root n schema key root recursive default_func st :
  contains_dot root = true ->
  root ∉ od_keys (flatten_fields schema "va" false true) ->
  is_struct schema ->
  group_annotations_fuel (S n) schema key root recursive default_func st =
  Raise SystemExit
    (MkState (heap st) (log st ++ [(ERROR, root +:+ " missing from schema.")])).
Proof.
  intros Hdot Hkey Hs. cbn [group_annotations_fuel]. rewrite Hdot.
  destruct schema; try discriminate Hs.
  apply od_get_None in Hkey.
  unfold bind, get_ann_type, get_ann_field, bind. cbn [flatten_struct ret].
  by rewrite Hkey.
Qed.

(** X12: the recursion of [group_annotations_by_attribute] looks every
    nested struct up from the root [va], whatever root the call was given.
    With [recursive] on and a root that is a plain name other than [va], the
    call therefore exits at the first struct (not array) field of the schema,
    with the error that the path of this field is missing, and returns no
    grouping. *)
Theorem group_recursive_other_root fs key root default_func st before f after :
  fs = before ++ f :: after ->
  Forall (fun g => class_of (typ g) <> CStruct) before ->
  class_of (typ f) = CStruct ->
  contains_dot root = false -> root <> "va" ->
  group_annotations_by_attribute (TStruct fs) key root true default_func st =
  Raise SystemExit
    (MkState (heap st)
       (log st ++ [(ERROR, dotted root (name f) +:+ " missing from schema.")])).
Proof.
  intros -> Hbefore Hf Hdot Hroot.
  unfold group_annotations_by_attribute. cbn [group_annotations_fuel].
  rewrite Hdot. unfold bind at 1. cbn [ret].
  rewrite fold_each_app. unfold bind at 1.
  rewrite group_loop_bucket.
  2:{ eapply Forall_impl; [exact Hbefore|]. intros g Hg. cbn beta.
      by rewrite bool_decide_eq_false_2. }
  cbn [fold_each]. unfold bind at 1.
  unfold group_field at 1.
  rewrite bool_decide_eq_false_2 by (by rewrite Hf).
  rewrite bool_decide_eq_true_2 by done. cbn [andb]. unfold bind at 1.
  assert (Hkeys : exists m, length (flatten_fields (TStruct (before ++ f :: after))
                                      "va" false true) = S m).
  { assert (Hin : dotted "va" (name f) ∈
                  od_keys (flatten_fields (TStruct (before ++ f :: after)) "va" false true)).
    { apply direct_path_is_key with (leaf_only := true). apply elem_of_app. right. by left. }
    apply elem_of_od_keys in Hin as [g Hin].
    destruct (flatten_fields _ _ _ _) as [|x l]; [by apply elem_of_nil in Hin|].
    by exists (length l). }
  destruct Hkeys as [m ->].
  rewrite group_missing_root; [done| | |done].
  - unfold dotted. rewrite contains_dot_app, contains_dot_app. cbn. by rewrite orb_true_r.
  - intros [x Hx]%flattened_key_va. by apply dotted_below_va in Hx.
Qed.

Lemma group_recursive_other_root_witness :
  group_annotations_by_attribute sample_schema "Number" "vb" true None empty_state =
  Raise SystemExit (MkState ∅ [(ERROR, "vb.info missing from schema.")]).
Proof.
  apply (group_recursive_other_root (struct_fields sample_schema) "Number" "vb" None
           empty_state [MkField "rsid" TString 0]
           (MkField "info" (TStruct [MkField "AC" (TArray TInt) 1;
                                     MkField "AN" TInt 2]) 3) []).
  - reflexivity.
  - by repeat constructor.
  - reflexivity.
  - reflexivity.
  - discriminate.
Defined.

(** X11: for a root that is a dotted path the grouping first looks the
    root up in the schema flattened from [va]: when the lookup exits or
    raises, so does the grouping, in the same state; when it finds a field
    that is no struct the grouping raises [AttributeError]; and when it finds
    a struct the result is, without recursion, the grouping of the fields of
    that struct, their paths being formed below the root as it was given. *)
Theorem group_annotations_dotted_root schema key root default_func st :
  contains_dot root = true ->
  match get_ann_type root schema "va" st with
  | Done (TStruct gs) _ =>
      exists annotations,
        group_annotations_by_attribute schema key root false default_func st =
          Done annotations st /\
        forall k, default [] (annotations !! k) =
                  bucket_content st key default_func root gs k
  | Done _ _ =>
      group_annotations_by_attribute schema key root false default_func st =
        Raise AttributeError st
  | Raise e st' =>
      group_annotations_by_attribute schema key root false default_func st =
        Raise e st'
  | Timeout => False
  end.
Proof.
  intros Hdot. unfold group_annotations_by_attribute. cbn [group_annotations_fuel].
  rewrite Hdot. unfold bind.
  assert (Hst : forall t st', get_ann_type root schema "va" st = Done t st' -> st' = st).
  { unfold get_ann_type, get_ann_field, bind. destruct schema; try done.
    cbn [flatten_struct ret]. destruct (od_get root _); [|done]. by intros t st' [= _ <-]. }
  destruct (get_ann_type root schema "va" st) as [t st'|e st'|] eqn:Hget.
  - rewrite (Hst t st' eq_refl).
    destruct t as [| | | | | | | |gs]; try done.
    eexists. split.
    + apply group_loop_bucket. apply Forall_forall. by intros f _.
    + intros k. rewrite group_foldl_lookup, lookup_empty.
      by destruct (bucket_content _ _ _ _ _ _).
  - done.
  - unfold get_ann_type, get_ann_field, bind in Hget. destruct schema; try done.
    cbn [flatten_struct ret] in Hget. by destruct (od_get root _).
Qed.

Lemma group_annotations_dotted_root_witness :
  exists annotations,
    group_annotations_by_attribute sample_schema "Number" "va.info" false None
      empty_state = Done annotations empty_state /\
    default [] (annotations !! None) = [("va.info.AN", MkField "AN" TInt 2)].
Proof.
  pose proof (group_annotations_dotted_root sample_schema "Number" "va.info" None
                empty_state eq_refl) as H.
  cbn in H. destruct H as (a & Ha & Hk). exists a. split; [exact Ha|].
  rewrite Hk. reflexivity.
Defined.

(** ** Lookups when no two fields share a key *)

Lemma od_update_new {V} (d e : odict V) :
  NoDup (od_keys d ++ od_keys e) -> od_update d e = d ++ e.
Proof.
  unfold od_update. revert d. induction e as [|[k v] e IH]; intros d Hnd.
  - by rewrite app_nil_r.
  - cbn [foldl fst snd]. 
    change (od_keys ((k, v) :: e)) with (k :: od_keys e) in Hnd.
    rewrite od_set_new.
    + rewrite IH; [by rewrite <- app_assoc|].
      rewrite od_keys_app. change (od_keys [(k, v)]) with [k].
      by rewrite <- app_assoc.
    + apply NoDup_app in Hnd as (_ & Hdis & _). intros Hk.
      apply (Hdis k Hk). by left.
Qed.

Lemma keyed_fields_cons root f fs :
  keyed_fields root (TStruct (f :: fs)) =
  (extend_path root (name f), f) ::
  keyed_fields (extend_path root (name f)) (typ f) ++ keyed_fields root (TStruct fs).
Proof.
  unfold keyed_fields. rewrite fields_at_cons. cbn [map app].
  rewrite map_app, map_map. reflexivity.
Qed.

Lemma keyed_fields_leaf root t : class_of t <> CStruct -> keyed_fields root t = [].
Proof. by destruct t. Qed.

Lemma flatten_loop_full fs :
  Forall (fun f => forall root,
    NoDup (od_keys (keyed_fields root (typ f))) ->
    flatten_fields (typ f) root false true = keyed_fields root (typ f)) fs ->
  forall root result,
    NoDup (od_keys result ++ od_keys (keyed_fields root (TStruct fs))) ->
    flatten_loop (fun t path => flatten_fields t path false true) fs root false true result =
    result ++ keyed_fields root (TStruct fs).
Proof.
  induction 1 as [|f fs Hf Hfs IH]; intros root result Hnd.
  - by rewrite app_nil_r.
  - rewrite keyed_fields_cons in *. cbn [flatten_loop].
    fold (extend_path root (name f)). set (path := extend_path root (name f)) in *.
    change (od_keys ((path, f) :: ?l)) with (path :: od_keys l) in Hnd.
    rewrite od_keys_app in Hnd.
    assert (Hset : od_set path f result = result ++ [(path, f)]).
    { apply od_set_new. apply NoDup_app in Hnd as (_ & Hdis & _).
      intros Hk. apply (Hdis path Hk). by left. }
    assert (Hnd' : NoDup (od_keys (result ++ [(path, f)]) ++
                          od_keys (keyed_fields path (typ f)) ++
                          od_keys (keyed_fields root (TStruct fs)))).
    { rewrite od_keys_app. change (od_keys [(path, f)]) with [path].
      by rewrite <- app_assoc. }
    destruct (typ f) as [| | | | | | | |gs] eqn:Htyp;
      try (rewrite Hset, IH; [by rewrite <- app_assoc|exact Hnd']).
    rewrite Hset, Hf.
    + rewrite od_update_new.
      * rewrite IH; [by rewrite <- !app_assoc|].
        rewrite od_keys_app, <- app_assoc. exact Hnd'.
      * rewrite app_assoc in Hnd'. by apply NoDup_app in Hnd' as (? & _ & _).
    + apply NoDup_app in Hnd' as (_ & _ & Hnd'). by apply NoDup_app in Hnd' as (? & _ & _).
Qed.

Lemma flatten_fields_full t root :
  NoDup (od_keys (keyed_fields root t)) ->
  flatten_fields t root false true = keyed_fields root t.
Proof.
  revert root. induction t as [| | | | | | | |fs IH] using Ty_nested_ind;
    intros root Hnd; try done.
  cbn [flatten_fields]. by rewrite flatten_loop_full.
Qed.

Lemma od_get_NoDup {V} k (v : V) d : NoDup (od_keys d) -> (k, v) ∈ d -> od_get k d = Some v.
Proof.
  unfold od_keys. induction d as [|[k' v'] d IH]; csimpl; [by intros _ ?%elem_of_nil|].
  intros [Hk Hnd]%NoDup_cons [[= -> ->]|Hin]%elem_of_cons.
  - by rewrite decide_True.
  - rewrite decide_False; [by apply IH|]. intros ->. apply Hk.
    apply list_elem_of_fmap. by exists (k, v).
Qed.

(** X17: when no two fields of the schema get the same key (no name comes
    twice in a struct and no dotted name imitates a nested path), the lookup
    of the key of a path finds the field that stands at that path, at the top
    or in a nested struct, and its type; nothing is logged. *)
Theorem get_ann_field_finds schema root st p f :
  NoDup (map (fun pf => join_path root pf.1) (fields_at schema)) ->
  (p, f) ∈ fields_at schema ->
  get_ann_field (join_path root p) schema root st = Done f st /\
  get_ann_type (join_path root p) schema root st = Done (typ f) st /\
  ann_exists (join_path root p) schema root st = Done true st.
Proof.
  intros Hnd Hp.
  assert (Hkeys : od_keys (keyed_fields root schema) =
                  map (fun pf => join_path root pf.1) (fields_at schema)).
  { unfold keyed_fields, od_keys. rewrite <- list_fmap_compose. done. }
  rewrite <- Hkeys in Hnd.
  assert (Hget : od_get (join_path root p) (flatten_fields schema root false true) = Some f).
  { rewrite flatten_fields_full by done. apply od_get_NoDup; [done|].
    unfold keyed_fields. apply list_elem_of_fmap. by exists (p, f). }
  destruct schema as [| | | | | | | |fs]; try (by apply elem_of_nil in Hp).
  unfold ann_exists, get_ann_type, get_ann_field, bind. cbn [flatten_struct ret].
  rewrite Hget. repeat split. f_equal. apply od_mem_spec.
  apply elem_of_od_keys. exists f. by apply od_get_Some_elem.
Qed.

Lemma get_ann_field_finds_witness :
  get_ann_field "va.info.AN" sample_schema "va" empty_state =
    Done (MkField "AN" TInt 2) empty_state.
Proof.
  refine (proj1 (get_ann_field_finds sample_schema "va" empty_state
                   ["info"; "AN"] (MkField "AN" TInt 2) _ _)).
  - vm_compute. repeat (constructor; [set_solver|]). constructor.
  - vm_compute. set_solver.
Defined.

(** ** Existence of an annotation *)

Lemma flatten_fields_complete t root p f :
  (p, f) ∈ fields_at t ->
  join_path root p ∈ od_keys (flatten_fields t root false true).
Proof.
  revert root p f. induction t as [| | | | | | | |fs IH] using Ty_nested_ind;
    intros root p f Hp; try (by apply elem_of_nil in Hp).
  cbn [fields_at] in Hp.
  apply list_elem_of_In, in_concat in Hp as (l & (g & <- & Hg)%in_map_iff & Hp).
  apply list_elem_of_In in Hp, Hg. cbn [flatten_fields].
  apply flatten_loop_has_key. right. exists g. split; [done|].
  apply elem_of_cons in Hp as [[= -> ->]|Hp].
  - left. by split.
  - apply list_elem_of_fmap in Hp as ([q h] & [= -> ->] & Hq). cbn [fst snd] in *.
    right.
    assert (Hclass : class_of (typ g) = CStruct).
    { destruct (typ g); try (by apply elem_of_nil in Hq). done. }
    split; [done|]. split; [done|].
    rewrite Forall_forall in IH. exact (IH g Hg _ _ _ Hq).
Qed.

(** X5: [ann_exists] tells whether the annotation is the key of a path of
    the schema, and it is the guard of [get_ann_field] and [get_ann_type].
    On a schema that is no struct all three raise [AttributeError]. On a
    struct [ann_exists] answers without touching the state, and it answers
    [True] exactly when some field of the schema, at the top or nested, has
    the annotation as the key of its path; both lookups then return (the type
    being that of the field found); when it answers [False] both log one
    error naming the annotation and exit. *)
Theorem ann_exists_guards_lookup annotation schema root st :
  (class_of schema <> CStruct ->
   ann_exists annotation schema root st = Raise AttributeError st /\
   get_ann_field annotation schema root st = Raise AttributeError st /\
   get_ann_type annotation schema root st = Raise AttributeError st) /\
  (class_of schema = CStruct ->
   exists b,
     ann_exists annotation schema root st = Done b st /\
     (b = true <->
      exists p f, (p, f) ∈ fields_at schema /\ annotation = join_path root p) /\
     if b then
       exists f, get_ann_field annotation schema root st = Done f st /\
                 get_ann_type annotation schema root st = Done (typ f) st
     else
       let st_err :=
         MkState (heap st) (log st ++ [(ERROR, annotation +:+ " missing from schema.")]) in
       get_ann_field annotation schema root st = Raise SystemExit st_err /\
       get_ann_type annotation schema root st = Raise SystemExit st_err).
Proof.
  split.
  - intros Hclass. by destruct schema.
  - intros Hclass. destruct schema as [| | | | | | | |fs]; try discriminate Hclass.
    exists (od_mem annotation (flatten_fields (TStruct fs) root false true)).
    split; [reflexivity|]. split.
    + rewrite od_mem_spec. split.
      * intros [g (p & Hp & ->)%flatten_fields_sound]%elem_of_od_keys. by exists p, g.
      * intros (p & f & Hp & ->). by eapply flatten_fields_complete.
    + unfold get_ann_type, get_ann_field, bind. cbn [flatten_struct ret].
      destruct (od_mem annotation _) eqn:Hmem.
      * apply od_mem_spec in Hmem.
        destruct (od_get annotation _) as [f|] eqn:Hget; [by exists f|].
        by apply od_get_None in Hget.
      * destruct (od_get annotation _) as [f|] eqn:Hget; [|done].
        assert (Hin : annotation ∈ od_keys (flatten_fields (TStruct fs) root false true)).
        { apply elem_of_od_keys. exists f. by apply od_get_Some_elem. }
        apply od_mem_spec in Hin. congruence.
Qed.

Lemma ann_exists_guards_lookup_witness :
  exists b,
    ann_exists "va.info.AN" sample_schema "va" empty_state = Done b empty_state /\
    (b = true <->
     exists p f, (p, f) ∈ fields_at sample_schema /\ "va.info.AN" = join_path "va" p).
Proof.
  destruct (proj2 (ann_exists_guards_lookup "va.info.AN" sample_schema "va" empty_state)
              eq_refl) as (b & Hb & Hiff & _).
  by exists b.
Defined.

(** ** The attribute grouper ends and changes nothing *)

Lemma filter_length_le {A} (P Q : A -> Prop) `{!forall x, Decision (P x)}
    `{!forall x, Decision (Q x)} (l : list A) :
  (forall x, P x -> Q x) -> length (filter P l) <= length (filter Q l).
Proof.
  intros HPQ. induction l as [|x l IH]; [done|].
  rewrite !filter_cons. destruct (decide (P x)) as [HP|HP].
  - rewrite decide_True by auto. simpl. lia.
  - destruct (decide (Q x)); simpl; lia.
Qed.

Lemma filter_length_lt {A} (P Q : A -> Prop) `{!forall x, Decision (P x)}
    `{!forall x, Decision (Q x)} (l : list A) y :
  (forall x, P x -> Q x) -> y ∈ l -> Q y -> ~ P y ->
  length (filter P l) < length (filter Q l).
Proof.
  intros HPQ Hy HQ HP. induction l as [|x l IH]; [by apply elem_of_nil in Hy|].
  rewrite !filter_cons. apply elem_of_cons in Hy as [<-|Hy].
  - rewrite decide_False, decide_True by done. simpl.
    pose proof (filter_length_le P Q l HPQ). lia.
  - specialize (IH Hy). destruct (decide (P x)) as [HPx|HPx].
    + rewrite decide_True by auto. simpl. lia.
    + destruct (decide (Q x)); simpl; lia.
Qed.

Lemma dotted_length root n : String.length root < String.length (dotted root n).
Proof. unfold dotted. rewrite !string_length_app. simpl. lia. Qed.

Lemma longer_keys_all schema root :
  length (longer_keys schema root) <=
  length (flatten_fields schema "va" false true).
Proof.
  unfold longer_keys. etrans; [apply length_filter|].
  unfold od_keys. by rewrite length_fmap.
Qed.

Lemma longer_keys_below schema root path :
  path ∈ od_keys (flatten_fields schema "va" false true) ->
  String.length root < String.length path ->
  length (longer_keys schema path) < length (longer_keys schema root).
Proof.
  intros Hin Hlen. unfold longer_keys.
  apply (filter_length_lt _ _ _ path); [|done|done|lia].
  intros k Hk. lia.
Qed.

Lemma longer_keys_key schema path :
  path ∈ od_keys (flatten_fields schema "va" false true) ->
  length (longer_keys schema path) < length (flatten_fields schema "va" false true).
Proof.
  intros Hin.
  assert (Hall : length (filter (fun _ : string => True)
                           (od_keys (flatten_fields schema "va" false true))) =
                 length (flatten_fields schema "va" false true)).
  { unfold od_keys. rewrite <- (length_fmap fst). f_equal.
    induction (_ <$> _) as [|x l IH]; [done|].
    rewrite filter_cons, decide_True by done. by rewrite IH. }
  rewrite <- Hall. unfold longer_keys.
  apply (filter_length_lt _ _ _ path); [done|done|done|lia].
Qed.

(** The fields of a struct that the full flattening has filed have their
    own paths filed as well. *)
Lemma flatten_fields_children t root k f0 gs g :
  (k, f0) ∈ flatten_fields t root false true ->
  typ f0 = TStruct gs -> g ∈ gs -> k <> "" ->
  dotted k (name g) ∈ od_keys (flatten_fields t root false true).
Proof.
  revert root k. induction t as [| | | | | | | |fs IH] using Ty_nested_ind;
    intros root k Hin Htyp Hg Hk; try (by apply elem_of_nil in Hin).
  cbn [flatten_fields] in *.
  apply flatten_loop_elem in Hin as [Hin|(f & Hf & Hin)];
    [by apply elem_of_nil in Hin|].
  apply flatten_loop_has_key. right. exists f. split; [done|]. right.
  destruct Hin as [[[= -> <-] _]|(Hclass & _ & Hin)].
  - split; [by rewrite Htyp|]. split; [done|].
    rewrite Htyp. cbn [flatten_fields]. apply flatten_loop_has_key.
    right. exists g. split; [done|]. left. split; [|done].
    generalize dependent (extend_path root (name f0)). intros k Hk.
    unfold extend_path. by destruct k.
  - split; [done|]. split; [done|].
    rewrite Forall_forall in IH. by apply (IH f Hf).
Qed.

Lemma contains_dot_dotted root n : contains_dot (dotted root n) = true.
Proof.
  unfold dotted. rewrite !contains_dot_app.
  change (contains_dot ".") with true. by rewrite orb_true_r.
Qed.

Lemma contains_dot_nonempty s : contains_dot s = true -> s <> "".
Proof. by destruct s. Qed.

Lemma group_fuel_ends n schema key root recursive default_func st :
  0 < n ->
  (contains_dot root = false ->
   length (flatten_fields schema "va" false true) < n) ->
  (root ∈ od_keys (flatten_fields schema "va" false true) ->
   length (longer_keys schema root) < n) ->
  wp (group_annotations_fuel n schema key root recursive default_func) st
    (fun _ st' => st' = st)
    (fun e st' => (e = SystemExit \/ e = AttributeError) /\ heap st' = heap st)
    False.
Proof.
  revert root st. induction n as [|n IH]; intros root st Hpos Hplain Hkey; [lia|].
  cbn [group_annotations_fuel]. apply wp_bind.
  set (flat := flatten_fields schema "va" false true) in *.
  (* the fields to group: the schema itself or the struct found at the root *)
  assert (Hfields :
    wp (if contains_dot root then get_ann_type root schema "va" else ret schema) st
      (fun fields st' =>
         st' = st /\
         forall fs g, fields = TStruct fs -> g ∈ fs ->
           0 < n /\
           (dotted root (name g) ∈ od_keys flat ->
            length (longer_keys schema (dotted root (name g))) < n))
      (fun e st' => (e = SystemExit \/ e = AttributeError) /\ heap st' = heap st)
      False).
  { destruct (contains_dot root) eqn:Hdot.
    - unfold wp, get_ann_type, get_ann_field, bind.
      destruct schema as [| | | | | | | |sfs]; try (split; [by right|done]).
      cbn [flatten_struct ret].
      destruct (od_get root (flatten_fields (TStruct sfs) "va" false true))
        as [f0|] eqn:Hget.
      + split; [done|]. intros fs g Hfs Hg.
        assert (Hroot : root ∈ od_keys flat).
        { apply elem_of_od_keys. exists f0. by apply od_get_Some_elem. }
        assert (Hchild : dotted root (name g) ∈ od_keys flat).
        { apply od_get_Some_elem in Hget.
          eapply flatten_fields_children; [exact Hget|exact Hfs|exact Hg|].
          by apply contains_dot_nonempty. }
        pose proof (longer_keys_below _ root _ Hchild (dotted_length root (name g))).
        specialize (Hkey Hroot). split; [lia|]. intros _. lia.
      + split; [by left|done].
    - apply wp_ret. split; [done|]. intros fs g -> Hg. specialize (Hplain eq_refl).
      assert (Hchild : dotted "va" (name g) ∈ od_keys flat).
      { exact (proj2 (direct_path_is_key fs g true Hg)). }
      split.
      + apply elem_of_od_keys in Hchild as [x Hx].
        destruct flat; [by apply elem_of_nil in Hx|]. simpl in Hplain. lia.
      + intros Hin. pose proof (longer_keys_key _ _ Hin). fold flat in H. lia. }
  eapply wp_mono; [exact Hfields| |done|done].
  intros fields st' [-> Hrec].
  destruct fields as [| | | | | | | |fs];
    try (apply wp_raise; split; [by right|done]).
  apply (wp_fold_each (fun _ _ st1 => st1 = st)); [done|].
  intros pre g post acc st1 -> ->.
  unfold group_field. destruct (bool_decide (class_of (typ g) = CArray)).
  { apply wp_bind. unfold get_attrs, wp.
    by destruct (attrs_at st (attributes g) !! key). }
  destruct (recursive && bool_decide (class_of (typ g) = CStruct)).
  - apply wp_bind.
    destruct (Hrec (pre ++ g :: post) g eq_refl) as [Hn Hlen].
    { apply elem_of_app. right. by left. }
    eapply wp_mono; [apply IH| |done|done].
    + exact Hn.
    + intros Hdot. by rewrite contains_dot_dotted in Hdot.
    + exact Hlen.
    + intros a st2 ->. by apply wp_ret.
  - destruct default_func; by apply wp_ret.
Qed.

Lemma group_annotations_ends schema key root recursive default_func st :
  wp (group_annotations_by_attribute schema key root recursive default_func) st
    (fun _ st' => st' = st)
    (fun e st' => (e = SystemExit \/ e = AttributeError) /\ heap st' = heap st)
    False.
Proof.
  apply group_fuel_ends.
  - lia.
  - intros _. lia.
  - intros _. pose proof (longer_keys_all schema root). lia.
Qed.

(** ** Which operations change their inputs *)

Lemma flatten_struct_pure t root leaf_only recursive st :
  wp (flatten_struct t root leaf_only recursive) st
    (fun _ st' => st' = st) (fun _ st' => st' = st) False.
Proof. by destruct t. Qed.

Lemma replace_schema_expr_pure old new st :
  wp (replace_schema_expr old new) st
    (fun _ st' => st' = st) (fun _ st' => st' = st) False.
Proof.
  destruct old as [| | | | | | | |ofs]; try done.
  destruct new as [| | | | | | | |nfs]; try done.
  unfold wp. rewrite replace_schema_expr_spec. by destruct (forallb _ nfs).
Qed.

Lemma merge_TStructs_ends s st : merge_TStructs s st <> Timeout.
Proof.
  destruct s as [|x [|y s]]; [done|done|].
  set (l := x :: y :: s).
  destruct (decide (Forall is_struct l)) as [Hall|Hnot].
  - pose proof (merge_fuel_raises (S (max_depth l)) l st (Nat.lt_succ_diag_r _)
                  Hall ltac:(done)) as Hr.
    unfold wp in Hr. fold (merge_TStructs l) in Hr. by destruct (merge_TStructs l st).
  - pose proof (map_each_flatten l st) as Hf. unfold wp in Hf.
    unfold merge_TStructs. rewrite merge_fuel_unfold by (simpl; lia). unfold bind.
    by destruct (map_each _ l st) as [q st1|e st1|]; [destruct Hf as (_ & _ & ?)| |].
Qed.

(** C4 (amended): flattening, grouping and replacing leave their inputs
    and the whole state as they were (a grouping that exits has logged its
    error and changed no attribute). [merge_TStructs] does change its
    inputs, within these bounds. A list of two or more structs is left as it
    was; a list of one struct is emptied and its struct is what is returned.
    Whether the merge returns or raises, the attribute dictionaries are only
    ever extended: no entry is removed or changed, the dictionaries that gain
    entries are those of the fields of the input structs, and the log only
    gets longer. And the dictionary of the input field in which a name is
    first seen is extended in place: when the merge returns it holds the
    union of its entries and those of the same-named fields of the later
    structs, so that every key of a later field is now a key of this input
    field, and the merged field carries this very dictionary. *)
Theorem merge_TStructs_effects :
  (forall t root leaf_only recursive st,
     wp (flatten_struct t root leaf_only recursive) st
       (fun _ st' => st' = st) (fun _ st' => st' = st) False) /\
  (forall schema key root recursive default_func st,
     wp (group_annotations_by_attribute schema key root recursive default_func) st
       (fun _ st' => st' = st) (fun _ st' => heap st' = heap st) False) /\
  (forall old new st,
     wp (replace_schema_expr old new) st
       (fun _ st' => st' = st) (fun _ st' => st' = st) False) /\
  (forall s st r st',
     merge_TStructs s st = Done r st' ->
     (2 <= length s -> r.2 = s) /\
     (length s = 1 -> r.2 = [] /\ s = [r.1])) /\
  (forall s st,
     wp (merge_TStructs s) st
       (fun _ st' => grows (concat (map all_locs s)) st st')
       (fun _ st' => grows (concat (map all_locs s)) st st')
       False) /\
  (forall before fs after nm f st T s' st',
     2 <= length (before ++ TStruct fs :: after) ->
     Forall (fun t => nm ∉ field_names t) before ->
     NoDup (map name fs) -> f ∈ fs -> name f = nm ->
     separate_attributes (before ++ TStruct fs :: after) ->
     merge_TStructs (before ++ TStruct fs :: after) st = Done (T, s') st' ->
     attrs_at st' (attributes f) =
       foldl (∪) (attrs_at st (attributes f))
         (map (fun f2 => attrs_at st (attributes f2))
              (overlap_of nm (map direct_fields after))) /\
     (forall f2 k, f2 ∈ overlap_of nm (map direct_fields after) ->
        is_Some (attrs_at st (attributes f2) !! k) ->
        is_Some (attrs_at st' (attributes f) !! k)) /\
     exists g, g ∈ struct_fields T /\ name g = nm /\ attributes g = attributes f).
Proof.
  split; [exact flatten_struct_pure|].
  split.
  { intros schema key root recursive default_func st.
    eapply wp_mono; [apply group_annotations_ends|done| |done].
    by intros e st' [_ ?]. }
  split; [exact replace_schema_expr_pure|].
  split.
  { intros s st r st' Hdone. split.
    - intros Hlen.
      by pose proof (wp_done _ _ _ _ _ _ _ (merge_fuel_control _ s st Hlen) Hdone)
        as (? & _).
    - intros Hlen. destruct s as [|x [|y s]]; simpl in Hlen; try lia.
      unfold merge_TStructs in Hdone. simpl in Hdone.
      unfold bind, logger, ret in Hdone. by injection Hdone as <- _. }
  split.
  { intros s st. pose proof (merge_fuel_grows (S (max_depth s)) s st) as Hgrows.
    pose proof (merge_TStructs_ends s st) as Hends.
    unfold wp in *. fold (merge_TStructs s) in Hgrows.
    by destruct (merge_TStructs s st). }
  intros before fs after nm f st T s' st' Hlen Hbefore Hnd Hf Hname Hsep Hdone.
  destruct (merge_attributes_general _ _ _ _ _ _ _ _ _
              Hlen Hbefore Hnd Hf Hname Hsep Hdone)
    as (fields' & -> & ((g & Hget & Hgn & Hga) & Hattrs & _)).
  split; [exact Hattrs|]. split.
  - intros f2 k Hf2 [v Hk]. rewrite Hattrs.
    apply (foldl_union_is_Some _ _ (attrs_at st (attributes f2))).
    right. split; [|by rewrite Hk]. apply elem_of_map_iff. eauto.
  - exists g. split; [|done].
    apply od_get_Some_elem in Hget. cbn [struct_fields]. unfold od_values.
    apply list_elem_of_fmap. by exists (nm, g).
Qed.

Lemma merge_TStructs_effects_witness :
  exists st',
    merge_TStructs [struct_a_int; struct_a_second] numbered_state =
      Done (struct_a_int, [struct_a_int; struct_a_second]) st' /\
    attrs_at numbered_state 0 = ∅ /\
    attrs_at st' 0 = {[ "Number" := "1" ]}.
Proof.
  exists (MkState (<[0 := {[ "Number" := "1" ]}]> (heap numbered_state)) []).
  split; [reflexivity|]. split; [reflexivity|].
  destruct (proj2 (proj2 (proj2 (proj2 (proj2 merge_TStructs_effects))))
              [] [MkField "a" TInt 0] [struct_a_second] "a" (MkField "a" TInt 0)
              numbered_state struct_a_int [struct_a_int; struct_a_second]
              (MkState (<[0 := {[ "Number" := "1" ]}]> (heap numbered_state)) []))
    as (Hunion & _ & _); [..|reflexivity|].
  - simpl. lia.
  - constructor.
  - repeat constructor. apply not_elem_of_nil.
  - left.
  - reflexivity.
  - split.
    + unfold top_fields. simpl. apply NoDup_cons. split; [|apply NoDup_singleton].
      rewrite list_elem_of_singleton. discriminate.
    + intros g x Hg Hx. unfold top_fields in Hg. simpl in Hg.
      rewrite !elem_of_cons, elem_of_nil in Hg.
      destruct Hg as [->|[->|[]]]; by apply elem_of_nil in Hx.
  - cbn [attributes] in Hunion. rewrite Hunion. reflexivity.
Defined.
